(** * Research orchestration engine of the Casino AI Researcher (server.js)

    A shallow embedding of [performResearch] and of the two stage functions
    [discoverCasinosByState] and [researchCasinoOffers], with the properties
    of the reconciliation rules and of the run record proved about it.

    Modelling conventions.
    - A JavaScript string is modelled as the [string] of the bytes of its
      UTF-8 encoding.  [JS.toLowerCase] and [JS.trim] fold and trim the
      ASCII range, where they coincide with the ECMAScript functions; the
      offer filter, which only passes what [toLowerCase] returns on to
      [includes] and [===], is given for every function [toLowerCase]
      ([Filter]).
    - Amounts ([expectedBonus], [expectedDeposit]) are JavaScript numbers,
      modelled as binary64 [float]s with the arithmetic of the kernel.
    - A property that may be absent from a JSON object or from a stored
      document is an [option]; [None] is JavaScript's [undefined].
    - The document store, the upstream completion service, [JSON.parse], the
      regular-expression engine and the clock are collaborators of the code:
      they are fields of an environment [Env], and the universally
      quantified theorems hold for every environment. *)

From Stdlib Require Import String Ascii List ZArith Bool Arith Lia PrimFloat.
Import ListNotations.
Local Open Scope string_scope.
Local Open Scope nat_scope.

Set Implicit Arguments.

(** ** JavaScript string primitives *)

Module JS.

Definition is_upper (c : ascii) : bool :=
  let n := nat_of_ascii c in (65 <=? n) && (n <=? 90).

Definition lower_char (c : ascii) : ascii :=
  if is_upper c then ascii_of_nat (nat_of_ascii c + 32) else c.

(** [String.prototype.toLowerCase]. *)
Fixpoint toLowerCase (s : string) : string :=
  match s with
  | EmptyString => EmptyString
  | String c s' => String (lower_char c) (toLowerCase s')
  end.

(** White space and line terminators removed by [trim]:
    TAB, LF, VT, FF, CR and SPACE. *)
Definition is_space (c : ascii) : bool :=
  let n := nat_of_ascii c in ((9 <=? n) && (n <=? 13)) || (n =? 32).

Fixpoint trimStart (s : string) : string :=
  match s with
  | EmptyString => EmptyString
  | String c s' => if is_space c then trimStart s' else s
  end.

Fixpoint trimEnd (s : string) : string :=
  match s with
  | EmptyString => EmptyString
  | String c s' =>
      match trimEnd s' with
      | EmptyString => if is_space c then EmptyString else String c EmptyString
      | t => String c t
      end
  end.

(** [String.prototype.trim]. *)
Definition trim (s : string) : string := trimEnd (trimStart s).

(** [s.includes(t)]: [t] occurs in [s] as a contiguous substring. *)
Fixpoint includes (s t : string) : bool :=
  String.prefix t s ||
  match s with
  | EmptyString => false
  | String _ s' => includes s' t
  end.

(** The argument of [includes] is converted with [ToString]: an
    [undefined] argument is searched for as the text [undefined]. *)
Definition ToString (o : option string) : string :=
  match o with Some s => s | None => "undefined" end.

(** A text all of whose characters are in the ASCII range. *)
Definition is_ascii_char (c : ascii) : bool := nat_of_ascii c <? 128.

Fixpoint is_ascii (s : string) : bool :=
  match s with
  | EmptyString => true
  | String c s' => is_ascii_char c && is_ascii s'
  end.

(** The falsy numbers: [0], [-0] and [NaN]. *)
Definition falsy (n : float) : bool :=
  PrimFloat.eqb n 0%float || negb (PrimFloat.eqb n n).

(** [x || 0] on a number: [undefined] and the falsy numbers give [0]. *)
Definition or_zero (o : option float) : float :=
  match o with
  | Some n => if falsy n then 0%float else n
  | None => 0%float
  end.

(** The number that the decimal numeral of an integer denotes; the
    integers below [2^53] in absolute value are numbers. *)
Fixpoint number_of_pos (p : positive) : float :=
  match p with
  | xH => 1%float
  | xO p' => PrimFloat.mul 2%float (number_of_pos p')
  | xI p' => PrimFloat.add (PrimFloat.mul 2%float (number_of_pos p')) 1%float
  end.

Definition number (z : Z) : float :=
  match z with
  | Z0 => 0%float
  | Zpos p => number_of_pos p
  | Zneg p => PrimFloat.opp (number_of_pos p)
  end.

(** Decimal rendering of a length inside a template literal. *)
Fixpoint digits (fuel n : nat) (acc : string) : string :=
  match fuel with
  | O => acc
  | S fuel' =>
      let acc' := String (ascii_of_nat (48 + n mod 10)) acc in
      if n / 10 =? 0 then acc' else digits fuel' (n / 10) acc'
  end.

Definition string_of_nat (n : nat) : string := digits (S n) n EmptyString.

End JS.

(** ** Offers: discovered candidates and stored documents *)

(** An element of the [offers] array of a research response. *)
Module DOffer.
Record t := mk {
  offerName : option string;
  offerType : option string;
  expectedDeposit : option float;
  expectedBonus : option float;
  description : option string;
  terms : option string
}.
End DOffer.

Definition Date := nat.
Definition ObjectId := nat.

(** A document of the [Offer] collection ([offerSchema]). *)
Module Offer.
Record t := mk {
  casinoId : option ObjectId;
  casinoName : string;
  state : string;
  stateAbbreviation : string;
  offerName : option string;
  offerType : option string;
  expectedDeposit : option float;
  expectedBonus : option float;
  description : option string;
  bonusAmount : option float;
  bonusType : option string;
  terms : option string;
  source : string;
  casinodb_id : option Z;
  discoveredDate : Date;
  verified : bool
}.
End Offer.

(** ** Offer reconciliation (performResearch, the [newOffers] filter) *)

(** The filter for a given [toLowerCase], the builtin through which it
    reads the names and the types. *)
Module Filter.
Section Folding.

Variable toLowerCase : string -> string.

(** [a?.toLowerCase().includes(b?.toLowerCase())], read as a condition:
    the optional chain is [undefined] (falsy) when [a] is absent. *)
Definition chain_includes (a b : option string) : bool :=
  match a with
  | None => false
  | Some x => JS.includes (toLowerCase x)
                (JS.ToString (option_map toLowerCase b))
  end.

Definition nameMatch (cOffer : Offer.t) (dOffer : DOffer.t) : bool :=
  chain_includes (Offer.offerName cOffer) (DOffer.offerName dOffer)
  || chain_includes (DOffer.offerName dOffer) (Offer.offerName cOffer).

Definition opt_string_eqb (a b : option string) : bool :=
  match a, b with
  | Some x, Some y => String.eqb x y
  | None, None => true
  | _, _ => false
  end.

(** [cOffer.offerType?.toLowerCase() === dOffer.offerType?.toLowerCase()]. *)
Definition typeMatch (cOffer : Offer.t) (dOffer : DOffer.t) : bool :=
  opt_string_eqb (option_map toLowerCase (Offer.offerType cOffer))
                 (option_map toLowerCase (DOffer.offerType dOffer)).

(** [Math.abs((cOffer.expectedBonus || 0) - (dOffer.expectedBonus || 0)) < 50]. *)
Definition amountMatch (cOffer : Offer.t) (dOffer : DOffer.t) : bool :=
  PrimFloat.ltb
    (PrimFloat.abs
       (PrimFloat.sub (JS.or_zero (Offer.expectedBonus cOffer))
                      (JS.or_zero (DOffer.expectedBonus dOffer))))
    50%float.

(** The callback of [currentOffers.some]. *)
Definition offerMatches (dOffer : DOffer.t) (cOffer : Offer.t) : bool :=
  nameMatch cOffer dOffer || (typeMatch cOffer dOffer && amountMatch cOffer dOffer).

Definition exists_ (currentOffers : list Offer.t) (dOffer : DOffer.t) : bool :=
  existsb (offerMatches dOffer) currentOffers.

(** [discoveredOffers.filter(dOffer => !exists)]. *)
Definition newOffers (currentOffers : list Offer.t)
           (discoveredOffers : list DOffer.t) : list DOffer.t :=
  filter (fun dOffer => negb (exists_ currentOffers dOffer)) discoveredOffers.

End Folding.
End Filter.

(** The filter with [JS.toLowerCase], as the run applies it. *)
Module Reconcile.

Definition chain_includes : option string -> option string -> bool :=
  Filter.chain_includes JS.toLowerCase.

Definition nameMatch : Offer.t -> DOffer.t -> bool :=
  Filter.nameMatch JS.toLowerCase.

Definition opt_string_eqb : option string -> option string -> bool :=
  Filter.opt_string_eqb.

Definition typeMatch : Offer.t -> DOffer.t -> bool :=
  Filter.typeMatch JS.toLowerCase.

Definition amountMatch : Offer.t -> DOffer.t -> bool := Filter.amountMatch.

Definition offerMatches : DOffer.t -> Offer.t -> bool :=
  Filter.offerMatches JS.toLowerCase.

Definition exists_ : list Offer.t -> DOffer.t -> bool :=
  Filter.exists_ JS.toLowerCase.

Definition newOffers : list Offer.t -> list DOffer.t -> list DOffer.t :=
  Filter.newOffers JS.toLowerCase.

End Reconcile.


(** ** Regular expressions: the fragment used by the concrete scenarios

    [new RegExp(source, 'i')] is a builtin and the store evaluates the
    resulting pattern; both are collaborators (see [Env]).  The concrete
    scenarios need one concrete engine: [RegExp.construct] implements the
    fragment made of literal characters, [.], the anchors [^] and [$],
    groups, alternation, the quantifiers [*], [+], [?] (greedy or lazy) and
    escaped syntax characters, matched case-insensitively.  Any other
    construct (classes, braces, other escapes, special groups) is reported
    as [Unsupported]; no statement of this file evaluates the engine on such
    a pattern. *)

Module RegExp.

Inductive re :=
| Empty
| Char (c : ascii)
| Dot
| Bol
| Eol
| Seq (r1 r2 : re)
| Alt (r1 r2 : re)
| Star (r : re).

Inductive outcome (A : Type) :=
| Ok (a : A)
| Invalid (msg : string)
| Unsupported.
Arguments Ok {A} a.
Arguments Invalid {A} msg.
Arguments Unsupported {A}.

Definition bind {A B} (o : outcome A) (k : A -> outcome B) : outcome B :=
  match o with
  | Ok a => k a
  | Invalid m => Invalid m
  | Unsupported => Unsupported
  end.

(** SyntaxCharacter of the ECMAScript pattern grammar. *)
Definition is_syntax_char (c : ascii) : bool :=
  existsb (Ascii.eqb c)
    ["^"; "$"; "\"; "."; "*"; "+"; "?"; "("; ")"; "["; "]"; "{"; "}"; "|"]%char.

Definition skip_lazy (s : string) : string :=
  match s with
  | String "?" s' => s'
  | _ => s
  end.

Definition quantifier (r : re) (s : string) : outcome (re * string) :=
  match s with
  | String "*" s' => Ok (Star r, skip_lazy s')
  | String "+" s' => Ok (Seq r (Star r), skip_lazy s')
  | String "?" s' => Ok (Alt r Empty, skip_lazy s')
  | String "{" _ => Unsupported
  | _ => Ok (r, s)
  end.

(** Recursive descent over Disjunction / Alternative / Term; [fuel] bounds
    the nesting and is taken larger than the pattern needs. *)
Fixpoint disjunction (fuel : nat) (s : string) : outcome (re * string) :=
  match fuel with
  | O => Unsupported
  | S f =>
      bind (alternative f s) (fun '(r1, rest) =>
        match rest with
        | String "|" rest' =>
            bind (disjunction f rest') (fun '(r2, rest'') => Ok (Alt r1 r2, rest''))
        | _ => Ok (r1, rest)
        end)
  end
with alternative (fuel : nat) (s : string) : outcome (re * string) :=
  match fuel with
  | O => Unsupported
  | S f =>
      match s with
      | EmptyString => Ok (Empty, s)
      | String "|" _ => Ok (Empty, s)
      | String ")" _ => Ok (Empty, s)
      | _ =>
          bind (term f s) (fun '(r1, rest) =>
            bind (alternative f rest) (fun '(r2, rest') => Ok (Seq r1 r2, rest')))
      end
  end
with term (fuel : nat) (s : string) : outcome (re * string) :=
  match fuel with
  | O => Unsupported
  | S f =>
      match s with
      | EmptyString => Ok (Empty, s)
      | String "^" rest => Ok (Bol, rest)
      | String "$" rest => Ok (Eol, rest)
      | String "*" _ => Invalid "Nothing to repeat"
      | String "+" _ => Invalid "Nothing to repeat"
      | String "?" _ => Invalid "Nothing to repeat"
      | String "." rest => quantifier Dot rest
      | String "(" (String "?" _) => Unsupported
      | String "(" rest =>
          bind (disjunction f rest) (fun '(r, rest') =>
            match rest' with
            | String ")" rest'' => quantifier r rest''
            | _ => Invalid "Unterminated group"
            end)
      | String "\" EmptyString => Invalid "\ at end of pattern"
      | String "\" (String c rest) =>
          if is_syntax_char c then quantifier (Char c) rest else Unsupported
      | String "[" _ => Unsupported
      | String "]" _ => Unsupported
      | String "{" _ => Unsupported
      | String "}" _ => Unsupported
      | String c rest => quantifier (Char c) rest
      end
  end.

Definition parse (source : string) : outcome re :=
  match disjunction (4 * String.length source + 4) source with
  | Ok (r, EmptyString) => Ok r
  | Ok (_, String ")" _) => Invalid "Unmatched ')'"
  | Ok (_, _) => Unsupported
  | Invalid m => Invalid m
  | Unsupported => Unsupported
  end.

Definition is_line_terminator (c : ascii) : bool :=
  let n := nat_of_ascii c in (n =? 10) || (n =? 13).

(** Backtracking matcher: [i] is the index of the next character, [s] the
    rest of the input, [k] the continuation.  The order in which the
    alternatives are tried does not change the boolean result. *)
Fixpoint rmatch (r : re) (i : nat) (s : string) (k : nat -> string -> bool) : bool :=
  match r with
  | Empty => k i s
  | Char c =>
      match s with
      | String a s' =>
          if Ascii.eqb (JS.lower_char a) (JS.lower_char c) then k (S i) s' else false
      | EmptyString => false
      end
  | Dot =>
      match s with
      | String a s' => if is_line_terminator a then false else k (S i) s'
      | EmptyString => false
      end
  | Bol => if i =? 0 then k i s else false
  | Eol => match s with EmptyString => k i s | _ => false end
  | Seq r1 r2 => rmatch r1 i s (fun i' s' => rmatch r2 i' s' k)
  | Alt r1 r2 => rmatch r1 i s k || rmatch r2 i s k
  | Star r1 =>
      (fix iter (n : nat) (i : nat) (s : string) : bool :=
         k i s ||
         match n with
         | O => false
         | S n' => rmatch r1 i s (fun i' s' => if i <? i' then iter n' i' s' else false)
         end) (String.length s) i s
  end.

Fixpoint search (r : re) (i : nat) (s : string) : bool :=
  rmatch r i s (fun _ _ => true) ||
  match s with
  | EmptyString => false
  | String _ s' => search r (S i) s'
  end.

(** [regex.test(s)] without the global or sticky flag. *)
Definition test (r : re) (s : string) : bool := search r 0 s.

(** [new RegExp(source, 'i')] on the fragment: the matching predicate of
    the compiled pattern, or the reason of the [SyntaxError]. *)
Definition construct (source : string) : outcome (string -> bool) :=
  bind (parse source) (fun r => Ok (test r)).

End RegExp.


(** ** Venues and the run record *)

(** An element of the [casinos] array of a discovery response. *)
Module DCasino.
Record t := mk {
  name : option string;
  website : option string;
  licenseNumber : option string;
  city : option string
}.
End DCasino.

(** A document of the [Casino] collection ([casinoSchema]).  Every stored
    venue has a name: the import takes it from the reference data, and the
    venue loop stores the name of a candidate only after calling
    [toLowerCase] on it. *)
Module Casino.
Record t := mk {
  _id : ObjectId;
  name : string;
  state : string;
  stateAbbreviation : string;
  website : option string;
  licenseNumber : option string;
  casinodb_id : option Z;
  discovered : bool;
  createdAt : Date;
  lastUpdated : Date
}.
End Casino.

(** The object [JSON.parse] returns for a stage response, read through the
    two properties the stages use.  The elements are assumed to be shaped
    as the prompts ask: a property that is present has the documented
    type. *)
Module Parsed.
Record t := mk {
  casinos : option (list DCasino.t);
  offers : option (list DOffer.t)
}.
End Parsed.

Inductive Status := pending | in_progress | completed | failed.

(** The offer summaries stored in a comparison entry
    ([{name, type, deposit, bonus}], with [description] for new offers). *)
Module OfferSummary.
Record t := mk {
  name : option string;
  type : option string;
  deposit : option float;
  bonus : option float;
  description : option string
}.
End OfferSummary.

Module Comparison.
Record t := mk {
  casinoName : string;
  state : string;
  currentOffers : list OfferSummary.t;
  discoveredOffers : list OfferSummary.t;
  newOffers : list OfferSummary.t
}.
End Comparison.

Module MissingEntry.
Record t := mk {
  state : string;
  casinos : list string
}.
End MissingEntry.

Module Summary.
Record t := mk {
  totalMissingCasinos : nat;
  totalNewOffers : nat;
  statesProcessed : list string
}.
End Summary.

(** A document of the [ResearchRun] collection ([researchRunSchema]). *)
Module Run.
Record t := mk {
  status : Status;
  startedAt : Date;
  completedAt : option Date;
  currentState : option string;
  currentCasino : option string;
  offersProcessed : nat;
  casinosProcessed : nat;
  progressLog : list string;
  missingCasinos : list MissingEntry.t;
  offerComparisons : list Comparison.t;
  summary : option Summary.t
}.

(** [ResearchRun.create({ status: 'in-progress' })] with the schema defaults. *)
Definition create (d : Date) : t :=
  mk in_progress d None None None 0 0 [] [] [] None.

(** [{ $push: { progressLog: entry } }] *)
Definition push_progressLog (entry : string) (r : t) : t :=
  mk (status r) (startedAt r) (completedAt r) (currentState r) (currentCasino r)
     (offersProcessed r) (casinosProcessed r) (progressLog r ++ [entry])%list
     (missingCasinos r) (offerComparisons r) (summary r).

(** [{ currentState: stateName, currentCasino: null }] *)
Definition set_state (stateName : string) (r : t) : t :=
  mk (status r) (startedAt r) (completedAt r) (Some stateName) None
     (offersProcessed r) (casinosProcessed r) (progressLog r)
     (missingCasinos r) (offerComparisons r) (summary r).

(** [{ currentCasino: casino.name, casinosProcessed: totalCasinosProcessed }] *)
Definition set_casino (casinoName : string) (n : nat) (r : t) : t :=
  mk (status r) (startedAt r) (completedAt r) (currentState r) (Some casinoName)
     (offersProcessed r) n (progressLog r)
     (missingCasinos r) (offerComparisons r) (summary r).

(** [{ offersProcessed: totalOffersProcessed }] *)
Definition set_offersProcessed (n : nat) (r : t) : t :=
  mk (status r) (startedAt r) (completedAt r) (currentState r) (currentCasino r)
     n (casinosProcessed r) (progressLog r)
     (missingCasinos r) (offerComparisons r) (summary r).

(** The final update of a successful run. *)
Definition set_completed (d : Date) (missing : list MissingEntry.t)
           (comparisons : list Comparison.t) (s : Summary.t) (r : t) : t :=
  mk completed (startedAt r) (Some d) None None
     (offersProcessed r) (casinosProcessed r) (progressLog r)
     missing comparisons (Some s).

(** The update of the [catch] branch. *)
Definition set_failed (d : Date) (r : t) : t :=
  mk failed (startedAt r) (Some d) None None
     (offersProcessed r) (casinosProcessed r) (progressLog r)
     (missingCasinos r) (offerComparisons r) (summary r).
End Run.

(** ** Collaborators *)

(** The two prompt templates; a prompt is determined by the values
    interpolated into its template. *)
Inductive Prompt :=
| DiscoverPrompt (state : string)
| ResearchPrompt (casinoName state : string).

Inductive Exn :=
| TypeError (msg : string)
| SyntaxError (msg : string)
| AxiosError (msg : string)
| MongoError (msg : string).

(** [error.message] *)
Definition message (e : Exn) : string :=
  match e with
  | TypeError m => m
  | SyntaxError m => m
  | AxiosError m => m
  | MongoError m => m
  end.

Record Env := mkEnv {
  (** the completion request of [callClaudeAPI]: [complete n p] is the
      outcome of the request for prompt [p] when [n] requests were issued
      before it; [inl m] rejects with message [m], [inr text] is
      [response.data.choices[0].message.content] *)
  complete : nat -> Prompt -> string + string;
  (** [JSON.parse]; [None] is a [SyntaxError] *)
  JSON_parse : string -> option Parsed.t;
  (** [new RegExp(source, 'i')]: [inl m] is a [SyntaxError] with message
      [m], [inr f] the matching predicate of the pattern in a query *)
  new_RegExp : string -> string + (string -> bool);
  (** [store_fault n = Some m]: the store operation issued when [n] were
      issued before it rejects with message [m] *)
  store_fault : nat -> option string;
  (** [new Date()] read when [n] store operations were issued *)
  now : nat -> Date;
  toISOString : Date -> string;
  (** the [_id] given to a document created by the [n]-th store operation *)
  new_ObjectId : nat -> ObjectId
}.

(** ** The state of a run *)

(** The mutable variables of [performResearch]. *)
Module Vars.
Record t := mk {
  progressLog : list string;
  missingCasinos : list MissingEntry.t;
  offerComparisons : list Comparison.t;
  totalNewOffers : nat;
  totalCasinosProcessed : nat;
  totalOffersProcessed : nat;
  missing : list string
}.

Definition init : t := mk [] [] [] 0 0 0 [].

Definition push_progressLog (entry : string) (v : t) : t :=
  mk (progressLog v ++ [entry])%list (missingCasinos v) (offerComparisons v)
     (totalNewOffers v) (totalCasinosProcessed v) (totalOffersProcessed v) (missing v).

(** the declarations at the head of the [try] block *)
Definition declare (v : t) : t :=
  mk (progressLog v) [] [] 0 0 0 (missing v).

(** [const missing = []] *)
Definition declare_missing (v : t) : t :=
  mk (progressLog v) (missingCasinos v) (offerComparisons v)
     (totalNewOffers v) (totalCasinosProcessed v) (totalOffersProcessed v) [].

(** [missing.push(casino.name)] *)
Definition push_missing (n : string) (v : t) : t :=
  mk (progressLog v) (missingCasinos v) (offerComparisons v)
     (totalNewOffers v) (totalCasinosProcessed v) (totalOffersProcessed v)
     (missing v ++ [n])%list.

(** [missingCasinos.push({ state: stateName, casinos: missing })] *)
Definition push_missingCasinos (stateName : string) (v : t) : t :=
  mk (progressLog v)
     (missingCasinos v ++ [MissingEntry.mk stateName (missing v)])%list
     (offerComparisons v)
     (totalNewOffers v) (totalCasinosProcessed v) (totalOffersProcessed v) (missing v).

(** [totalCasinosProcessed++] *)
Definition incr_casinos (v : t) : t :=
  mk (progressLog v) (missingCasinos v) (offerComparisons v)
     (totalNewOffers v) (S (totalCasinosProcessed v)) (totalOffersProcessed v) (missing v).

(** [totalNewOffers += n; totalOffersProcessed += n] *)
Definition add_offers (n : nat) (v : t) : t :=
  mk (progressLog v) (missingCasinos v) (offerComparisons v)
     (totalNewOffers v + n) (totalCasinosProcessed v) (totalOffersProcessed v + n) (missing v).

(** [offerComparisons.push(entry)] *)
Definition push_offerComparisons (entry : Comparison.t) (v : t) : t :=
  mk (progressLog v) (missingCasinos v) (offerComparisons v ++ [entry])%list
     (totalNewOffers v) (totalCasinosProcessed v) (totalOffersProcessed v) (missing v).
End Vars.

Record World := mkWorld {
  casinos : list Casino.t;          (* the Casino collection, in insertion order *)
  offers : list Offer.t;            (* the Offer collection, in insertion order *)
  run : Run.t;                      (* the ResearchRun document of this run *)
  ops : nat;                        (* store operations issued so far *)
  calls : list Prompt;              (* completion requests issued so far *)
  vars : Vars.t
}.

Definition with_casinos (f : list Casino.t -> list Casino.t) (w : World) : World :=
  mkWorld (f (casinos w)) (offers w) (run w) (ops w) (calls w) (vars w).
Definition with_offers (f : list Offer.t -> list Offer.t) (w : World) : World :=
  mkWorld (casinos w) (f (offers w)) (run w) (ops w) (calls w) (vars w).
Definition with_run (f : Run.t -> Run.t) (w : World) : World :=
  mkWorld (casinos w) (offers w) (f (run w)) (ops w) (calls w) (vars w).
Definition with_vars (f : Vars.t -> Vars.t) (w : World) : World :=
  mkWorld (casinos w) (offers w) (run w) (ops w) (calls w) (f (vars w)).
Definition tick (w : World) : World :=
  mkWorld (casinos w) (offers w) (run w) (S (ops w)) (calls w) (vars w).
Definition record_call (p : Prompt) (w : World) : World :=
  mkWorld (casinos w) (offers w) (run w) (ops w) (calls w ++ [p])%list (vars w).

(** ** Computations that read and write the world and may throw

    A thrown exception keeps the world as it was when it was thrown: the
    store has no transactions. *)

Definition M (A : Type) : Type := World -> World * (Exn + A).

Definition ret {A} (a : A) : M A := fun w => (w, inr a).

Definition throw {A} (e : Exn) : M A := fun w => (w, inl e).

Definition bind {A B} (m : M A) (k : A -> M B) : M B :=
  fun w =>
    match m w with
    | (w', inr a) => k a w'
    | (w', inl e) => (w', inl e)
    end.

(** [try { m } catch (error) { h error }] *)
Definition try_catch {A} (m : M A) (h : Exn -> M A) : M A :=
  fun w =>
    match m w with
    | (w', inr a) => (w', inr a)
    | (w', inl e) => h e w'
    end.

Definition gets {A} (f : World -> A) : M A := fun w => (w, inr (f w)).

Definition modify (f : World -> World) : M unit := fun w => (f w, inr tt).

Notation "x <- m ;; k" := (bind m (fun x => k))
  (at level 61, m at next level, right associativity).
Notation "m ;; k" := (bind m (fun _ => k))
  (at level 61, right associativity).

(** [for (const x of l) { body x }] *)
Fixpoint for_of {A} (l : list A) (body : A -> M unit) : M unit :=
  match l with
  | [] => ret tt
  | x :: l' => body x ;; for_of l' body
  end.


(** ** The stages and the orchestrator *)

Definition nl : string := String (ascii_of_nat 10) EmptyString.

(** [response.match(/\{[\s\S]*\}/)]: the text from the first opening brace
    to the last closing brace after it, when there is one. *)
Fixpoint after_first_brace (s : string) : option string :=
  match s with
  | EmptyString => None
  | String c s' => if Ascii.eqb c "{" then Some s' else after_first_brace s'
  end.

Fixpoint upto_last_brace (s : string) : option string :=
  match s with
  | EmptyString => None
  | String c s' =>
      match upto_last_brace s' with
      | Some t => Some (String c t)
      | None => if Ascii.eqb c "}" then Some (String c EmptyString) else None
      end
  end.

Definition jsonMatch (response : string) : option string :=
  match after_first_brace response with
  | Some rest => option_map (String "{") (upto_last_brace rest)
  | None => None
  end.

(** [Object.entries(states)], in insertion order. *)
Definition states : list (string * string) :=
  [("NJ", "New Jersey"); ("MI", "Michigan"); ("PA", "Pennsylvania");
   ("WV", "West Virginia")].

Definition summarize (o : DOffer.t) (withDescription : bool) : OfferSummary.t :=
  OfferSummary.mk (DOffer.offerName o) (DOffer.offerType o)
    (DOffer.expectedDeposit o) (DOffer.expectedBonus o)
    (if withDescription then DOffer.description o else None).

Definition summarize_stored (o : Offer.t) : OfferSummary.t :=
  OfferSummary.mk (Offer.offerName o) (Offer.offerType o)
    (Offer.expectedDeposit o) (Offer.expectedBonus o) None.

(** [missingCasinos.reduce((sum, s) => sum + s.casinos.length, 0)] *)
Definition count_missing (l : list MissingEntry.t) : nat :=
  fold_left (fun sum s => sum + length (MissingEntry.casinos s)) l 0.

(** [offer.offerType?.toLowerCase() || 'unknown'] *)
Definition bonusType_of (offerType : option string) : string :=
  match option_map JS.toLowerCase offerType with
  | None => "unknown"
  | Some EmptyString => "unknown"
  | Some s => s
  end.

Section Orchestrator.

Variable E : Env.

(** Every store operation is a request that may reject. *)
Definition store_op : M unit :=
  fun w =>
    match store_fault E (ops w) with
    | Some m => (tick w, inl (MongoError m))
    | None => (tick w, inr tt)
    end.

Definition new_Date : M Date := gets (fun w => now E (ops w)).

Definition ResearchRun_findById : M Run.t :=
  store_op ;; gets run.

Definition ResearchRun_findByIdAndUpdate (update : Run.t -> Run.t) : M unit :=
  store_op ;; modify (with_run update).

Definition Casino_find (filter : Casino.t -> bool) : M (list Casino.t) :=
  store_op ;; gets (fun w => List.filter filter (casinos w)).

Definition Casino_findOne (filter : Casino.t -> bool) : M (option Casino.t) :=
  store_op ;; gets (fun w => List.find filter (casinos w)).

Definition Casino_create (doc : ObjectId -> Casino.t) : M unit :=
  id <- gets (fun w => new_ObjectId E (ops w)) ;;
  store_op ;; modify (with_casinos (fun l => l ++ [doc id])%list).

Definition Offer_find (filter : Offer.t -> bool) : M (list Offer.t) :=
  store_op ;; gets (fun w => List.filter filter (offers w)).

Definition Offer_create (doc : Offer.t) : M unit :=
  store_op ;; modify (with_offers (fun l => l ++ [doc])%list).

Definition stamp (d : Date) (message : string) : string :=
  "[" ++ toISOString E d ++ "] " ++ message.

(** [logProgress]; the console is not modelled.  The message texts are
    those of the source file, the characters that open them included. *)
Definition logProgress (message : string) : M unit :=
  d <- new_Date ;;
  modify (with_vars (Vars.push_progressLog (stamp d message))) ;;
  d' <- new_Date ;;
  ResearchRun_findByIdAndUpdate (Run.push_progressLog (stamp d' message)).

Definition callClaudeAPI (prompt : Prompt) : M string :=
  fun w =>
    match complete E (length (calls w)) prompt with
    | inl m => (record_call prompt w, inl (AxiosError m))
    | inr content => (record_call prompt w, inr content)
    end.

Definition parse_json (text : string) : M Parsed.t :=
  match JSON_parse E text with
  | Some parsed => ret parsed
  | None => throw (SyntaxError "Unexpected token in JSON")
  end.

Definition discoverCasinosByState (state : string) : M (list DCasino.t) :=
  try_catch
    (response <- callClaudeAPI (DiscoverPrompt state) ;;
     match jsonMatch response with
     | Some json =>
         parsed <- parse_json json ;;
         ret (match Parsed.casinos parsed with Some l => l | None => [] end)
     | None => ret []
     end)
    (fun _ => ret []).

Definition researchCasinoOffers (casinoName state : string) : M (list DOffer.t) :=
  try_catch
    (response <- callClaudeAPI (ResearchPrompt casinoName state) ;;
     match jsonMatch response with
     | Some json =>
         parsed <- parse_json json ;;
         ret (match Parsed.offers parsed with Some l => l | None => [] end)
     | None => ret []
     end)
    (fun _ => ret []).

(** [casino.name] as the receiver of [.toLowerCase()] on a discovered
    candidate: the call is a [TypeError] when the property is absent. *)
Definition name_receiver (casino : DCasino.t) : M string :=
  match DCasino.name casino with
  | Some n => ret n
  | None =>
      throw (TypeError "Cannot read properties of undefined (reading 'toLowerCase')")
  end.

Definition RegExp_i (source : string) : M (string -> bool) :=
  match new_RegExp E source with
  | inr matches => ret matches
  | inl m => throw (SyntaxError m)
  end.

(** The filter of the [findOne] query of the venue loop. *)
Definition venue_query (matches : string -> bool) (normalizedName abbrev : string)
           (c : Casino.t) : bool :=
  (matches (Casino.name c) && String.eqb (Casino.stateAbbreviation c) abbrev)
  || (String.eqb (Casino.name c) normalizedName
      && String.eqb (Casino.stateAbbreviation c) abbrev).

(** The body of [for (const casino of discoveredCasinos)]. *)
Definition venue_step (abbrev stateName : string) (casino : DCasino.t) : M unit :=
  name <- name_receiver casino ;;
  let normalizedName := JS.trim (JS.toLowerCase name) in
  matches <- RegExp_i ("^" ++ name ++ "$") ;;
  existingCasino <- Casino_findOne (venue_query matches normalizedName abbrev) ;;
  match existingCasino with
  | Some _ => ret tt
  | None =>
      modify (with_vars (Vars.push_missing name)) ;;
      createdAt <- new_Date ;;
      lastUpdated <- new_Date ;;
      Casino_create (fun id =>
        Casino.mk id name stateName abbrev
          (DCasino.website casino) (DCasino.licenseNumber casino) None
          true createdAt lastUpdated) ;;
      logProgress ("  âœ¨ Discovered new casino: " ++ name)
  end.

(** [Offer.create] of one new offer. *)
Definition store_offer (abbrev stateName : string) (casino : Casino.t)
           (offer : DOffer.t) : M unit :=
  discoveredDate <- new_Date ;;
  Offer_create
    (Offer.mk (Some (Casino._id casino)) (Casino.name casino) stateName abbrev
       (DOffer.offerName offer) (DOffer.offerType offer)
       (Some (JS.or_zero (DOffer.expectedDeposit offer)))
       (Some (JS.or_zero (DOffer.expectedBonus offer)))
       (DOffer.description offer)
       (Some (JS.or_zero (DOffer.expectedBonus offer)))
       (Some (bonusType_of (DOffer.offerType offer)))
       (DOffer.terms offer)
       "ai-research" None discoveredDate false).

(** The filter of the [Offer.find] query for a venue's reference offers. *)
Definition reference_offers_of (casinoName abbrev : string) (o : Offer.t) : bool :=
  String.eqb (Offer.casinoName o) casinoName
  && String.eqb (Offer.stateAbbreviation o) abbrev
  && String.eqb (Offer.source o) "internal-api".

(** The body of [for (const casino of allCasinos)]. *)
Definition offer_step (abbrev stateName : string) (casino : Casino.t) : M unit :=
  modify (with_vars Vars.incr_casinos) ;;
  totalCasinosProcessed <- gets (fun w => Vars.totalCasinosProcessed (vars w)) ;;
  ResearchRun_findByIdAndUpdate
    (Run.set_casino (Casino.name casino) totalCasinosProcessed) ;;
  logProgress ("    ðŸŽ° Processing: " ++ Casino.name casino ++ "...") ;;
  discoveredOffers <- researchCasinoOffers (Casino.name casino) stateName ;;
  logProgress ("      Found " ++ JS.string_of_nat (length discoveredOffers) ++ " offers") ;;
  currentOffers <- Offer_find (reference_offers_of (Casino.name casino) abbrev) ;;
  let newOffers := Reconcile.newOffers currentOffers discoveredOffers in
  (if 0 <? length newOffers then
     modify (with_vars (Vars.add_offers (length newOffers))) ;;
     logProgress ("    ðŸ’° Found " ++ JS.string_of_nat (length newOffers)
                  ++ " new offers for " ++ Casino.name casino) ;;
     for_of newOffers (store_offer abbrev stateName casino) ;;
     modify (with_vars (Vars.push_offerComparisons
       (Comparison.mk (Casino.name casino) stateName
          (map summarize_stored currentOffers)
          (map (fun o => summarize o false) discoveredOffers)
          (map (fun o => summarize o true) newOffers))))
   else ret tt) ;;
  totalOffersProcessed <- gets (fun w => Vars.totalOffersProcessed (vars w)) ;;
  ResearchRun_findByIdAndUpdate (Run.set_offersProcessed totalOffersProcessed).

(** The body of [for (const [abbrev, stateName] of Object.entries(states))]. *)
Definition state_step (entry : string * string) : M unit :=
  let '(abbrev, stateName) := entry in
  ResearchRun_findByIdAndUpdate (Run.set_state stateName) ;;
  logProgress (nl ++ "ðŸ“ Researching " ++ stateName ++ " (" ++ abbrev ++ ")...") ;;
  logProgress ("  ðŸ” Discovering casinos in " ++ stateName ++ "...") ;;
  discoveredCasinos <- discoverCasinosByState stateName ;;
  logProgress ("  âœ… Found " ++ JS.string_of_nat (length discoveredCasinos)
               ++ " casinos in official records") ;;
  existingCasinos <- Casino_find (fun c =>
    String.eqb (Casino.stateAbbreviation c) abbrev && negb (Casino.discovered c)) ;;
  let existingNames :=
    map (fun c => JS.trim (JS.toLowerCase (Casino.name c))) existingCasinos in
  modify (with_vars Vars.declare_missing) ;;
  for_of discoveredCasinos (venue_step abbrev stateName) ;;
  missing <- gets (fun w => Vars.missing (vars w)) ;;
  (if 0 <? length missing then
     modify (with_vars (Vars.push_missingCasinos stateName)) ;;
     logProgress ("  ðŸ“‹ Missing casinos in " ++ stateName ++ ": "
                  ++ JS.string_of_nat (length missing))
   else logProgress ("  âœ… No missing casinos in " ++ stateName)) ;;
  allCasinos <- Casino_find (fun c => String.eqb (Casino.stateAbbreviation c) abbrev) ;;
  logProgress ("  ðŸ” Researching offers for " ++ JS.string_of_nat (length allCasinos)
               ++ " casinos in " ++ stateName ++ "...") ;;
  for_of allCasinos (offer_step abbrev stateName) ;;
  logProgress ("  âœ… Completed " ++ stateName ++ " - Processed "
               ++ JS.string_of_nat (length allCasinos) ++ " casinos").

(** The final update of the [try] block. *)
Definition finalize : M unit :=
  v <- gets vars ;;
  completedAt <- new_Date ;;
  ResearchRun_findByIdAndUpdate
    (Run.set_completed completedAt (Vars.missingCasinos v) (Vars.offerComparisons v)
       (Summary.mk (count_missing (Vars.missingCasinos v)) (Vars.totalNewOffers v)
          (map snd states))).

(** The [try] block of [performResearch]. *)
Definition research_body : M unit :=
  _ <- ResearchRun_findById ;;
  modify (with_vars Vars.declare) ;;
  logProgress "ðŸš€ Research started for all states" ;;
  for_of states state_step ;;
  logProgress (nl ++ "âœ… Research completed successfully") ;;
  v <- gets vars ;;
  logProgress ("   Total missing casinos: "
               ++ JS.string_of_nat (count_missing (Vars.missingCasinos v))) ;;
  logProgress ("   Total new offers: " ++ JS.string_of_nat (Vars.totalNewOffers v)) ;;
  finalize.

(** The [catch] block of [performResearch]. *)
Definition research_failed (error : Exn) : M unit :=
  logProgress ("âŒ Research failed: " ++ message error) ;;
  completedAt <- new_Date ;;
  ResearchRun_findByIdAndUpdate (Run.set_failed completedAt).

Definition performResearch : M unit :=
  try_catch research_body research_failed.

End Orchestrator.

(** The world in which [performResearch] starts: the store as the
    reference import left it and the run record just created by the
    [/api/research/run] handler. *)
Definition start (E : Env) (cs : list Casino.t) (os : list Offer.t) : World :=
  mkWorld cs os (Run.create (now E 0)) 0 [] Vars.init.

(** One run: the world it ends in, and the exception that escaped
    [performResearch], if any. *)
Definition research_run (E : Env) (cs : list Casino.t) (os : list Offer.t)
  : World * (Exn + unit) :=
  performResearch E (start E cs os).


(** ** Concrete collaborators for the scenarios *)

(** [new RegExp(source, 'i')] by the engine of [RegExp], for the scenarios,
    whose patterns are in its fragment.  A pattern outside the fragment is
    reported as unsupported, which the engine of the code would not do; the
    theorems about every environment do not depend on it. *)
Definition reference_RegExp (source : string) : string + (string -> bool) :=
  match RegExp.construct source with
  | RegExp.Ok matches => inr matches
  | RegExp.Invalid m => inl ("Invalid regular expression: /" ++ source ++ "/i: " ++ m)
  | RegExp.Unsupported => inl ("Unsupported regular expression: /" ++ source ++ "/i")
  end.

(** A store that never rejects, a clock that shows the number of store
    operations issued, and the given completion service and parser. *)
Definition scenario_env (service : nat -> Prompt -> string + string)
           (parser : string -> option Parsed.t) : Env :=
  mkEnv service parser reference_RegExp (fun _ => None)
        (fun n => n) (fun d => "T" ++ JS.string_of_nat d) (fun n => n).

(** The same with a store whose operation number [k] rejects. *)
Definition faulty_env (k : nat) (service : nat -> Prompt -> string + string)
           (parser : string -> option Parsed.t) : Env :=
  mkEnv service parser reference_RegExp
        (fun n => if n =? k then Some "connection lost" else None)
        (fun n => n) (fun d => "T" ++ JS.string_of_nat d) (fun n => n).

Definition q (s : string) : string :=
  String (ascii_of_nat 34) s ++ String (ascii_of_nat 34) EmptyString.

(** A response listing venues by name, and the object it parses to. *)
Definition casinos_json (names : list string) : string :=
  "{" ++ q "casinos" ++ ": ["
  ++ String.concat ", " (map (fun n => "{" ++ q "name" ++ ": " ++ q n ++ "}") names)
  ++ "]}".

Definition casinos_parsed (names : list string) : Parsed.t :=
  Parsed.mk (Some (map (fun n => DCasino.mk (Some n) None None None) names)) None.

(** A response listing offers [(offerName, offerType, expectedBonus)],
    and the object it parses to. *)
Definition offers_json (l : list (string * string * Z)) : string :=
  "{" ++ q "offers" ++ ": ["
  ++ String.concat ", "
       (map (fun o =>
          "{" ++ q "offerName" ++ ": " ++ q (fst (fst o)) ++ ", "
          ++ q "offerType" ++ ": " ++ q (snd (fst o)) ++ ", "
          ++ q "expectedBonus" ++ ": " ++ JS.string_of_nat (Z.to_nat (snd o)) ++ "}") l)
  ++ "]}".

Definition dOffer (name type : string) (bonus : Z) : DOffer.t :=
  DOffer.mk (Some name) (Some type) None (Some (JS.number bonus)) None None.

Definition offers_parsed (l : list (string * string * Z)) : Parsed.t :=
  Parsed.mk None (Some (map (fun o => dOffer (fst (fst o)) (snd (fst o)) (snd o)) l)).

(** A venue object without a [name], and the object it parses to. *)
Definition nameless_json : string :=
  "{" ++ q "casinos" ++ ": [{" ++ q "website" ++ ": " ++ q "https://example.com" ++ "}]}".

Definition nameless : DCasino.t :=
  DCasino.mk None (Some "https://example.com") None None.

Definition nameless_parsed : Parsed.t := Parsed.mk (Some [nameless]) None.

Fixpoint lookup {A} (k : string) (l : list (string * A)) : option A :=
  match l with
  | [] => None
  | (k', a) :: l' => if String.eqb k k' then Some a else lookup k l'
  end.

(** A completion service that answers discovery by jurisdiction name and
    research by venue name; a jurisdiction that is not listed has no
    venue, a request for a venue that is not listed is rejected. *)
Definition scripted_service (discoveries researches : list (string * string))
  : nat -> Prompt -> string + string :=
  fun _ p =>
    match p with
    | DiscoverPrompt state =>
        match lookup state discoveries with
        | Some text => inr text
        | None => inr (casinos_json [])
        end
    | ResearchPrompt casinoName _ =>
        match lookup casinoName researches with
        | Some text => inr text
        | None => inl "Request failed with status code 429"
        end
    end.

(** [JSON.parse] on the texts of a scenario. *)
Definition scripted_parser (table : list (string * Parsed.t)) (text : string)
  : option Parsed.t :=
  if String.eqb text (casinos_json []) then Some (casinos_parsed [])
  else lookup text table.

Definition reference_casino (id : ObjectId) (name abbrev stateName : string) : Casino.t :=
  Casino.mk id name stateName abbrev None None None false 0 0.

Definition reference_offer (casinoName abbrev stateName name type : string)
           (bonus : Z) : Offer.t :=
  Offer.mk None casinoName stateName abbrev (Some name) (Some type)
    (Some 0%float) (Some (JS.number bonus)) None (Some (JS.number bonus))
    (Some type) None "internal-api" None 0 true.

(** *** The end-to-end scenario *)

Module EndToEnd.

Definition store_casinos : list Casino.t :=
  [reference_casino 1 "Acme Casino" "NJ" "New Jersey"].

Definition store_offers : list Offer.t :=
  [reference_offer "Acme Casino" "NJ" "New Jersey" "Welcome Bonus" "welcome" 100].

Definition service : nat -> Prompt -> string + string :=
  scripted_service
    [("New Jersey", casinos_json ["Acme Casino"; "Beta Casino"])]
    [("Acme Casino", offers_json [("Welcome Bonus", "welcome", 120%Z)]);
     ("Beta Casino", offers_json [("Sign-Up Bonus", "welcome", 200%Z)])].

Definition parser : string -> option Parsed.t :=
  scripted_parser
    [(casinos_json ["Acme Casino"; "Beta Casino"],
      casinos_parsed ["Acme Casino"; "Beta Casino"]);
     (offers_json [("Welcome Bonus", "welcome", 120%Z)],
      offers_parsed [("Welcome Bonus", "welcome", 120%Z)]);
     (offers_json [("Sign-Up Bonus", "welcome", 200%Z)],
      offers_parsed [("Sign-Up Bonus", "welcome", 200%Z)])].

Definition env : Env := scenario_env service parser.

Definition final : World := fst (research_run env store_casinos store_offers).

End EndToEnd.

(** *** A candidate whose name differs from a stored name by case and by
    surrounding white space *)

Module GoldenNugget.

Definition store_casinos : list Casino.t :=
  [reference_casino 1 "Golden Nugget" "NJ" "New Jersey"].

Definition candidate : string := "  golden nugget  ".

Definition env : Env :=
  scenario_env
    (scripted_service [("New Jersey", casinos_json [candidate])] [])
    (scripted_parser [(casinos_json [candidate], casinos_parsed [candidate])]).

Definition final : World := fst (research_run env store_casinos []).

End GoldenNugget.

(** *** A discovery response with a venue object that has no name *)

Module Nameless.

Definition env : Env :=
  scenario_env
    (scripted_service [("New Jersey", nameless_json)] [])
    (scripted_parser [(nameless_json, nameless_parsed)]).

Definition final : World := fst (research_run env [] []).

(** The same, with a store that rejects the first write of the [catch]
    block: the [try] block issues the operations 0 to 6 before the venue
    step throws, so that this write is operation 7. *)
Definition env_store_down : Env :=
  faulty_env 7
    (scripted_service [("New Jersey", nameless_json)] [])
    (scripted_parser [(nameless_json, nameless_parsed)]).

Definition final_store_down : World := fst (research_run env_store_down [] []).

End Nameless.

(** *** A discovery response with a name that is not a valid pattern *)

Module BadPattern.

Definition candidate : string := "Bally's (Atlantic City".

Definition env : Env :=
  scenario_env
    (scripted_service [("New Jersey", casinos_json [candidate])] [])
    (scripted_parser [(casinos_json [candidate], casinos_parsed [candidate])]).

Definition final : World := fst (research_run env [] []).

End BadPattern.

(** *** A run that fails in the second jurisdiction *)

Module PartialFailure.

Definition env : Env :=
  scenario_env
    (scripted_service
       [("New Jersey", casinos_json ["Beta Casino"]); ("Michigan", nameless_json)] [])
    (scripted_parser
       [(casinos_json ["Beta Casino"], casinos_parsed ["Beta Casino"]);
        (nameless_json, nameless_parsed)]).

(** The world in which the [try] block is left, and the final world. *)
Definition thrown : World := fst (research_body env (start env [] [])).

Definition final : World := fst (research_run env [] []).

End PartialFailure.

(** *** A completion service that is down *)

Module Outage.

Definition store_casinos : list Casino.t :=
  [reference_casino 1 "Acme Casino" "NJ" "New Jersey";
   reference_casino 2 "Lakeside Casino" "MI" "Michigan"].

Definition env : Env :=
  scenario_env (fun _ _ => inl "connect ETIMEDOUT") (fun _ => None).

Definition final : World := fst (research_run env store_casinos []).

End Outage.

(** *** A store that rejects the second of two offer insertions

    One stored venue, for which research finds two offers, both new.  The
    operations 0 to 14 are the reads, updates and log writes that come
    first, operation 15 is the first [Offer.create] and operation 16 the
    second. *)

Module StaleCounter.

Definition store_casinos : list Casino.t :=
  [reference_casino 1 "Acme Casino" "NJ" "New Jersey"].

Definition found : list (string * string * Z) :=
  [("Welcome Bonus", "welcome", 100%Z); ("Free Spins", "free-spins", 50%Z)].

Definition env : Env :=
  faulty_env 16
    (scripted_service [] [("Acme Casino", offers_json found)])
    (scripted_parser [(offers_json found, offers_parsed found)]).

Definition final : World := fst (research_run env store_casinos []).

End StaleCounter.

(** *** A discovered offer without a name *)

Module Unnamed.

(** A reference offer whose name contains the text [undefined]. *)
Definition stored : Offer.t :=
  reference_offer "Acme Casino" "NJ" "New Jersey" "Undefined Jackpot" "jackpot" 500.

(** A discovered offer without [offerName], of another type and with
    another bonus. *)
Definition found : DOffer.t :=
  DOffer.mk None (Some "welcome") None (Some 100%float) None None.

End Unnamed.

(** ** Vocabulary of the statements *)

(** The jurisdictions for which discovery was requested, in request order. *)
Definition discover_states (l : list Prompt) : list string :=
  flat_map (fun p => match p with
                     | DiscoverPrompt s => [s]
                     | ResearchPrompt _ _ => []
                     end) l.

(** The requests of a run that discovers no venue: for each jurisdiction
    the discovery request, then one research request per stored venue. *)
Definition all_calls (cs : list Casino.t) : list Prompt :=
  flat_map (fun entry =>
    DiscoverPrompt (snd entry)
    :: map (fun c => ResearchPrompt (Casino.name c) (snd entry))
           (filter (fun c => String.eqb (Casino.stateAbbreviation c) (fst entry)) cs))
    states.

(** The request [p], issued after [n] others, fails in one of the three
    ways a stage absorbs: the request rejects, the response has no
    [{...}] substring, or the substring does not parse. *)
Definition stage_failed (E : Env) (n : nat) (p : Prompt) : Prop :=
  match complete E n p with
  | inl _ => True
  | inr response =>
      match jsonMatch response with
      | None => True
      | Some json => JSON_parse E json = None
      end
  end.

Definition no_store_fault (E : Env) : Prop := forall n, store_fault E n = None.

(** The identity key of a venue: normalized name and jurisdiction code. *)
Definition identity_key (c : Casino.t) : string * string :=
  (JS.trim (JS.toLowerCase (Casino.name c)), Casino.stateAbbreviation c).

Definition ai_research (o : Offer.t) : Prop := Offer.source o = "ai-research".

Definition sum_missing (l : list MissingEntry.t) : nat :=
  list_sum (map (fun s => length (MissingEntry.casinos s)) l).

Definition sum_new (l : list Comparison.t) : nat :=
  list_sum (map (fun c => length (Comparison.newOffers c)) l).

Arguments sum_missing : simpl never.
Arguments sum_new : simpl never.

(** What the variables of [performResearch] hold is what the run has
    computed so far; a summary reflects it when it is written and agrees
    with them. *)
Definition summary_reflects_progress (w : World) : Prop :=
  exists s, Run.summary (run w) = Some s
    /\ Summary.totalMissingCasinos s = sum_missing (Vars.missingCasinos (vars w))
    /\ Summary.totalNewOffers s = Vars.totalNewOffers (vars w).

(** The run record is as [Run.create] left it, apart from the log, the
    progress pointers and the counters. *)
Definition untouched (w : World) : Prop :=
  Run.status (run w) = in_progress /\ Run.completedAt (run w) = None
  /\ Run.summary (run w) = None /\ Run.missingCasinos (run w) = []
  /\ Run.offerComparisons (run w) = [].

Definition not_completed (w : World) : Prop := Run.status (run w) <> completed.

(** Discovery was requested for the jurisdictions [pre], a prefix of the
    enumeration, in order. *)
Definition discovered_upto (pre : list (string * string)) (w : World) : Prop :=
  discover_states (calls w) = map snd pre
  /\ (exists post, states = (pre ++ post)%list)
  /\ untouched w.

Definition discovered_prefix (w : World) : Prop :=
  (exists k, discover_states (calls w) = firstn k (map snd states))
  /\ not_completed w.

(** The running total of new offers agrees with the comparison entries
    collected so far, [n] offers being counted but not yet entered; and no
    entry has an empty list of new offers. *)
Definition comparisons_pending (n : nat) (w : World) : Prop :=
  Vars.totalNewOffers (vars w) = sum_new (Vars.offerComparisons (vars w)) + n
  /\ Forall (fun c => Comparison.newOffers c <> []) (Vars.offerComparisons (vars w))
  /\ untouched w.

Definition entries_nonempty (w : World) : Prop :=
  Forall (fun c => Comparison.newOffers c <> []) (Vars.offerComparisons (vars w))
  /\ not_completed w.

(** The offers [added] to the initial collection [os] are the ones this
    run inserted; [pending] of the offers counted in the variables are not
    stored yet and [stored] of them are stored but not yet in the
    record's counter. *)
Definition counted (os : list Offer.t) (pending stored : nat) (w : World) : Prop :=
  exists added,
    offers w = (os ++ added)%list /\ Forall ai_research added
    /\ length added + pending = Vars.totalOffersProcessed (vars w)
    /\ Run.offersProcessed (run w) + stored = length added
    /\ Vars.totalNewOffers (vars w) = Vars.totalOffersProcessed (vars w)
    /\ untouched w.

(** While the [n] new offers of a venue are stored, [pre] being stored. *)
Definition storing (os : list Offer.t) (n : nat) (pre : list DOffer.t)
           (w : World) : Prop :=
  length pre <= n /\ counted os (n - length pre) (length pre) w.

(** Before the record's counter is written. *)
Definition stored_all (os : list Offer.t) (w : World) : Prop :=
  exists k, counted os 0 k w.

Definition counter_behind (os : list Offer.t) (w : World) : Prop :=
  (exists added,
     offers w = (os ++ added)%list /\ Forall ai_research added
     /\ Run.offersProcessed (run w) <= length added)
  /\ not_completed w.

Definition fresh_counter (os : list Offer.t) (w : World) : Prop :=
  offers w = os /\ Run.offersProcessed (run w) = 0 /\ untouched w.

(** Nothing is removed from the collections [cs] and [os] the run started
    with, and the record's status, timestamp, summary and lists are as
    [Run.create] left them. *)
Definition kept (cs : list Casino.t) (os : list Offer.t) (w : World) : Prop :=
  (exists l, casinos w = (cs ++ l)%list) /\ (exists l, offers w = (os ++ l)%list)
  /\ untouched w.

(** The requests issued so far are [c] and no venue was created. *)
Definition requested (cs : list Casino.t) (c : list Prompt) (w : World) : Prop :=
  calls w = c /\ casinos w = cs.

(** The research requests for the venues [l] of one jurisdiction. *)
Definition research_calls (stateName : string) (l : list Casino.t) : list Prompt :=
  map (fun c => ResearchPrompt (Casino.name c) stateName) l.

(** [t] occurs in [s]; the same, ignoring case. *)
Definition substring (t s : string) : Prop :=
  exists pre post, s = pre ++ t ++ post.

Definition ci_substring (t s : string) : Prop :=
  substring (JS.toLowerCase t) (JS.toLowerCase s).

(** The two rules of offer matching, for a given [toLowerCase]. *)
Section Known.

Variable toLowerCase : string -> string.

(** Rule (a): the name of one offer contains the name of the other, both
    in lower case.  The name of an offer that has none is searched for as
    the text [undefined] in the name of the other; two offers without a
    name do not match. *)
Definition known_by_name (c : Offer.t) (d : DOffer.t) : Prop :=
  match Offer.offerName c, DOffer.offerName d with
  | Some cn, Some dn =>
      substring (toLowerCase dn) (toLowerCase cn)
      \/ substring (toLowerCase cn) (toLowerCase dn)
  | Some n, None => substring "undefined" (toLowerCase n)
  | None, Some n => substring "undefined" (toLowerCase n)
  | None, None => False
  end.

(** Rule (b): the types are the same in lower case, two absent types
    being the same, and the bonus amounts are less than 50 apart, an
    amount that is absent, zero or not a number counting as 0. *)
Definition same_type (c : Offer.t) (d : DOffer.t) : Prop :=
  option_map toLowerCase (Offer.offerType c)
  = option_map toLowerCase (DOffer.offerType d).

Definition bonus_gap (c : Offer.t) (d : DOffer.t) : float :=
  PrimFloat.abs
    (PrimFloat.sub (JS.or_zero (Offer.expectedBonus c))
                   (JS.or_zero (DOffer.expectedBonus d))).

Definition already_known (current : list Offer.t) (d : DOffer.t) : Prop :=
  exists c, In c current
    /\ (known_by_name c d
        \/ (same_type c d /\ PrimFloat.ltb (bonus_gap c d) 50%float = true)).

End Known.

(** Names without pattern syntax characters, and the pattern that reads
    the characters of such a name one by one. *)
Fixpoint plain (s : string) : bool :=
  match s with
  | EmptyString => true
  | String c s' => negb (RegExp.is_syntax_char c) && plain s'
  end.

Fixpoint chars_then (s : string) (r : RegExp.re) : RegExp.re :=
  match s with
  | EmptyString => r
  | String c s' => RegExp.Seq (RegExp.Char c) (chars_then s' r)
  end.

(** The stored venue [c] of jurisdiction [abbrev] has the candidate's name
    up to case, or has exactly the candidate's normalized name. *)
Definition matched_by (name abbrev : string) (c : Casino.t) : Prop :=
  Casino.stateAbbreviation c = abbrev
  /\ (JS.toLowerCase (Casino.name c) = JS.toLowerCase name
      \/ Casino.name c = JS.trim (JS.toLowerCase name)).

(** ** A weakest-precondition calculus for [M] *)

Definition wp {A} (m : M A) (Q : A -> World -> Prop) (R : Exn -> World -> Prop)
           (w : World) : Prop :=
  match m w with
  | (w', inr a) => Q a w'
  | (w', inl e) => R e w'
  end.

(** ** Updates that an invariant may have to survive *)

(** Invariants that do not read the log, the progress pointers, the venue
    counter, the [missing] variables or the operation count. *)
Record quiet (P : World -> Prop) : Prop := {
  quiet_tick : forall w, P w -> P (tick w);
  quiet_run_log : forall e w, P w -> P (with_run (Run.push_progressLog e) w);
  quiet_vars_log : forall e w, P w -> P (with_vars (Vars.push_progressLog e) w);
  quiet_set_state : forall s w, P w -> P (with_run (Run.set_state s) w);
  quiet_set_casino : forall s n w, P w -> P (with_run (Run.set_casino s n) w);
  quiet_incr : forall w, P w -> P (with_vars Vars.incr_casinos w);
  quiet_declare_missing : forall w, P w -> P (with_vars Vars.declare_missing w);
  quiet_push_missing : forall n w, P w -> P (with_vars (Vars.push_missing n) w);
  quiet_push_missingCasinos :
    forall s w, P w -> P (with_vars (Vars.push_missingCasinos s) w)
}.

(** Invariants that survive the creation of a venue. *)
Definition grows (P : World -> Prop) : Prop :=
  forall c w, P w -> P (with_casinos (fun l => l ++ [c])%list w).

(** Invariants that survive everything the offer loop does. *)
Record calm (P : World -> Prop) : Prop := {
  calm_research : forall n s w, P w -> P (record_call (ResearchPrompt n s) w);
  calm_offer : forall o w, P w -> P (with_offers (fun l => l ++ [o])%list w);
  calm_add : forall n w, P w -> P (with_vars (Vars.add_offers n) w);
  calm_push : forall c w, P w -> P (with_vars (Vars.push_offerComparisons c) w);
  calm_set : forall n w, P w -> P (with_run (Run.set_offersProcessed n) w)
}.

(** The exception is the rejection of a store operation. *)
Definition faulted (E : Env) (e : Exn) : Prop :=
  exists n m, store_fault E n = Some m /\ e = MongoError m.

(** ** Vocabulary and models of the further properties *)

(** Invariants that do not read the log or the operation count. *)
Record hushed (P : World -> Prop) : Prop := {
  hushed_tick : forall w, P w -> P (tick w);
  hushed_run_log : forall e w, P w -> P (with_run (Run.push_progressLog e) w);
  hushed_vars_log : forall e w, P w -> P (with_vars (Vars.push_progressLog e) w)
}.

(** The document [o] is what [store_offer] writes for the new offer
    [offer] of the venue [casino], whatever the insertion date. *)
Definition stored_for (abbrev stateName : string) (casino : Casino.t)
           (offer : DOffer.t) (o : Offer.t) : Prop :=
  Offer.casinoId o = Some (Casino._id casino)
  /\ Offer.casinoName o = Casino.name casino
  /\ Offer.state o = stateName /\ Offer.stateAbbreviation o = abbrev
  /\ Offer.offerName o = DOffer.offerName offer
  /\ Offer.offerType o = DOffer.offerType offer
  /\ Offer.expectedDeposit o = Some (JS.or_zero (DOffer.expectedDeposit offer))
  /\ Offer.expectedBonus o = Some (JS.or_zero (DOffer.expectedBonus offer))
  /\ Offer.bonusAmount o = Some (JS.or_zero (DOffer.expectedBonus offer))
  /\ Offer.bonusType o = Some (bonusType_of (DOffer.offerType offer))
  /\ Offer.description o = DOffer.description offer
  /\ Offer.terms o = DOffer.terms offer
  /\ Offer.source o = "ai-research" /\ Offer.casinodb_id o = None
  /\ Offer.verified o = false.

(** A venue as the venue loop creates it, and an offer as the offer loop
    inserts it: flagged, and of one of the four jurisdictions. *)
Definition ai_venue (c : Casino.t) : Prop :=
  Casino.discovered c = true
  /\ In (Casino.stateAbbreviation c, Casino.state c) states.

Definition ai_offer (o : Offer.t) : Prop :=
  Offer.source o = "ai-research" /\ Offer.verified o = false
  /\ In (Offer.stateAbbreviation o, Offer.state o) states.

(** The collections are the initial ones followed by documents the run
    added. *)
Definition appended (cs : list Casino.t) (os : list Offer.t) (w : World) : Prop :=
  exists venues added,
    casinos w = (cs ++ venues)%list /\ offers w = (os ++ added)%list
    /\ Forall ai_venue venues /\ Forall ai_offer added.

(** The name of a venue up to letter case, with its jurisdiction code. *)
Definition ci_key (c : Casino.t) : string * string :=
  (JS.toLowerCase (Casino.name c), Casino.stateAbbreviation c).

(** A candidate whose name, if it has one, has no pattern syntax character. *)
Definition plain_candidate (c : DCasino.t) : Prop :=
  match DCasino.name c with
  | Some n => plain n = true
  | None => True
  end.

(** The engine reads the pattern built from a name without syntax
    characters as that name, anchored, up to letter case. *)
Definition engine_reads_plain_names (E : Env) : Prop :=
  forall name, plain name = true ->
    exists matches,
      new_RegExp E ("^" ++ name ++ "$") = inr matches
      /\ forall s, matches s = true <-> JS.toLowerCase s = JS.toLowerCase name.

Definition distinct_venues (w : World) : Prop := NoDup (map ci_key (casinos w)).

(** The venues are distinct and none of jurisdiction [abbrev] has the
    name [name] up to case. *)
Definition venue_is_new (abbrev name : string) (w : World) : Prop :=
  distinct_venues w
  /\ ~ In (JS.toLowerCase name, abbrev) (map ci_key (casinos w)).

(** The store holds the venues [cs], and the names [m] were pushed on
    [missing]. *)
Definition holding (cs : list Casino.t) (m : list string) (w : World) : Prop :=
  casinos w = cs /\ Vars.missing (vars w) = m.

(** A venue as the venue step creates it for the candidate [casino] of
    name [name]. *)
Definition created_from (casino : DCasino.t) (name abbrev stateName : string)
           (c : Casino.t) : Prop :=
  exists id createdAt lastUpdated,
    c = Casino.mk id name stateName abbrev
          (DCasino.website casino) (DCasino.licenseNumber casino) None
          true createdAt lastUpdated.

(** The venues that a list of missing-venue entries names, each with the
    jurisdiction of its entry, and the same for stored venues. *)
Definition listed (l : list MissingEntry.t) : list (string * string) :=
  flat_map (fun m => map (fun n => (MissingEntry.state m, n)) (MissingEntry.casinos m)) l.

Definition created_as (l : list Casino.t) : list (string * string) :=
  map (fun c => (Casino.state c, Casino.name c)) l.

(** In the venue loop of jurisdiction [s]: the venues created so far, and
    the venues [pending] whose names are pushed but which are not created
    yet, are the ones in the entries and in [missing]. *)
Definition reporting (cs : list Casino.t) (s : string) (pending : list (string * string))
           (w : World) : Prop :=
  untouched w
  /\ Forall (fun m => MissingEntry.casinos m <> []) (Vars.missingCasinos (vars w))
  /\ exists created,
       casinos w = (cs ++ created)%list
       /\ (created_as created ++ pending)%list
          = (listed (Vars.missingCasinos (vars w))
             ++ map (fun n => (s, n)) (Vars.missing (vars w)))%list.

(** Outside the venue loops. *)
Definition reported (cs : list Casino.t) (w : World) : Prop :=
  untouched w
  /\ Forall (fun m => MissingEntry.casinos m <> []) (Vars.missingCasinos (vars w))
  /\ exists created,
       casinos w = (cs ++ created)%list
       /\ created_as created = listed (Vars.missingCasinos (vars w)).

(** Before the variables are declared. *)
Definition nothing_created (cs : list Casino.t) (w : World) : Prop :=
  untouched w /\ casinos w = cs.

Definition is_research (p : Prompt) : bool :=
  match p with
  | ResearchPrompt _ _ => true
  | DiscoverPrompt _ => false
  end.

(** The number of research requests among the requests [l]. *)
Definition research_requests (l : list Prompt) : nat := length (filter is_research l).

(** The variable counting venues is [a] ahead of the research requests
    issued and the record's counter is [b] ahead, [d] discovery requests
    being issued. *)
Definition venue_count (d a b : nat) (w : World) : Prop :=
  untouched w
  /\ length (discover_states (calls w)) = d
  /\ Vars.totalCasinosProcessed (vars w) = research_requests (calls w) + a
  /\ Run.casinosProcessed (run w) = research_requests (calls w) + b.

Definition venue_count_fresh (w : World) : Prop :=
  untouched w /\ calls w = [] /\ Run.casinosProcessed (run w) = 0.

Definition venue_count_near (w : World) : Prop :=
  not_completed w
  /\ research_requests (calls w) <= Run.casinosProcessed (run w)
     <= S (research_requests (calls w)).

(** What [researchCasinoOffers] returns in the world [w]. *)
Definition research_result (E : Env) (casinoName state : string) (w : World)
  : list DOffer.t :=
  match snd (researchCasinoOffers E casinoName state w) with
  | inr l => l
  | inl _ => []
  end.

(** The offers that the filter of the offer loop keeps for [casino] in the
    world [w]. *)
Definition new_offers_in (E : Env) (abbrev stateName : string) (casino : Casino.t)
           (w : World) : list DOffer.t :=
  Reconcile.newOffers
    (filter (reference_offers_of (Casino.name casino) abbrev) (offers w))
    (research_result E (Casino.name casino) stateName w).

(** In the offer step started in [w0]: the collections and the requests
    are those of [w0], [p] being requested since. *)
Definition as_in (w0 : World) (p : list Prompt) (w : World) : Prop :=
  offers w = offers w0 /\ casinos w = casinos w0 /\ calls w = (calls w0 ++ p)%list.

(** The documents for the offers [stored] were inserted since [w0]. *)
Definition inserted (abbrev stateName : string) (casino : Casino.t) (w0 : World)
           (stored : list DOffer.t) (w : World) : Prop :=
  exists added,
    offers w = (offers w0 ++ added)%list
    /\ Forall2 (stored_for abbrev stateName casino) stored added
    /\ casinos w = casinos w0
    /\ calls w = (calls w0 ++ [ResearchPrompt (Casino.name casino) stateName])%list.

(** Some of the new offers were inserted since [w0]. *)
Definition partly_inserted (E : Env) (abbrev stateName : string) (casino : Casino.t)
           (w0 w : World) : Prop :=
  exists stored rest added,
    new_offers_in E abbrev stateName casino w0 = (stored ++ rest)%list
    /\ offers w = (offers w0 ++ added)%list
    /\ Forall2 (stored_for abbrev stateName casino) stored added
    /\ casinos w = casinos w0.

(** The character [c] does not occur in [s]. *)
Fixpoint no_char (c : ascii) (s : string) : bool :=
  match s with
  | EmptyString => true
  | String a s' => negb (Ascii.eqb a c) && no_char c s'
  end.

(** ** The reference import (POST /api/research/init)

    The handler fetches the active offers of the reference API, upserts
    one [Offer] document per item and then one [Casino] document per venue
    named by the items.  The items are assumed to be shaped as the
    reference API delivers them, with the texts [Name] and [Offer_Name] and
    the number [casinodb_id]; the object [state] may be absent, which is
    where the handler throws. *)

Module ItemState.
Record t := mk {
  Name : string;
  Abbreviation : string
}.
End ItemState.

Module Item.
Record t := mk {
  Name : string;
  state : option ItemState.t;
  Offer_Name : string;
  offer_type : option string;
  Expected_Deposit : option float;
  Expected_Bonus : option float;
  casinodb_id : Z
}.
End Item.

(** The values of the [Map] that collects the venues. *)
Module Entry.
Record t := mk {
  name : string;
  state : string;
  stateAbbreviation : string;
  casinodb_id : Z
}.
End Entry.

(** A [Map] with string keys, in insertion order. *)
Module CasinoMap.

Definition t := list (string * Entry.t).

Definition has (key : string) (m : t) : bool :=
  existsb (fun p => String.eqb (fst p) key) m.

Fixpoint set (key : string) (value : Entry.t) (m : t) : t :=
  match m with
  | [] => [(key, value)]
  | (k, v) :: m' =>
      if String.eqb k key then (k, value) :: m' else (k, v) :: set key value m'
  end.

Definition values (m : t) : list Entry.t := map snd m.

End CasinoMap.

(** What a handler answers: [res.json(body)], or
    [res.status(code).json({ error })]. *)
Inductive Reply (A : Type) :=
| Json (body : A)
| ErrorJson (status : nat) (error : string).

Arguments Json {A} body.
Arguments ErrorJson {A} status error.

Module InitBody.
Record t := mk {
  success : bool;
  offersImported : nat;
  casinos : nat;
  message : string
}.
End InitBody.

(** [for (const x of l) { ... }] with local variables [s] that the body
    updates. *)
Fixpoint fold_of {A S} (l : list A) (body : S -> A -> M S) (s : S) : M S :=
  match l with
  | [] => ret s
  | x :: l' => bind (body s x) (fun s' => fold_of l' body s')
  end.

(** [findOneAndUpdate(filter, update, { upsert: true })] on a collection:
    the first document that matches is updated; when none matches, the
    document [fresh] is inserted. *)
Fixpoint upsert {A} (filter : A -> bool) (update : A -> A) (fresh : A) (l : list A)
  : list A :=
  match l with
  | [] => [fresh]
  | x :: l' =>
      if filter x then update x :: l' else x :: upsert filter update fresh l'
  end.

(** [x || 'unknown'] on a text: [undefined] and the empty text both give
    [unknown]. *)
Definition or_unknown (o : option string) : string :=
  match o with
  | None => "unknown"
  | Some EmptyString => "unknown"
  | Some s => s
  end.

(** The key under which the handler collects the venue of an item. *)
Definition casinoKey (name abbreviation : string) : string :=
  name ++ "-" ++ abbreviation.

(** The filter of the offer upsert. *)
Definition offer_filter (item : Item.t) (st : ItemState.t) (o : Offer.t) : bool :=
  String.eqb (Offer.casinoName o) (Item.Name item)
  && String.eqb (Offer.stateAbbreviation o) (ItemState.Abbreviation st)
  && Reconcile.opt_string_eqb (Offer.offerName o) (Some (Item.Offer_Name item)).

(** The update of the offer upsert: the fields it lists are set, the
    others are kept. *)
Definition offer_update (item : Item.t) (st : ItemState.t) (discoveredDate : Date)
           (o : Offer.t) : Offer.t :=
  Offer.mk (Offer.casinoId o) (Item.Name item) (ItemState.Name st)
    (ItemState.Abbreviation st) (Some (Item.Offer_Name item))
    (Some (or_unknown (Item.offer_type item)))
    (Some (JS.or_zero (Item.Expected_Deposit item)))
    (Some (JS.or_zero (Item.Expected_Bonus item)))
    (Offer.description o)
    (Some (JS.or_zero (Item.Expected_Bonus item)))
    (Some (JS.toLowerCase (or_unknown (Item.offer_type item))))
    (Offer.terms o)
    "internal-api" (Some (Item.casinodb_id item)) discoveredDate true.

(** The document inserted when no offer matches. *)
Definition offer_fresh (item : Item.t) (st : ItemState.t) (discoveredDate : Date)
  : Offer.t :=
  Offer.mk None (Item.Name item) (ItemState.Name st)
    (ItemState.Abbreviation st) (Some (Item.Offer_Name item))
    (Some (or_unknown (Item.offer_type item)))
    (Some (JS.or_zero (Item.Expected_Deposit item)))
    (Some (JS.or_zero (Item.Expected_Bonus item)))
    None
    (Some (JS.or_zero (Item.Expected_Bonus item)))
    (Some (JS.toLowerCase (or_unknown (Item.offer_type item))))
    None
    "internal-api" (Some (Item.casinodb_id item)) discoveredDate true.

(** The filter, the update and the inserted document of the venue upsert;
    [createdAt] of an inserted venue is the schema default. *)
Definition casino_filter (casino : Entry.t) (c : Casino.t) : bool :=
  String.eqb (Casino.name c) (Entry.name casino)
  && String.eqb (Casino.stateAbbreviation c) (Entry.stateAbbreviation casino).

Definition casino_update (casino : Entry.t) (lastUpdated : Date) (c : Casino.t)
  : Casino.t :=
  Casino.mk (Casino._id c) (Entry.name casino) (Entry.state casino)
    (Entry.stateAbbreviation casino) (Casino.website c) (Casino.licenseNumber c)
    (Some (Entry.casinodb_id casino)) false (Casino.createdAt c) lastUpdated.

Definition casino_fresh (casino : Entry.t) (lastUpdated : Date) (id : ObjectId)
           (createdAt : Date) : Casino.t :=
  Casino.mk id (Entry.name casino) (Entry.state casino)
    (Entry.stateAbbreviation casino) None None
    (Some (Entry.casinodb_id casino)) false createdAt lastUpdated.

Section Init.

Variable E : Env.

(** [axios.get] of the reference API: [inl m] rejects with message [m],
    [inr items] is [response.data]. *)
Variable api : string + list Item.t.

Definition axios_get : M (list Item.t) :=
  match api with
  | inl m => throw (AxiosError m)
  | inr apiData => ret apiData
  end.

Definition Offer_findOneAndUpdate (filter : Offer.t -> bool)
           (update : Offer.t -> Offer.t) (fresh : Offer.t) : M unit :=
  store_op E ;; modify (with_offers (upsert filter update fresh)).

Definition Casino_findOneAndUpdate (filter : Casino.t -> bool)
           (update : Casino.t -> Casino.t) (fresh : ObjectId -> Date -> Casino.t)
  : M unit :=
  id <- gets (fun w => new_ObjectId E (ops w)) ;;
  createdAt <- new_Date E ;;
  store_op E ;; modify (with_casinos (upsert filter update (fresh id createdAt))).

(** [item.state], read for its property [Abbreviation]. *)
Definition state_receiver (item : Item.t) : M ItemState.t :=
  match Item.state item with
  | Some st => ret st
  | None =>
      throw (TypeError "Cannot read properties of undefined (reading 'Abbreviation')")
  end.

(** The body of [for (const item of apiData)]; the local variables are
    the map [casinos] and the counter [offersImported]. *)
Definition import_item (locals : CasinoMap.t * nat) (item : Item.t)
  : M (CasinoMap.t * nat) :=
  st <- state_receiver item ;;
  discoveredDate <- new_Date E ;;
  Offer_findOneAndUpdate (offer_filter item st) (offer_update item st discoveredDate)
    (offer_fresh item st discoveredDate) ;;
  let key := casinoKey (Item.Name item) (ItemState.Abbreviation st) in
  ret (if CasinoMap.has key (fst locals) then fst locals
       else CasinoMap.set key
              (Entry.mk (Item.Name item) (ItemState.Name st)
                 (ItemState.Abbreviation st) (Item.casinodb_id item))
              (fst locals),
       S (snd locals)).

(** The body of [for (const casino of casinos.values())]. *)
Definition import_casino (casinosImported : nat) (casino : Entry.t) : M nat :=
  lastUpdated <- new_Date E ;;
  Casino_findOneAndUpdate (casino_filter casino) (casino_update casino lastUpdated)
    (casino_fresh casino lastUpdated) ;;
  ret (S casinosImported).

Definition research_init : M (Reply InitBody.t) :=
  try_catch
    (apiData <- axios_get ;;
     locals <- fold_of apiData import_item ([], 0) ;;
     casinosImported <- fold_of (CasinoMap.values (fst locals)) import_casino 0 ;;
     ret (Json (InitBody.mk true (snd locals) casinosImported
                  ("Imported " ++ JS.string_of_nat (snd locals) ++ " offers from "
                   ++ JS.string_of_nat casinosImported ++ " casinos"))))
    (fun error => ret (ErrorJson 500 (message error))).

End Init.

(** *** Vocabulary of the statements about the import *)

(** The items all have the object [state]. *)
Definition with_state (items : list Item.t) : Prop :=
  Forall (fun item => Item.state item <> None) items.

(** The fields by which the offer upsert finds a document, and the fields
    by which the venue upsert does. *)
Definition offer_key (o : Offer.t) : string * string * option string :=
  (Offer.casinoName o, Offer.stateAbbreviation o, Offer.offerName o).

Definition venue_key (c : Casino.t) : string * string :=
  (Casino.name c, Casino.stateAbbreviation c).

Definition offer_key_eqb (a b : string * string * option string) : bool :=
  String.eqb (fst (fst a)) (fst (fst b)) && String.eqb (snd (fst a)) (snd (fst b))
  && Reconcile.opt_string_eqb (snd a) (snd b).

Definition venue_key_eqb (a b : string * string) : bool :=
  String.eqb (fst a) (fst b) && String.eqb (snd a) (snd b).

(** The keys of the items that have a [state], in order: of their offers,
    of their venues, and the keys under which the handler collects their
    venues. *)
Definition offer_keys (items : list Item.t) : list (string * string * option string) :=
  flat_map (fun item =>
    match Item.state item with
    | Some st => [(Item.Name item, ItemState.Abbreviation st, Some (Item.Offer_Name item))]
    | None => []
    end) items.

Definition venue_keys (items : list Item.t) : list (string * string) :=
  flat_map (fun item =>
    match Item.state item with
    | Some st => [(Item.Name item, ItemState.Abbreviation st)]
    | None => []
    end) items.

Definition casino_keys (items : list Item.t) : list string :=
  flat_map (fun item =>
    match Item.state item with
    | Some st => [casinoKey (Item.Name item) (ItemState.Abbreviation st)]
    | None => []
    end) items.

(** The keys [l] of a collection after upserts by the keys [ks], one after
    the other: a key that no document has is added at the end. *)
Definition absorb {K} (eqb : K -> K -> bool) (l ks : list K) : list K :=
  fold_left (fun acc k => if existsb (fun k' => eqb k' k) acc then acc else (acc ++ [k])%list)
            ks l.

(** A reference offer as the import leaves it. *)
Definition reference_document (o : Offer.t) : Prop :=
  Offer.source o = "internal-api" /\ Offer.verified o = true.

(** The map the handler has collected after the items [items]. *)
Definition collected (items : list Item.t) : CasinoMap.t :=
  fold_left (fun m item =>
    match Item.state item with
    | Some st =>
        let key := casinoKey (Item.Name item) (ItemState.Abbreviation st) in
        if CasinoMap.has key m then m
        else CasinoMap.set key
               (Entry.mk (Item.Name item) (ItemState.Name st)
                  (ItemState.Abbreviation st) (Item.casinodb_id item)) m
    | None => m
    end) items [].

Definition entry_key (e : Entry.t) : string * string :=
  (Entry.name e, Entry.stateAbbreviation e).

(** The offer loop has imported the items [pre] into the store of [w0]. *)
Definition offers_imported (w0 : World) (pre : list Item.t)
           (locals : CasinoMap.t * nat) (w : World) : Prop :=
  casinos w = casinos w0
  /\ map offer_key (offers w)
     = absorb offer_key_eqb (map offer_key (offers w0)) (offer_keys pre)
  /\ (forall k, In k (offer_keys pre) ->
        exists o, In o (offers w) /\ offer_key o = k /\ reference_document o)
  /\ (forall o, In o (offers w0) ->
        existsb (fun k => offer_key_eqb (offer_key o) k) (offer_keys pre) = false ->
        In o (offers w))
  /\ fst locals = collected pre /\ snd locals = length pre.

(** The venue loop has imported the entries [pre] into the store of [w0]. *)
Definition venues_imported (w0 : World) (pre : list Entry.t) (n : nat) (w : World)
  : Prop :=
  offers w = offers w0
  /\ map venue_key (casinos w)
     = absorb venue_key_eqb (map venue_key (casinos w0)) (map entry_key pre)
  /\ (forall e, In e pre ->
        exists c, In c (casinos w) /\ venue_key c = entry_key e
                  /\ Casino.discovered c = false)
  /\ (forall c, In c (casinos w0) ->
        existsb (fun k => venue_key_eqb (venue_key c) k) (map entry_key pre) = false ->
        In c (casinos w))
  /\ n = length pre.

(** No jurisdiction code of the items contains a hyphen. *)
Definition hyphen_free (items : list Item.t) : Prop :=
  Forall (fun item =>
    match Item.state item with
    | Some st => no_char "-" (ItemState.Abbreviation st) = true
    | None => True
    end) items.

(** The world the import leaves, and what it answers. *)
Definition imported (E : Env) (items : list Item.t) (w : World) : World :=
  fst (research_init E (inr items) w).

Definition import_reply (E : Env) (items : list Item.t) (w : World)
  : Exn + Reply InitBody.t :=
  snd (research_init E (inr items) w).

(** *** A reference import *)

Module ReferenceData.

Definition item (name abbrev stateName offer : string) (bonus : Z) : Item.t :=
  Item.mk name (Some (ItemState.mk stateName abbrev)) offer (Some "Welcome")
    (Some 10%float) (Some (JS.number bonus)) 7%Z.

Definition items : list Item.t :=
  [item "Acme Casino" "NJ" "New Jersey" "Welcome Bonus" 100;
   item "Acme Casino" "NJ" "New Jersey" "Free Spins" 20;
   item "Lakeside Casino" "MI" "Michigan" "Welcome Bonus" 50].

(** An item without the object [state]. *)
Definition stateless : Item.t :=
  Item.mk "Harbor Casino" None "Welcome Bonus" None None None 9%Z.

Definition env : Env := scenario_env (fun _ _ => inl "not used") (fun _ => None).

Definition empty : World := start env [] [].

(** Two venues whose names and jurisdiction codes give one key. *)
Definition colliding : list Item.t :=
  [item "A-B" "C" "State C" "Welcome Bonus" 100;
   item "A" "B-C" "State B-C" "Welcome Bonus" 100].

End ReferenceData.

(** The record of a run that has ended. *)
Definition ended (s : Status) (w : World) : Prop :=
  Run.status (run w) = s /\ Run.completedAt (run w) <> None
  /\ Run.currentState (run w) = None /\ Run.currentCasino (run w) = None.

(** ** The counters of the dashboard (GET /api/dashboard/summary)

    [Model.countDocuments(filter)] on a collection, and the two filters of
    the handler, [{ discovered: true }] and [{ source: 'ai-research' }];
    the handler counts all documents with the empty filter. *)
Definition countDocuments {A} (filter : A -> bool) (l : list A) : nat :=
  length (List.filter filter l).

Definition every {A} (_ : A) : bool := true.

Definition discovered_true (c : Casino.t) : bool := Casino.discovered c.

Definition source_ai_research (o : Offer.t) : bool :=
  String.eqb (Offer.source o) "ai-research".

(** ** The run button of the dashboard (App.jsx, handleRunResearch)

    The handler starts a run and then asks for the run record every three
    seconds, at most 200 times, until the record has a terminal status.
    The state of the component is modelled as far as the handler writes it;
    the four loaders it starts when the run has ended are not awaited, and
    what they do when they settle is not part of the handler. *)

(** The value of [researchProgress]. *)
Module Progress.
Record t := mk {
  status : string;
  currentState : option string;
  currentCasino : option string;
  casinosProcessed : option nat;
  offersProcessed : option nat;
  logs : list string
}.
End Progress.

Inductive Loader := FetchSummary | FetchCasinos | FetchOffers | FetchResearches.

Module Ui.
Record t := mk {
  loading : bool;
  researchProgress : option Progress.t;
  currentResearch : option Run.t;
  alerts : list string;             (* the texts shown by [alert], in order *)
  started : list Loader;            (* the loaders started, in order *)
  polls : nat                       (* requests for the run record issued *)
}.

Definition setLoading (b : bool) (u : t) : t :=
  mk b (researchProgress u) (currentResearch u) (alerts u) (started u) (polls u).

Definition setResearchProgress (p : option Progress.t) (u : t) : t :=
  mk (loading u) p (currentResearch u) (alerts u) (started u) (polls u).

Definition setCurrentResearch (r : option Run.t) (u : t) : t :=
  mk (loading u) (researchProgress u) r (alerts u) (started u) (polls u).

Definition alert (text : string) (u : t) : t :=
  mk (loading u) (researchProgress u) (currentResearch u) (alerts u ++ [text])%list
     (started u) (polls u).

Definition start (l : list Loader) (u : t) : t :=
  mk (loading u) (researchProgress u) (currentResearch u) (alerts u)
     (started u ++ l)%list (polls u).

Definition poll (u : t) : t :=
  mk (loading u) (researchProgress u) (currentResearch u) (alerts u) (started u)
     (S (polls u)).
End Ui.

(** The server as the handler sees it. *)
Record Backend := mkBackend {
  (** [POST /api/research/run]: [inl m] when the request or the reading of
      its body fails, [inr runId] otherwise *)
  post_run : string + string;
  (** the [k]-th [GET /api/research/runs/:id]: [inl m] when the request or
      the reading of its body fails, [inr None] when the body is [null],
      [inr (Some r)] when it is the record [r] *)
  get_run : nat -> string + option Run.t
}.

(** The text of a status in a record. *)
Definition status_text (s : Status) : string :=
  match s with
  | pending => "pending"
  | in_progress => "in-progress"
  | completed => "completed"
  | failed => "failed"
  end.

Definition progress_of (runData : Run.t) : Progress.t :=
  Progress.mk (status_text (Run.status runData)) (Run.currentState runData)
    (Run.currentCasino runData) (Some (Run.casinosProcessed runData))
    (Some (Run.offersProcessed runData)) (Run.progressLog runData).

(** [runData.status === 'completed' || runData.status === 'failed'] *)
Definition terminal (s : Status) : bool :=
  match s with
  | completed | failed => true
  | pending | in_progress => false
  end.

Section Dashboard.

Variable B : Backend.

(** The [while] loop, [remaining] being [200 - attempts]; [inl] when the
    body threw. *)
Fixpoint polling (remaining attempts : nat) (u : Ui.t) : Ui.t + Ui.t :=
  match remaining with
  | O => inr u
  | S remaining' =>
      match get_run B attempts with
      | inl _ => inl (Ui.poll u)
      | inr None => inl (Ui.poll u)
      | inr (Some runData) =>
          let u' := Ui.setResearchProgress (Some (progress_of runData)) (Ui.poll u) in
          if terminal (Run.status runData) then
            inr (Ui.setResearchProgress None
                   (Ui.alert ("Research " ++ status_text (Run.status runData) ++ "!")
                      (Ui.start [FetchSummary; FetchCasinos; FetchOffers; FetchResearches]
                         (Ui.setCurrentResearch (Some runData) u'))))
          else polling remaining' (S attempts) u'
      end
  end.

Definition handleRunResearch (u : Ui.t) : Ui.t :=
  let u1 :=
    Ui.setResearchProgress (Some (Progress.mk "starting" None None None None []))
      (Ui.setLoading true u) in
  let outcome :=
    match post_run B with
    | inl _ => inl u1
    | inr runId => polling 200 0 (Ui.alert ("Research started! Run ID: " ++ runId) u1)
    end in
  Ui.setLoading false
    (match outcome with
     | inr u' => u'
     | inl u' => Ui.setResearchProgress None (Ui.alert "Error running research" u')
     end).

End Dashboard.

(** The run record is not terminal at the polls [from], ..., [from + n - 1]. *)
Definition still_running (B : Backend) (from n : nat) : Prop :=
  forall k, from <= k < from + n ->
    exists r, get_run B k = inr (Some r) /\ terminal (Run.status r) = false.

(** *** Two servers *)

Module Polled.

Definition idle : Ui.t := Ui.mk false None None [] [] 0.

(** The run record never leaves [in-progress]. *)
Definition stuck : Backend :=
  mkBackend (inr "64f0") (fun _ => inr (Some (Run.create 0))).

(** The run of the end-to-end scenario has ended when its record is asked
    for the third time. *)
Definition ended_at_third_poll : Backend :=
  mkBackend (inr "64f0")
    (fun k => inr (Some (if k <? 2 then Run.create 0 else run EndToEnd.final))).

End Polled.

(** The requests of a run for the jurisdictions [pre] when the store holds
    the venues [cs]: for each jurisdiction the discovery request, then one
    research request per venue with its code, in store order. *)
Definition calls_upto (pre : list (string * string)) (cs : list Casino.t)
  : list Prompt :=
  flat_map (fun entry =>
    DiscoverPrompt (snd entry)
    :: research_calls (snd entry)
         (filter (fun c => String.eqb (Casino.stateAbbreviation c) (fst entry)) cs))
    pre.

(** After the jurisdictions [pre]. *)
Definition covered (pre : list (string * string)) (w : World) : Prop :=
  untouched w /\ calls w = calls_upto pre (casinos w).

(** In the jurisdiction [x], after its discovery request. *)
Definition discovering (pre : list (string * string)) (x : string * string)
           (w : World) : Prop :=
  untouched w
  /\ calls w = (calls_upto pre (casinos w) ++ [DiscoverPrompt (snd x)])%list.

(** In the offer loop of the jurisdiction [x] over the venues [all],
    after the venues [done]. *)
Definition researching (pre : list (string * string)) (x : string * string)
           (all done : list Casino.t) (w : World) : Prop :=
  untouched w
  /\ all = filter (fun c => String.eqb (Casino.stateAbbreviation c) (fst x)) (casinos w)
  /\ calls w = (calls_upto pre (casinos w)
                ++ DiscoverPrompt (snd x) :: research_calls (snd x) done)%list.

Definition no_request_yet (w : World) : Prop := untouched w /\ calls w = [].

(** The totals in the variables are [m] missing venues and [n] new offers. *)
Definition totals_are (m n : nat) (w : World) : Prop :=
  untouched w
  /\ count_missing (Vars.missingCasinos (vars w)) = m
  /\ Vars.totalNewOffers (vars w) = n.

(** The last entries of a log. *)
Definition log_ends_with (entries : list string) (w : World) : Prop :=
  exists l, Run.progressLog (run w) = (l ++ entries)%list.

(** * Properties

    The calculus and the generic lemmas come first, then the invariants of
    the loops, then the statements about whole runs and about the two
    matching rules. *)

Unset Implicit Arguments.

(** ** Rules of the calculus *)

Section Calculus.

Variable E : Env.

Lemma wp_ret A (a : A) Q R w : Q a w -> wp (ret a) Q R w.
Proof. exact (fun H => H). Qed.

Lemma wp_throw A e (Q : A -> World -> Prop) R w : R e w -> wp (throw e) Q R w.
Proof. exact (fun H => H). Qed.

Lemma wp_gets A (f : World -> A) Q R w : Q (f w) w -> wp (gets f) Q R w.
Proof. exact (fun H => H). Qed.

Lemma wp_modify f Q R w : Q tt (f w) -> wp (modify f) Q R w.
Proof. exact (fun H => H). Qed.

Lemma wp_bind A B (m : M A) (k : A -> M B) Q R w :
  wp m (fun a w' => wp (k a) Q R w') R w -> wp (bind m k) Q R w.
Proof.
  unfold wp, bind. destruct (m w) as [w' [e | a]]; auto.
Qed.

Lemma wp_try_catch A (m : M A) h Q R w :
  wp m Q (fun e w' => wp (h e) Q R w') w -> wp (try_catch m h) Q R w.
Proof.
  unfold wp, try_catch. destruct (m w) as [w' [e | a]]; auto.
Qed.

Lemma wp_mono A (m : M A) (Q Q' : A -> World -> Prop) (R R' : Exn -> World -> Prop) w :
  wp m Q R w ->
  (forall a w', Q a w' -> Q' a w') ->
  (forall e w', R e w' -> R' e w') ->
  wp m Q' R' w.
Proof.
  unfold wp. destruct (m w) as [w' [e | a]]; auto.
Qed.

Lemma wp_store_op Q R w :
  (store_fault E (ops w) = None -> Q tt (tick w)) ->
  (forall m, store_fault E (ops w) = Some m -> R (MongoError m) (tick w)) ->
  wp (store_op E) Q R w.
Proof.
  unfold wp, store_op. destruct (store_fault E (ops w)); auto.
Qed.

(** The loop rule, with an invariant indexed by the elements already
    iterated over. *)
Lemma wp_for_of_prefix A (I : list A -> World -> Prop) R (body : A -> M unit) :
  forall post pre w,
    I pre w ->
    (forall pre' x post' w', (pre ++ post = pre' ++ x :: post')%list -> I pre' w' ->
        wp (body x) (fun _ => I (pre' ++ [x])%list) R w') ->
    wp (for_of post body) (fun _ => I (pre ++ post)%list) R w.
Proof.
  induction post as [| x post IH]; intros pre w HI Hbody; simpl.
  - rewrite app_nil_r. exact HI.
  - apply wp_bind.
    apply wp_mono with (Q := fun _ => I (pre ++ [x])%list) (R := R).
    + apply (Hbody pre x post w); auto.
    + intros _ w' HI'.
      replace (pre ++ x :: post)%list with ((pre ++ [x]) ++ post)%list
        by (rewrite <- app_assoc; reflexivity).
      apply IH; auto.
      intros pre' y post' w'' Heq. apply Hbody with (post' := post').
      rewrite <- Heq, <- app_assoc. reflexivity.
    + auto.
Qed.

Lemma wp_for_of A (I : World -> Prop) R (body : A -> M unit) l w :
  I w ->
  (forall x w', In x l -> I w' -> wp (body x) (fun _ => I) R w') ->
  wp (for_of l body) (fun _ => I) R w.
Proof.
  intros HI Hbody.
  apply (wp_for_of_prefix A (fun _ => I) R body l [] w HI).
  intros pre' x post' w' Heq. apply Hbody.
  simpl in Heq. rewrite Heq. apply in_or_app. right. left. reflexivity.
Qed.

End Calculus.

(** ** Tactics *)

(** Goals [P w'] where [w'] is [w] after bookkeeping updates, for a quiet [P]. *)
Ltac quiet_leaf :=
  intros;
  repeat first
    [ assumption
    | match goal with
      | |- ?P _ =>
          let HQ := fresh "HQ" in
          assert (HQ : quiet P) by auto;
          first
            [ apply (quiet_tick HQ)
            | apply (quiet_run_log HQ)
            | apply (quiet_vars_log HQ)
            | apply (quiet_set_state HQ)
            | apply (quiet_set_casino HQ)
            | apply (quiet_incr HQ)
            | apply (quiet_declare_missing HQ)
            | apply (quiet_push_missing HQ)
            | apply (quiet_push_missingCasinos HQ) ];
          clear HQ
      end ].

Ltac wp_side := solve [ auto | quiet_leaf ].

Ltac wp_step :=
  lazymatch goal with
  | |- wp (bind _ _) _ _ _ => apply wp_bind
  | |- wp (ret _) _ _ _ => apply wp_ret
  | |- wp (throw _) _ _ _ => apply wp_throw
  | |- wp (gets _) _ _ _ => apply wp_gets
  | |- wp (modify _) _ _ _ => apply wp_modify
  | |- wp (try_catch _ _) _ _ _ => apply wp_try_catch
  | |- _ => progress cbv beta zeta
  end.

Ltac wp_unfold :=
  unfold new_Date, name_receiver, RegExp_i, parse_json.

(** Chaining: run [m], for which [H] is a specification, then go on. *)
Ltac wp_use H :=
  eapply wp_mono; [eapply H; wp_side | cbv beta | cbv beta].

Ltac wp_then H :=
  lazymatch goal with
  | |- wp (bind _ _) _ _ _ => apply wp_bind; wp_use H
  | |- _ => wp_use H
  end.

(** The exceptional branch of a specification [P w' /\ faulted E e]. *)
Ltac wp_exc := let H := fresh in intros ? ? [H _]; auto.

Section Generic.

Variable E : Env.

Lemma faulted_intro n m : store_fault E n = Some m -> faulted E (MongoError m).
Proof. intros H. exists n, m. auto. Qed.

Lemma store_op_keeps P w :
  quiet P -> P w ->
  wp (store_op E) (fun _ => P) (fun e w' => P w' /\ faulted E e) w.
Proof.
  intros HQ HP. apply wp_store_op.
  - intros _. quiet_leaf.
  - intros m Hm. split; [quiet_leaf | eapply faulted_intro; eauto].
Qed.

Lemma logProgress_keeps P message w :
  quiet P -> P w ->
  wp (logProgress E message) (fun _ => P) (fun e w' => P w' /\ faulted E e) w.
Proof.
  intros HQ HP. unfold logProgress, ResearchRun_findByIdAndUpdate, new_Date.
  repeat wp_step.
  wp_use (store_op_keeps P); [| auto].
  intros _ w' HP'. repeat wp_step. quiet_leaf.
Qed.

Lemma update_keeps P update w :
  quiet P -> (forall w', P w' -> P (with_run update w')) -> P w ->
  wp (ResearchRun_findByIdAndUpdate E update) (fun _ => P)
     (fun e w' => P w' /\ faulted E e) w.
Proof.
  intros HQ HU HP. unfold ResearchRun_findByIdAndUpdate. wp_step.
  wp_use (store_op_keeps P); [| auto].
  intros _ w' HP'. repeat wp_step. auto.
Qed.

Lemma Casino_find_keeps P filter w :
  quiet P -> P w ->
  wp (Casino_find E filter)
     (fun l w' => P w' /\ l = List.filter filter (casinos w'))
     (fun e w' => P w' /\ faulted E e) w.
Proof.
  intros HQ HP. unfold Casino_find. wp_step.
  wp_use (store_op_keeps P); [| auto].
  intros _ w' HP'. repeat wp_step. auto.
Qed.

Lemma Casino_findOne_keeps P filter w :
  quiet P -> P w ->
  wp (Casino_findOne E filter)
     (fun r w' => P w' /\ r = List.find filter (casinos w'))
     (fun e w' => P w' /\ faulted E e) w.
Proof.
  intros HQ HP. unfold Casino_findOne. wp_step.
  wp_use (store_op_keeps P); [| auto].
  intros _ w' HP'. repeat wp_step. auto.
Qed.

Lemma Offer_find_keeps P filter w :
  quiet P -> P w ->
  wp (Offer_find E filter)
     (fun l w' => P w' /\ l = List.filter filter (offers w'))
     (fun e w' => P w' /\ faulted E e) w.
Proof.
  intros HQ HP. unfold Offer_find. wp_step.
  wp_use (store_op_keeps P); [| auto].
  intros _ w' HP'. repeat wp_step. auto.
Qed.

Lemma Casino_create_keeps P doc w :
  quiet P -> grows P -> P w ->
  wp (Casino_create E doc) (fun _ => P) (fun e w' => P w' /\ faulted E e) w.
Proof.
  intros HQ HG HP. unfold Casino_create. repeat wp_step.
  wp_use (store_op_keeps P); [| auto].
  intros _ w' HP'. repeat wp_step. apply HG. auto.
Qed.

(** A stage never throws, and all it does to the world is to record its
    request. *)
Lemma discover_returns state w :
  exists l, discoverCasinosByState E state w
            = (record_call (DiscoverPrompt state) w, inr l).
Proof.
  unfold discoverCasinosByState, try_catch, bind, callClaudeAPI, parse_json, ret, throw.
  destruct (complete E (length (calls w)) (DiscoverPrompt state)) as [m | response];
    [eauto |].
  destruct (jsonMatch response) as [json |]; [| eauto].
  destruct (JSON_parse E json); eauto.
Qed.

Lemma research_returns casinoName state w :
  exists l, researchCasinoOffers E casinoName state w
            = (record_call (ResearchPrompt casinoName state) w, inr l).
Proof.
  unfold researchCasinoOffers, try_catch, bind, callClaudeAPI, parse_json, ret, throw.
  destruct (complete E (length (calls w)) (ResearchPrompt casinoName state))
    as [m | response]; [eauto |].
  destruct (jsonMatch response) as [json |]; [| eauto].
  destruct (JSON_parse E json); eauto.
Qed.

Lemma wp_discover state (Q : list DCasino.t -> World -> Prop) R w :
  (forall l, snd (discoverCasinosByState E state w) = inr l ->
             Q l (record_call (DiscoverPrompt state) w)) ->
  wp (discoverCasinosByState E state) Q R w.
Proof.
  intros H. unfold wp. destruct (discover_returns state w) as [l Hl].
  rewrite Hl. apply H. rewrite Hl. reflexivity.
Qed.

Lemma wp_research casinoName state (Q : list DOffer.t -> World -> Prop) R w :
  (forall l, snd (researchCasinoOffers E casinoName state w) = inr l ->
             Q l (record_call (ResearchPrompt casinoName state) w)) ->
  wp (researchCasinoOffers E casinoName state) Q R w.
Proof.
  intros H. unfold wp. destruct (research_returns casinoName state w) as [l Hl].
  rewrite Hl. apply H. rewrite Hl. reflexivity.
Qed.

Lemma venue_step_keeps P abbrev stateName casino w :
  quiet P -> grows P -> P w ->
  wp (venue_step E abbrev stateName casino) (fun _ => P) (fun _ => P) w.
Proof.
  intros HQ HG HP. unfold venue_step. wp_unfold.
  apply wp_bind. destruct (DCasino.name casino) as [name |]; [| apply wp_throw; auto].
  apply wp_ret. cbv beta zeta.
  apply wp_bind. destruct (new_RegExp E ("^" ++ name ++ "$")) as [m | matches];
    [apply wp_throw; auto |].
  apply wp_ret. cbv beta.
  wp_then (Casino_findOne_keeps P); [| wp_exc].
  intros r w' [HP' _]. destruct r; [apply wp_ret; auto |].
  repeat wp_step.
  wp_then (Casino_create_keeps P); [| wp_exc].
  intros _ w'' HP''.
  wp_use (logProgress_keeps P); [auto | wp_exc].
Qed.

Lemma venue_loop_keeps P abbrev stateName l w :
  quiet P -> grows P -> P w ->
  wp (for_of l (venue_step E abbrev stateName)) (fun _ => P) (fun _ => P) w.
Proof.
  intros HQ HG HP. apply wp_for_of; auto.
  intros x w' _ HP'. apply venue_step_keeps; auto.
Qed.

(** The offer loop, for an invariant [P] between venues, [Mid n pre] while
    the [n] new offers of a venue are stored ([pre] are stored already) and
    [Aft] before the counter is written. *)
Lemma offer_step_wp (P : World -> Prop) (Mid : nat -> list DOffer.t -> World -> Prop)
      (Aft Rx : World -> Prop) abbrev stateName casino w :
  quiet P -> (forall n pre, quiet (Mid n pre)) -> quiet Aft ->
  (forall w', P w' -> Rx w') ->
  (forall n pre w', Mid n pre w' -> Rx w') ->
  (forall w', Aft w' -> Rx w') ->
  (forall n s w', P w' -> P (record_call (ResearchPrompt n s) w')) ->
  (forall w', P w' -> Aft w') ->
  (forall n w', 0 < n -> P w' -> Mid n [] (with_vars (Vars.add_offers n) w')) ->
  (forall n pre x o w', Mid n pre w' -> length pre < n -> ai_research o ->
      Mid n (pre ++ [x])%list (with_offers (fun l => l ++ [o])%list w')) ->
  (forall l c w', Mid (length l) l w' -> 0 < length l ->
      length (Comparison.newOffers c) = length l ->
      Aft (with_vars (Vars.push_offerComparisons c) w')) ->
  (forall w', Aft w' ->
      P (with_run (Run.set_offersProcessed (Vars.totalOffersProcessed (vars w'))) w')) ->
  P w ->
  wp (offer_step E abbrev stateName casino) (fun _ => P) (fun _ => Rx) w.
Proof.
  intros HQ HQM HQA HPR HMR HAR Hcall HPA Hadd Hstore Hpush Hset HP.
  unfold offer_step.
  repeat wp_step.
  wp_then (update_keeps P); [| wp_exc]. intros _ w1 HP1.
  wp_then (logProgress_keeps P); [| wp_exc]. intros _ w2 HP2.
  apply wp_bind. apply wp_research. intros discoveredOffers _. cbv beta.
  wp_then (logProgress_keeps P); [| wp_exc]. intros _ w3 HP3.
  wp_then (Offer_find_keeps P); [| wp_exc].
  intros currentOffers w4 [HP4 _]. cbv zeta.
  set (newOffers := Reconcile.newOffers currentOffers discoveredOffers).
  apply wp_bind.
  apply wp_mono with (Q := fun _ => Aft) (R := fun _ => Rx); [| | auto].
  - destruct (0 <? length newOffers) eqn:Hlen; [| apply wp_ret; auto].
    apply Nat.ltb_lt in Hlen.
    repeat wp_step.
    wp_then (logProgress_keeps (Mid (length newOffers) [])); [| wp_exc; eauto].
    intros _ w5 HM5.
    apply wp_bind.
    apply wp_mono with (Q := fun _ => Mid (length newOffers) newOffers)
                       (R := fun _ => Rx); [| | auto].
    + apply (wp_for_of_prefix DOffer.t (Mid (length newOffers)) (fun _ => Rx)
               (store_offer E abbrev stateName casino) newOffers [] w5 HM5).
      intros pre x post w6 Heq HM6. simpl in Heq.
      assert (Hlt : length pre < length newOffers).
      { rewrite Heq, length_app. simpl. lia. }
      unfold store_offer, Offer_create, new_Date. repeat wp_step.
      wp_use (store_op_keeps (Mid (length newOffers) pre)); [| wp_exc; eauto].
      intros _ w7 HM7. repeat wp_step. apply Hstore; auto. reflexivity.
    + intros _ w6 HM6. repeat wp_step. apply Hpush with (l := newOffers); auto.
      simpl. rewrite length_map. reflexivity.
  - intros _ w5 HA5. repeat wp_step. unfold ResearchRun_findByIdAndUpdate. wp_step.
    apply wp_store_op; [intros _ | intros m _; apply HAR; quiet_leaf].
    repeat wp_step. apply (Hset (tick w5)). quiet_leaf.
Qed.

(** One jurisdiction, for an invariant [P] before the discovery request
    and [P'] after it. *)
Lemma state_step_wp (P P' Rx : World -> Prop) entry w :
  quiet P -> quiet P' -> grows P' ->
  (forall w', P w' -> Rx w') -> (forall w', P' w' -> Rx w') ->
  (forall w', P w' -> P' (record_call (DiscoverPrompt (snd entry)) w')) ->
  (forall c w', P' w' ->
     wp (offer_step E (fst entry) (snd entry) c) (fun _ => P') (fun _ => Rx) w') ->
  P w ->
  wp (state_step E entry) (fun _ => P') (fun _ => Rx) w.
Proof.
  intros HQ HQ' HG HPR HPR' Hcall Hoffer HP.
  destruct entry as [abbrev stateName]. simpl in Hcall, Hoffer.
  unfold state_step.
  wp_then (update_keeps P); [| wp_exc]. intros _ w1 HP1.
  wp_then (logProgress_keeps P); [| wp_exc]. intros _ w2 HP2.
  wp_then (logProgress_keeps P); [| wp_exc]. intros _ w3 HP3.
  apply wp_bind. apply wp_discover. intros discoveredCasinos _. cbv beta.
  wp_then (logProgress_keeps P'); [| wp_exc]. intros _ w4 HP4.
  wp_then (Casino_find_keeps P'); [| wp_exc]. intros existingCasinos w5 [HP5 _].
  repeat wp_step.
  apply wp_mono with (Q := fun _ => P') (R := fun _ => Rx); [| | auto].
  { apply wp_mono with (Q := fun _ => P') (R := fun _ => P'); [| auto | auto].
    apply venue_loop_keeps; auto. quiet_leaf. }
  intros _ w6 HP6. repeat wp_step.
  apply wp_mono with (Q := fun _ => P') (R := fun _ => Rx); [| | auto].
  { destruct (0 <? length (Vars.missing (vars w6))).
    - repeat wp_step. wp_use (logProgress_keeps P'); [auto | wp_exc].
    - wp_use (logProgress_keeps P'); [auto | wp_exc]. }
  intros _ w7 HP7.
  wp_then (Casino_find_keeps P'); [| wp_exc]. intros allCasinos w8 [HP8 _].
  wp_then (logProgress_keeps P'); [| wp_exc]. intros _ w9 HP9.
  apply wp_bind.
  apply wp_mono with (Q := fun _ => P') (R := fun _ => Rx); [| | auto].
  { apply wp_for_of; auto. }
  intros _ w10 HP10.
  wp_use (logProgress_keeps P'); [auto | wp_exc].
Qed.

(** The loop over the jurisdictions, for an invariant indexed by the
    jurisdictions already processed. *)
Lemma states_loop_wp (P : list (string * string) -> World -> Prop)
      (Rx : World -> Prop) w :
  (forall pre, quiet (P pre)) -> (forall pre, grows (P pre)) ->
  (forall pre w', P pre w' -> Rx w') ->
  (forall pre x post w', states = (pre ++ x :: post)%list -> P pre w' ->
     P (pre ++ [x])%list (record_call (DiscoverPrompt (snd x)) w')) ->
  (forall pre x c w', P (pre ++ [x])%list w' ->
     wp (offer_step E (fst x) (snd x) c) (fun _ => P (pre ++ [x])%list)
        (fun _ => Rx) w') ->
  P [] w ->
  wp (for_of states (state_step E)) (fun _ => P states) (fun _ => Rx) w.
Proof.
  intros HQ HG HPR Hcall Hoffer HP.
  apply (wp_for_of_prefix (string * string) P (fun _ => Rx) (state_step E)
           states [] w HP).
  intros pre x post w' Heq HP'.
  apply state_step_wp with (P := P pre); auto.
  - intros w'' HP''. apply (HPR _ _ HP'').
  - intros w'' HP''. apply (HPR _ _ HP'').
  - intros w'' HP''. apply (Hcall pre x post); auto.
Qed.

(** The [try] block, for an invariant [P0] before the variables are
    declared and [P pre] in the loop; [Qf] holds after the final update. *)
Lemma research_body_wp (P0 : World -> Prop)
      (P : list (string * string) -> World -> Prop) (Qf Rx : World -> Prop) w :
  quiet P0 -> (forall pre, quiet (P pre)) -> (forall pre, grows (P pre)) ->
  (forall w', P0 w' -> Rx w') ->
  (forall pre w', P pre w' -> Rx w') ->
  (forall w', P0 w' -> P [] (with_vars Vars.declare w')) ->
  (forall pre x post w', states = (pre ++ x :: post)%list -> P pre w' ->
     P (pre ++ [x])%list (record_call (DiscoverPrompt (snd x)) w')) ->
  (forall pre x c w', P (pre ++ [x])%list w' ->
     wp (offer_step E (fst x) (snd x) c) (fun _ => P (pre ++ [x])%list)
        (fun _ => Rx) w') ->
  (forall d w', P states w' ->
     Qf (with_run
           (Run.set_completed d (Vars.missingCasinos (vars w'))
              (Vars.offerComparisons (vars w'))
              (Summary.mk (count_missing (Vars.missingCasinos (vars w')))
                 (Vars.totalNewOffers (vars w')) (map snd states))) w')) ->
  P0 w ->
  wp (research_body E) (fun _ => Qf) (fun _ => Rx) w.
Proof.
  intros HQ0 HQ HG HR0 HR Hdecl Hcall Hoffer Hfin HP0.
  unfold research_body, ResearchRun_findById.
  repeat wp_step.
  wp_use (store_op_keeps P0); [| wp_exc]. intros _ w1 HP1.
  repeat wp_step.
  wp_then (logProgress_keeps (P [])); [| wp_exc; eauto]. intros _ w2 HP2.
  apply wp_bind.
  apply wp_mono with (Q := fun _ => P states) (R := fun _ => Rx); [| | auto].
  { apply states_loop_wp; auto. }
  intros _ w3 HP3.
  wp_then (logProgress_keeps (P states)); [| wp_exc; eauto]. intros _ w4 HP4.
  repeat wp_step.
  wp_then (logProgress_keeps (P states)); [| wp_exc; eauto]. intros _ w5 HP5.
  wp_then (logProgress_keeps (P states)); [| wp_exc; eauto]. intros _ w6 HP6.
  unfold finalize, ResearchRun_findByIdAndUpdate, new_Date. repeat wp_step.
  apply wp_store_op; [intros _ | intros m _; apply (HR states); quiet_leaf].
  repeat wp_step. apply (Hfin (now E (ops w6)) (tick w6)). quiet_leaf.
Qed.

(** The offer loop keeps a calm invariant. *)
Lemma offer_step_keeps (P Rx : World -> Prop) abbrev stateName casino w :
  quiet P -> calm P -> (forall w', P w' -> Rx w') -> P w ->
  wp (offer_step E abbrev stateName casino) (fun _ => P) (fun _ => Rx) w.
Proof.
  intros HQ HC HPR HP.
  apply offer_step_wp with (Mid := fun _ _ => P) (Aft := P); auto.
  - intros n s w'. apply (calm_research HC).
  - intros n w' _. apply (calm_add HC).
  - intros n pre x o w' HP' _ _. apply (calm_offer HC). exact HP'.
  - intros l c w' HP' _ _. apply (calm_push HC). exact HP'.
  - intros w'. apply (calm_set HC).
Qed.

(** The [catch] block keeps what it does not write. *)
Lemma research_failed_keeps (P : World -> Prop) error w :
  quiet P -> (forall d w', P w' -> P (with_run (Run.set_failed d) w')) -> P w ->
  wp (research_failed E error) (fun _ => P) (fun _ => P) w.
Proof.
  intros HQ Hfail HP. unfold research_failed.
  wp_then (logProgress_keeps P); [| wp_exc]. intros _ w1 HP1.
  unfold new_Date. repeat wp_step.
  wp_use (update_keeps P); [auto | wp_exc].
Qed.

(** A whole run: [Qf] when the [try] block returned, [Rx] otherwise. *)
Lemma performResearch_wp (P0 : World -> Prop)
      (P : list (string * string) -> World -> Prop) (Qf Rx : World -> Prop) w :
  quiet P0 -> (forall pre, quiet (P pre)) -> (forall pre, grows (P pre)) ->
  (forall w', P0 w' -> Rx w') ->
  (forall pre w', P pre w' -> Rx w') ->
  (forall w', P0 w' -> P [] (with_vars Vars.declare w')) ->
  (forall pre x post w', states = (pre ++ x :: post)%list -> P pre w' ->
     P (pre ++ [x])%list (record_call (DiscoverPrompt (snd x)) w')) ->
  (forall pre x c w', P (pre ++ [x])%list w' ->
     wp (offer_step E (fst x) (snd x) c) (fun _ => P (pre ++ [x])%list)
        (fun _ => Rx) w') ->
  (forall d w', P states w' ->
     Qf (with_run
           (Run.set_completed d (Vars.missingCasinos (vars w'))
              (Vars.offerComparisons (vars w'))
              (Summary.mk (count_missing (Vars.missingCasinos (vars w')))
                 (Vars.totalNewOffers (vars w')) (map snd states))) w')) ->
  quiet Rx -> (forall d w', Rx w' -> Rx (with_run (Run.set_failed d) w')) ->
  P0 w ->
  wp (performResearch E) (fun _ w' => Qf w' \/ Rx w') (fun _ => Rx) w.
Proof.
  intros HQ0 HQ HG HR0 HR Hdecl Hcall Hoffer Hfin HQR Hfail HP0.
  unfold performResearch. apply wp_try_catch.
  eapply wp_mono.
  - apply research_body_wp with (P0 := P0) (P := P) (Qf := Qf) (Rx := Rx); eauto.
  - cbv beta. auto.
  - cbv beta. intros e w' HRx.
    eapply wp_mono; [apply research_failed_keeps with (P := Rx); auto | |];
      cbv beta; auto.
Qed.

End Generic.

(** ** Invariants of the record and of the request trace *)

Ltac unfold_inv :=
  unfold discovered_upto, discovered_prefix, untouched, not_completed in *.

Ltac stable :=
  first [ progress unfold grows | constructor ]; intros; unfold_inv; cbn in *; assumption.

Lemma quiet_discovered_upto pre : quiet (discovered_upto pre).
Proof. stable. Qed.

Lemma grows_discovered_upto pre : grows (discovered_upto pre).
Proof. stable. Qed.

Lemma discover_states_app l l' :
  discover_states (l ++ l') = (discover_states l ++ discover_states l')%list.
Proof. unfold discover_states. apply flat_map_app. Qed.

Lemma calm_discovered_upto pre : calm (discovered_upto pre).
Proof.
  constructor; intros; unfold_inv; cbn in *; try assumption.
  rewrite discover_states_app. simpl. rewrite app_nil_r. assumption.
Qed.

Lemma quiet_discovered_prefix : quiet discovered_prefix.
Proof. stable. Qed.

Lemma discovered_upto_prefix pre w : discovered_upto pre w -> discovered_prefix w.
Proof.
  intros (Hd & [post Hpost] & Hs & _). split.
  - exists (length pre). rewrite Hd, Hpost, map_app.
    rewrite firstn_app, length_map, Nat.sub_diag. simpl.
    rewrite app_nil_r, <- (length_map snd pre), firstn_all. reflexivity.
  - unfold not_completed. rewrite Hs. discriminate.
Qed.

Section Order.

Variable E : Env.

Lemma discovery_order_wp w :
  discovered_upto [] w ->
  wp (performResearch E)
     (fun _ w' => (discover_states (calls w') = map snd states
                   /\ Run.status (run w') = completed)
                  \/ discovered_prefix w')
     (fun _ => discovered_prefix) w.
Proof.
  intros H0.
  apply performResearch_wp
    with (P0 := discovered_upto []) (P := discovered_upto).
  - apply quiet_discovered_upto.
  - apply quiet_discovered_upto.
  - apply grows_discovered_upto.
  - apply discovered_upto_prefix.
  - apply discovered_upto_prefix.
  - auto.
  - intros pre x post w' Heq (Hd & _ & Hu). split; [| split]; auto.
    + cbn. rewrite discover_states_app, Hd, map_app. reflexivity.
    + exists post. rewrite Heq, <- app_assoc. reflexivity.
  - intros pre x c w' HP. apply offer_step_keeps; auto.
    + apply quiet_discovered_upto.
    + apply calm_discovered_upto.
    + apply discovered_upto_prefix.
  - intros d w' (Hd & _). split; auto.
  - apply quiet_discovered_prefix.
  - intros d w' [Hk Hs]. split; auto. unfold not_completed. cbn. discriminate.
  - exact H0.
Qed.

End Order.

(** ** The summary of a completed run *)

Lemma count_missing_sum l : count_missing l = sum_missing l.
Proof.
  unfold count_missing, sum_missing.
  assert (H : forall a, fold_left
                (fun sum s => sum + length (MissingEntry.casinos s)) l a
              = a + list_sum (map (fun s => length (MissingEntry.casinos s)) l)).
  { induction l as [| x l IH]; intros a; simpl; [lia |]. rewrite IH. lia. }
  apply (H 0).
Qed.

Lemma sum_new_app l c :
  sum_new (l ++ [c]) = sum_new l + length (Comparison.newOffers c).
Proof.
  unfold sum_new. rewrite map_app, list_sum_app. simpl. lia.
Qed.

Ltac unfold_totals :=
  unfold comparisons_pending, entries_nonempty, storing, stored_all, counted,
    counter_behind, fresh_counter in *;
  unfold_inv.

Ltac stable_totals :=
  first [ progress unfold grows | constructor ]; intros; unfold_totals;
  cbn in *; assumption.

Lemma quiet_comparisons_pending n : quiet (comparisons_pending n).
Proof. stable_totals. Qed.

Lemma grows_comparisons_pending n : grows (comparisons_pending n).
Proof. stable_totals. Qed.

Lemma quiet_entries_nonempty : quiet entries_nonempty.
Proof. stable_totals. Qed.

Lemma comparisons_pending_nonempty n w :
  comparisons_pending n w -> entries_nonempty w.
Proof.
  intros (_ & HF & Hs & _). split; auto. unfold not_completed. rewrite Hs. discriminate.
Qed.

Section Totals.

Variable E : Env.

Lemma offer_step_comparisons abbrev stateName casino w :
  comparisons_pending 0 w ->
  wp (offer_step E abbrev stateName casino) (fun _ => comparisons_pending 0)
     (fun _ => entries_nonempty) w.
Proof.
  intros HP.
  apply offer_step_wp
    with (Mid := fun n _ => comparisons_pending n) (Aft := comparisons_pending 0).
  - apply quiet_comparisons_pending.
  - intros n _. apply quiet_comparisons_pending.
  - apply quiet_comparisons_pending.
  - apply comparisons_pending_nonempty.
  - intros n _. apply comparisons_pending_nonempty.
  - apply comparisons_pending_nonempty.
  - intros n s w' (H1 & H2 & H3). unfold_totals. cbn in *. auto.
  - auto.
  - intros n w' _ (H1 & H2 & H3). unfold_totals. cbn in *. split; [lia | auto].
  - intros n pre x o w' (H1 & H2 & H3) _ _. unfold_totals. cbn in *. auto.
  - intros l c w' (H1 & H2 & H3) Hpos Hlen. unfold_totals. cbn in *.
    split; [| split]; auto.
    + rewrite sum_new_app, Hlen. lia.
    + apply Forall_app. split; auto. constructor; auto.
      intros Hnil. rewrite Hnil in Hlen. simpl in Hlen. lia.
  - intros w' (H1 & H2 & H3). unfold_totals. cbn in *. auto.
  - exact HP.
Qed.

Lemma summary_totals_wp w :
  comparisons_pending 0 w ->
  wp (performResearch E)
     (fun _ w' =>
        (Run.status (run w') = completed
         /\ Forall (fun c => Comparison.newOffers c <> [])
                   (Vars.offerComparisons (vars w'))
         /\ exists s, Run.summary (run w') = Some s
              /\ Summary.totalMissingCasinos s = sum_missing (Run.missingCasinos (run w'))
              /\ Summary.totalNewOffers s = sum_new (Run.offerComparisons (run w'))
              /\ Forall (fun c => Comparison.newOffers c <> [])
                        (Run.offerComparisons (run w')))
        \/ entries_nonempty w')
     (fun _ => entries_nonempty) w.
Proof.
  intros H0.
  apply performResearch_wp
    with (P0 := comparisons_pending 0) (P := fun _ => comparisons_pending 0).
  - apply quiet_comparisons_pending.
  - intros _. apply quiet_comparisons_pending.
  - intros _. apply grows_comparisons_pending.
  - apply comparisons_pending_nonempty.
  - intros _. apply comparisons_pending_nonempty.
  - intros w' (H1 & H2 & H3). unfold_totals. cbn in *. auto.
  - intros pre x post w' _ (H1 & H2 & H3). unfold_totals. cbn in *. auto.
  - intros pre x c w' HP. apply offer_step_comparisons. exact HP.
  - intros d w' (H1 & H2 & H3). cbn. split; [reflexivity | split; [exact H2 |]].
    eexists. split; [reflexivity |]. cbn.
    rewrite count_missing_sum, H1. split; [reflexivity | split; [lia | exact H2]].
  - apply quiet_entries_nonempty.
  - intros d w' [HF Hs]. split; auto. unfold not_completed. cbn. discriminate.
  - exact H0.
Qed.

End Totals.

(** ** The counter of processed offers *)

Lemma quiet_counted os p k : quiet (counted os p k).
Proof. stable_totals. Qed.

Lemma grows_counted os p k : grows (counted os p k).
Proof. stable_totals. Qed.

Lemma quiet_storing os n pre : quiet (storing os n pre).
Proof. stable_totals. Qed.

Lemma quiet_stored_all os : quiet (stored_all os).
Proof. stable_totals. Qed.

Lemma quiet_counter_behind os : quiet (counter_behind os).
Proof. stable_totals. Qed.

Lemma quiet_fresh_counter os : quiet (fresh_counter os).
Proof. stable_totals. Qed.

Lemma counted_behind os p k w : counted os p k w -> counter_behind os w.
Proof.
  intros (added & H1 & H2 & H3 & H4 & H5 & Hs & _). split.
  - exists added. repeat split; auto. lia.
  - unfold not_completed. rewrite Hs. discriminate.
Qed.

Section Counter.

Variable E : Env.
Variable os : list Offer.t.

Lemma offer_step_counted abbrev stateName casino w :
  counted os 0 0 w ->
  wp (offer_step E abbrev stateName casino) (fun _ => counted os 0 0)
     (fun _ => counter_behind os) w.
Proof.
  intros HP.
  apply offer_step_wp with (Mid := storing os) (Aft := stored_all os).
  - apply quiet_counted.
  - apply quiet_storing.
  - apply quiet_stored_all.
  - apply counted_behind.
  - intros n pre w' [_ H]. apply (counted_behind _ _ _ _ H).
  - intros w' [k H]. apply (counted_behind _ _ _ _ H).
  - intros n s w' H. exact H.
  - intros w' H. exists 0. exact H.
  - intros n w' Hn (added & H1 & H2 & H3 & H4 & H5 & H6). split; [simpl; lia |].
    exists added. unfold_totals. cbn in *. intuition lia.
  - intros n pre x o w' [Hle (added & H1 & H2 & H3 & H4 & H5 & H6)] Hlt Ho.
    split; [rewrite length_app; simpl; lia |].
    exists (added ++ [o])%list. unfold_totals. cbn in *.
    rewrite H1, length_app, length_app. simpl.
    intuition (try lia).
    + rewrite app_assoc. reflexivity.
    + apply Forall_app. split; auto.
  - intros l c w' [_ (added & H1 & H2 & H3 & H4 & H5 & H6)] _ _.
    exists (length l). exists added. unfold_totals. cbn in *.
    rewrite Nat.sub_diag in H3. intuition lia.
  - intros w' [k (added & H1 & H2 & H3 & H4 & H5 & H6)].
    exists added. unfold_totals. cbn in *. intuition lia.
  - exact HP.
Qed.

Lemma counter_wp w :
  fresh_counter os w ->
  wp (performResearch E)
     (fun _ w' =>
        (Run.status (run w') = completed
         /\ exists added s,
              offers w' = (os ++ added)%list /\ Forall ai_research added
              /\ Run.offersProcessed (run w') = length added
              /\ Run.summary (run w') = Some s
              /\ Summary.totalNewOffers s = length added)
        \/ counter_behind os w')
     (fun _ => counter_behind os) w.
Proof.
  intros H0.
  apply performResearch_wp
    with (P0 := fresh_counter os) (P := fun _ => counted os 0 0).
  - apply quiet_fresh_counter.
  - intros _. apply quiet_counted.
  - intros _. apply grows_counted.
  - intros w' (H1 & H2 & Hs & H3). split.
    + exists []. rewrite app_nil_r. repeat split; auto. simpl. lia.
    + unfold not_completed. rewrite Hs. discriminate.
  - intros _. apply counted_behind.
  - intros w' (H1 & H2 & H3). exists []. unfold_totals. cbn in *.
    rewrite app_nil_r. intuition (try lia). constructor.
  - intros pre x post w' _ H. exact H.
  - intros pre x c w' HP. apply offer_step_counted. exact HP.
  - intros d w' (added & H1 & H2 & H3 & H4 & H5 & H6). cbn in *.
    split; [reflexivity |]. exists added. eexists.
    repeat split; try reflexivity; auto; cbn; lia.
  - apply quiet_counter_behind.
  - intros d w' [H Hs]. split; auto. unfold not_completed. cbn. discriminate.
  - exact H0.
Qed.

End Counter.

(** ** Failure of a run *)

Lemma quiet_kept cs os : quiet (kept cs os).
Proof. constructor; intros; unfold kept in *; unfold_inv; cbn in *; assumption. Qed.

Lemma grows_kept cs os : grows (kept cs os).
Proof.
  intros c w ([l Hl] & Ho & Hu). split; [| split]; auto.
  exists (l ++ [c])%list. cbn. rewrite Hl, app_assoc. reflexivity.
Qed.

Lemma calm_kept cs os : calm (kept cs os).
Proof.
  constructor; intros; unfold kept in *; unfold_inv; cbn in *; try assumption.
  destruct H as (Hc & [l Hl] & Hu). split; [| split]; auto.
  exists (l ++ [o])%list. rewrite Hl, app_assoc. reflexivity.
Qed.

Section Failure.

Variable E : Env.
Variables (cs : list Casino.t) (os : list Offer.t).

Lemma start_untouched : untouched (start E cs os).
Proof. repeat split. Qed.

Lemma start_kept : kept cs os (start E cs os).
Proof.
  split; [| split]; [exists [] | exists [] | apply start_untouched];
    cbn; rewrite app_nil_r; reflexivity.
Qed.

Lemma start_discovered : discovered_upto [] (start E cs os).
Proof.
  split; [reflexivity | split; [exists states; reflexivity | apply start_untouched]].
Qed.

Lemma research_body_keeps w :
  kept cs os w ->
  wp (research_body E) (fun _ _ => True) (fun _ => kept cs os) w.
Proof.
  intros H0.
  apply research_body_wp with (P0 := kept cs os) (P := fun _ => kept cs os).
  - apply quiet_kept.
  - intros _. apply quiet_kept.
  - intros _. apply grows_kept.
  - auto.
  - auto.
  - intros w' H. exact H.
  - intros pre x post w' _ H. exact H.
  - intros pre x c w' HP. apply offer_step_keeps; auto.
    + apply quiet_kept.
    + apply calm_kept.
  - auto.
  - exact H0.
Qed.

Lemma research_body_prefix w :
  discovered_upto [] w ->
  wp (research_body E) (fun _ _ => True) (fun _ => discovered_prefix) w.
Proof.
  intros H0.
  apply research_body_wp with (P0 := discovered_upto []) (P := discovered_upto).
  - apply quiet_discovered_upto.
  - apply quiet_discovered_upto.
  - apply grows_discovered_upto.
  - apply discovered_upto_prefix.
  - apply discovered_upto_prefix.
  - auto.
  - intros pre x post w' Heq (Hd & _ & Hu). split; [| split]; auto.
    + cbn. rewrite discover_states_app, Hd, map_app. reflexivity.
    + exists post. rewrite Heq, <- app_assoc. reflexivity.
  - intros pre x c w' HP. apply offer_step_keeps; auto.
    + apply quiet_discovered_upto.
    + apply calm_discovered_upto.
    + apply discovered_upto_prefix.
  - auto.
  - exact H0.
Qed.

(** The [catch] block when its two writes succeed. *)
Lemma research_failed_run e w :
  store_fault E (ops w) = None -> store_fault E (S (ops w)) = None ->
  research_failed E e w
  = (with_run (Run.set_failed (now E (S (ops w))))
       (tick (with_run
          (Run.push_progressLog
             (stamp E (now E (ops w)) ("âŒ Research failed: " ++ message e)))
          (tick (with_vars
             (Vars.push_progressLog
                (stamp E (now E (ops w)) ("âŒ Research failed: " ++ message e)))
             w)))),
     inr tt).
Proof.
  intros H1 H2.
  unfold research_failed, logProgress, ResearchRun_findByIdAndUpdate, new_Date,
    bind, gets, modify, store_op.
  cbn. rewrite H1. cbn. rewrite H2. reflexivity.
Qed.

End Failure.

(** ** Whole runs *)

Lemma wp_run E cs os (Q : unit -> World -> Prop) (R : Exn -> World -> Prop) :
  wp (performResearch E) Q R (start E cs os) ->
  match snd (research_run E cs os) with
  | inr a => Q a (fst (research_run E cs os))
  | inl e => R e (fst (research_run E cs os))
  end.
Proof.
  unfold wp, research_run.
  destruct (performResearch E (start E cs os)) as [w [e | a]]; auto.
Qed.

(** C7, as amended: in every run the discovery requests are issued for a
    prefix of the enumeration New Jersey, Michigan, Pennsylvania, West
    Virginia, once each and in that order; in a run that ends [completed]
    the prefix is the whole enumeration. *)
Theorem discover_requests_follow_enumeration E cs os :
  (exists k,
     discover_states (calls (fst (research_run E cs os)))
     = firstn k ["New Jersey"; "Michigan"; "Pennsylvania"; "West Virginia"])
  /\ (Run.status (run (fst (research_run E cs os))) = completed ->
      discover_states (calls (fst (research_run E cs os)))
      = ["New Jersey"; "Michigan"; "Pennsylvania"; "West Virginia"]).
Proof.
  pose proof (wp_run E cs os _ _
                (discovery_order_wp E _ (start_discovered E cs os))) as H.
  cbv beta in H.
  assert (Hp : discovered_prefix (fst (research_run E cs os))
               \/ (discover_states (calls (fst (research_run E cs os)))
                   = map snd states
                   /\ Run.status (run (fst (research_run E cs os))) = completed)).
  { destruct (snd (research_run E cs os)); [left; exact H |].
    destruct H as [H | H]; [right | left]; exact H. }
  destruct Hp as [[Hk Hn] | [Hd Hs]].
  - split; [exact Hk |]. intros Hc. elim (Hn Hc).
  - split; [exists 4; exact Hd | intros _; exact Hd].
Qed.

Lemma discover_requests_follow_enumeration_witness :
  discover_states (calls EndToEnd.final)
  = ["New Jersey"; "Michigan"; "Pennsylvania"; "West Virginia"].
Proof.
  apply (proj2 (discover_requests_follow_enumeration
                  EndToEnd.env EndToEnd.store_casinos EndToEnd.store_offers)).
  vm_compute. reflexivity.
Defined.

(** C7 as stated fails: a run that fails in the first jurisdiction never
    requests discovery for the other three. *)
Lemma failed_run_skips_jurisdictions :
  Run.status (run Nameless.final) = failed
  /\ discover_states (calls Nameless.final) = ["New Jersey"]
  /\ discover_states (calls Nameless.final)
     <> ["New Jersey"; "Michigan"; "Pennsylvania"; "West Virginia"].
Proof.
  split; [vm_compute; reflexivity |].
  split; [vm_compute; reflexivity |].
  vm_compute. discriminate.
Qed.

(** C5: when a run ends [completed], its summary's [totalMissingCasinos]
    is the sum of [casinos.length] over the record's missing-venue
    entries, its [totalNewOffers] is the sum of [newOffers.length] over
    the record's comparison entries, and no comparison entry, in the
    record or in the variable it is copied from, has an empty list of new
    offers. *)
Theorem completed_summary_totals E cs os :
  Run.status (run (fst (research_run E cs os))) = completed ->
  exists s,
    Run.summary (run (fst (research_run E cs os))) = Some s
    /\ Summary.totalMissingCasinos s
       = sum_missing (Run.missingCasinos (run (fst (research_run E cs os))))
    /\ Summary.totalNewOffers s
       = sum_new (Run.offerComparisons (run (fst (research_run E cs os))))
    /\ Forall (fun c => Comparison.newOffers c <> [])
              (Run.offerComparisons (run (fst (research_run E cs os))))
    /\ Forall (fun c => Comparison.newOffers c <> [])
              (Vars.offerComparisons (vars (fst (research_run E cs os)))).
Proof.
  intros Hc.
  assert (H0 : comparisons_pending 0 (start E cs os)).
  { split; [reflexivity | split; [constructor | apply start_untouched]]. }
  pose proof (wp_run E cs os _ _ (summary_totals_wp E _ H0)) as H.
  cbv beta in H.
  assert (Hp : entries_nonempty (fst (research_run E cs os))
               \/ (Run.status (run (fst (research_run E cs os))) = completed
         /\ Forall (fun c => Comparison.newOffers c <> [])
                   (Vars.offerComparisons (vars (fst (research_run E cs os))))
         /\ exists s, Run.summary (run (fst (research_run E cs os))) = Some s
              /\ Summary.totalMissingCasinos s
                 = sum_missing (Run.missingCasinos (run (fst (research_run E cs os))))
              /\ Summary.totalNewOffers s
                 = sum_new (Run.offerComparisons (run (fst (research_run E cs os))))
              /\ Forall (fun c => Comparison.newOffers c <> [])
                        (Run.offerComparisons (run (fst (research_run E cs os)))))).
  { destruct (snd (research_run E cs os)); [left; exact H |].
    destruct H as [H | H]; [right | left]; exact H. }
  destruct Hp as [[_ Hn] | (_ & HF & s & H1 & H2 & H3 & H4)].
  - elim (Hn Hc).
  - exists s. repeat split; assumption.
Qed.

Lemma completed_summary_totals_witness :
  exists s,
    Run.summary (run EndToEnd.final) = Some s
    /\ Summary.totalMissingCasinos s = sum_missing (Run.missingCasinos (run EndToEnd.final))
    /\ Summary.totalNewOffers s = sum_new (Run.offerComparisons (run EndToEnd.final))
    /\ Forall (fun c => Comparison.newOffers c <> [])
              (Run.offerComparisons (run EndToEnd.final))
    /\ Forall (fun c => Comparison.newOffers c <> [])
              (Vars.offerComparisons (vars EndToEnd.final)).
Proof.
  apply (completed_summary_totals
           EndToEnd.env EndToEnd.store_casinos EndToEnd.store_offers).
  vm_compute. reflexivity.
Defined.

(** C10, as amended: in every run the offers in the store are the initial
    ones followed by the offers the run inserted, all of them of source
    [ai-research], and the record's [offersProcessed] never exceeds their
    number; when the run ends [completed] the counter equals that number
    and the summary's [totalNewOffers]. *)
Theorem offersProcessed_counts_inserted_offers E cs os :
  exists added,
    offers (fst (research_run E cs os)) = (os ++ added)%list
    /\ Forall ai_research added
    /\ Run.offersProcessed (run (fst (research_run E cs os))) <= length added
    /\ (Run.status (run (fst (research_run E cs os))) = completed ->
        Run.offersProcessed (run (fst (research_run E cs os))) = length added
        /\ exists s,
             Run.summary (run (fst (research_run E cs os))) = Some s
             /\ Summary.totalNewOffers s
                = Run.offersProcessed (run (fst (research_run E cs os)))).
Proof.
  assert (H0 : fresh_counter os (start E cs os)).
  { split; [reflexivity | split; [reflexivity | apply start_untouched]]. }
  pose proof (wp_run E cs os _ _ (counter_wp E os _ H0)) as H.
  cbv beta in H.
  assert (Hp : counter_behind os (fst (research_run E cs os))
               \/ (Run.status (run (fst (research_run E cs os))) = completed
         /\ exists added s,
              offers (fst (research_run E cs os)) = (os ++ added)%list
              /\ Forall ai_research added
              /\ Run.offersProcessed (run (fst (research_run E cs os))) = length added
              /\ Run.summary (run (fst (research_run E cs os))) = Some s
              /\ Summary.totalNewOffers s = length added)).
  { destruct (snd (research_run E cs os)); [left; exact H |].
    destruct H as [H | H]; [right | left]; exact H. }
  destruct Hp as [[(added & H1 & H2 & H3) Hn] | (_ & added & s & H1 & H2 & H3 & H4 & H5)].
  - exists added. split; [exact H1 | split; [exact H2 | split; [exact H3 |]]].
    intros Hc. elim (Hn Hc).
  - exists added. split; [exact H1 | split; [exact H2 | split; [lia |]]].
    intros _. split; [exact H3 |]. exists s. split; [exact H4 | lia].
Qed.

Lemma offersProcessed_counts_inserted_offers_witness :
  exists added,
    offers EndToEnd.final = (EndToEnd.store_offers ++ added)%list
    /\ Run.offersProcessed (run EndToEnd.final) = length added
    /\ exists s, Run.summary (run EndToEnd.final) = Some s
         /\ Summary.totalNewOffers s = Run.offersProcessed (run EndToEnd.final).
Proof.
  destruct (offersProcessed_counts_inserted_offers
              EndToEnd.env EndToEnd.store_casinos EndToEnd.store_offers)
    as (added & H1 & _ & _ & H4).
  exists added. split; [exact H1 |]. apply H4. vm_compute. reflexivity.
Defined.

(** C10 as stated fails: when the store rejects the second of two
    insertions, one [ai-research] offer is in the store and the counter
    still shows none. *)
Lemma counter_lags_behind_insertions :
  Run.status (run StaleCounter.final) = failed
  /\ map (fun o => (Offer.offerName o, Offer.source o)) (offers StaleCounter.final)
     = [(Some "Welcome Bonus", "ai-research")]
  /\ Run.offersProcessed (run StaleCounter.final) = 0
  /\ Run.offersProcessed (run StaleCounter.final)
     <> length (offers StaleCounter.final).
Proof.
  split; [vm_compute; reflexivity |].
  split; [vm_compute; reflexivity |].
  split; [vm_compute; reflexivity |].
  vm_compute. discriminate.
Qed.

(** C4, as amended: when an exception [e] leaves the [try] block in the
    world [w1] and the two store writes of the [catch] block succeed, the
    run ends without an exception; the record has status [failed], a
    completion timestamp and cleared pointers, and its log is the log of
    [w1] followed by one entry with the message of [e]; no request is
    issued and no venue or offer is written after [w1], what the store held
    at the start is still there, and discovery was requested for a prefix
    of the enumeration only; the record's summary, missing-venue list and
    comparison list are not written. *)
Theorem failed_run_record E cs os w1 e :
  research_body E (start E cs os) = (w1, inl e) ->
  store_fault E (ops w1) = None ->
  store_fault E (S (ops w1)) = None ->
  snd (research_run E cs os) = inr tt
  /\ Run.status (run (fst (research_run E cs os))) = failed
  /\ Run.completedAt (run (fst (research_run E cs os))) = Some (now E (S (ops w1)))
  /\ Run.currentState (run (fst (research_run E cs os))) = None
  /\ Run.currentCasino (run (fst (research_run E cs os))) = None
  /\ Run.progressLog (run (fst (research_run E cs os)))
     = (Run.progressLog (run w1)
        ++ [stamp E (now E (ops w1)) ("âŒ Research failed: " ++ message e)])%list
  /\ calls (fst (research_run E cs os)) = calls w1
  /\ casinos (fst (research_run E cs os)) = casinos w1
  /\ offers (fst (research_run E cs os)) = offers w1
  /\ (exists l, casinos (fst (research_run E cs os)) = (cs ++ l)%list)
  /\ (exists l, offers (fst (research_run E cs os)) = (os ++ l)%list)
  /\ (exists k, discover_states (calls (fst (research_run E cs os)))
                = firstn k ["New Jersey"; "Michigan"; "Pennsylvania"; "West Virginia"])
  /\ Run.summary (run (fst (research_run E cs os))) = None
  /\ Run.missingCasinos (run (fst (research_run E cs os))) = []
  /\ Run.offerComparisons (run (fst (research_run E cs os))) = [].
Proof.
  intros Hbody Hf1 Hf2.
  pose proof (research_body_keeps E cs os _ (start_kept E cs os)) as Hk.
  pose proof (research_body_prefix E _ (start_discovered E cs os)) as Hp.
  unfold wp in Hk, Hp. rewrite Hbody in Hk, Hp.
  destruct Hk as (Hc & Ho & _ & _ & Hsum & Hmiss & Hcmp).
  destruct Hp as [Hpre _].
  unfold research_run, performResearch, try_catch. rewrite Hbody.
  rewrite (research_failed_run E e w1 Hf1 Hf2). cbn.
  repeat split; auto.
Qed.

Lemma failed_run_record_witness :
  Run.status (run PartialFailure.final) = failed
  /\ casinos PartialFailure.final = casinos PartialFailure.thrown
  /\ Run.summary (run PartialFailure.final) = None.
Proof.
  pose proof (failed_run_record PartialFailure.env [] [] PartialFailure.thrown
                (TypeError "Cannot read properties of undefined (reading 'toLowerCase')"))
    as H.
  assert (H1 : research_body PartialFailure.env (start PartialFailure.env [] [])
               = (PartialFailure.thrown,
                  inl (TypeError
                         "Cannot read properties of undefined (reading 'toLowerCase')")))
    by (vm_compute; reflexivity).
  assert (H2 : store_fault PartialFailure.env (ops PartialFailure.thrown) = None)
    by reflexivity.
  assert (H3 : store_fault PartialFailure.env (S (ops PartialFailure.thrown)) = None)
    by reflexivity.
  destruct (H H1 H2 H3) as (_ & Hs & _ & _ & _ & _ & _ & Hc & _ & _ & _ & _ & Hsum & _).
  exact (conj Hs (conj Hc Hsum)).
Defined.

(** C4 as stated fails twice.  A run that found a missing venue and then
    failed has no summary, so its record reflects nothing of what was
    computed; and when the store rejects the first write of the [catch]
    block the exception leaves [performResearch] and the record stays
    [in-progress]. *)
Lemma failed_run_has_no_summary :
  (Run.status (run PartialFailure.final) = failed
   /\ sum_missing (Vars.missingCasinos (vars PartialFailure.final)) = 1
   /\ Run.missingCasinos (run PartialFailure.final) = []
   /\ ~ summary_reflects_progress PartialFailure.final)
  /\ (snd (research_run Nameless.env_store_down [] []) = inl (MongoError "connection lost")
      /\ Run.status (run Nameless.final_store_down) = in_progress
      /\ Run.completedAt (run Nameless.final_store_down) = None).
Proof.
  split.
  - split; [vm_compute; reflexivity |].
    split; [vm_compute; reflexivity |].
    split; [vm_compute; reflexivity |].
    intros (s & Hs & _). vm_compute in Hs. discriminate.
  - split; [vm_compute; reflexivity |].
    split; vm_compute; reflexivity.
Qed.

(** ** Runs whose stages find nothing *)

Lemma quiet_requested cs c : quiet (requested cs c).
Proof. constructor; intros; unfold requested in *; cbn in *; assumption. Qed.

Lemma discover_failed E state w :
  stage_failed E (length (calls w)) (DiscoverPrompt state) ->
  discoverCasinosByState E state w = (record_call (DiscoverPrompt state) w, inr []).
Proof.
  unfold stage_failed, discoverCasinosByState, try_catch, bind, callClaudeAPI,
    parse_json, ret, throw.
  destruct (complete E (length (calls w)) (DiscoverPrompt state)) as [m | response];
    [reflexivity |].
  destruct (jsonMatch response) as [json |]; [| reflexivity].
  intros H. rewrite H. reflexivity.
Qed.

Lemma research_failed_stage E casinoName state w :
  stage_failed E (length (calls w)) (ResearchPrompt casinoName state) ->
  researchCasinoOffers E casinoName state w
  = (record_call (ResearchPrompt casinoName state) w, inr []).
Proof.
  unfold stage_failed, researchCasinoOffers, try_catch, bind, callClaudeAPI,
    parse_json, ret, throw.
  destruct (complete E (length (calls w)) (ResearchPrompt casinoName state))
    as [m | response]; [reflexivity |].
  destruct (jsonMatch response) as [json |]; [| reflexivity].
  intros H. rewrite H. reflexivity.
Qed.

Section Quietly.

Variable E : Env.
Variable cs : list Casino.t.

Hypothesis no_fault : no_store_fault E.
Hypothesis discover_nothing :
  forall state w, snd (discoverCasinosByState E state w) = inr [].
Hypothesis research_nothing :
  forall casinoName state w, snd (researchCasinoOffers E casinoName state w) = inr [].

Lemma never_faulted e : faulted E e -> False.
Proof. intros (n & m & H & _). rewrite no_fault in H. discriminate. Qed.

Ltac wp_calm H :=
  wp_then H; [| intros ? ? [_ ?]; eapply never_faulted; eassumption].

Lemma offer_step_quietly abbrev stateName casino c w :
  requested cs c w ->
  wp (offer_step E abbrev stateName casino)
     (fun _ => requested cs (c ++ [ResearchPrompt (Casino.name casino) stateName]))
     (fun _ _ => False) w.
Proof.
  intros HP. pose proof (quiet_requested cs) as HQ.
  unfold offer_step. repeat wp_step.
  wp_calm (update_keeps E (requested cs c)). intros _ w1 HP1.
  wp_calm (logProgress_keeps E (requested cs c)). intros _ w2 HP2.
  apply wp_bind. apply wp_research. intros l Hl.
  rewrite research_nothing in Hl. injection Hl as <-. cbv beta.
  set (c' := (c ++ [ResearchPrompt (Casino.name casino) stateName])%list).
  assert (HP3 : requested cs c' (record_call
                  (ResearchPrompt (Casino.name casino) stateName) w2)).
  { destruct HP2 as [H1 H2]. split; cbn; [rewrite H1; reflexivity | exact H2]. }
  wp_calm (logProgress_keeps E (requested cs c')). intros _ w3 HP4.
  wp_calm (Offer_find_keeps E (requested cs c')). intros currentOffers w4 [HP5 _].
  cbn. repeat wp_step.
  wp_use (update_keeps E (requested cs c'));
    [auto | intros ? ? [_ ?]; eapply never_faulted; eassumption].
Qed.

Lemma state_step_quietly entry c w :
  requested cs c w ->
  wp (state_step E entry)
     (fun _ => requested cs
        (c ++ DiscoverPrompt (snd entry)
           :: research_calls (snd entry)
                (filter (fun v => String.eqb (Casino.stateAbbreviation v) (fst entry))
                   cs)))
     (fun _ _ => False) w.
Proof.
  intros HP. pose proof (quiet_requested cs) as HQ.
  destruct entry as [abbrev stateName]. unfold state_step. cbn [fst snd].
  wp_calm (update_keeps E (requested cs c)). intros _ w1 HP1.
  wp_calm (logProgress_keeps E (requested cs c)). intros _ w2 HP2.
  wp_calm (logProgress_keeps E (requested cs c)). intros _ w3 HP3.
  apply wp_bind. apply wp_discover. intros l Hl.
  rewrite discover_nothing in Hl. injection Hl as <-. cbv beta.
  set (c' := (c ++ [DiscoverPrompt stateName])%list).
  assert (HP4 : requested cs c' (record_call (DiscoverPrompt stateName) w3)).
  { destruct HP3 as [H1 H2]. split; cbn; [rewrite H1; reflexivity | exact H2]. }
  wp_calm (logProgress_keeps E (requested cs c')). intros _ w4 HP5.
  wp_calm (Casino_find_keeps E (requested cs c')). intros existingCasinos w5 [HP6 _].
  cbn [for_of]. repeat wp_step.
  apply wp_mono with (Q := fun _ => requested cs c') (R := fun _ _ => False);
    [| | auto].
  { destruct (0 <? length (Vars.missing (vars (with_vars Vars.declare_missing w5)))).
    - repeat wp_step.
      wp_use (logProgress_keeps E (requested cs c'));
        [auto | intros ? ? [_ ?]; eapply never_faulted; eassumption].
    - wp_use (logProgress_keeps E (requested cs c'));
        [auto | intros ? ? [_ ?]; eapply never_faulted; eassumption]. }
  intros _ w6 HP7.
  wp_calm (Casino_find_keeps E (requested cs c')). intros allCasinos w7 [HP8 Hall].
  wp_calm (logProgress_keeps E (requested cs c')). intros _ w8 HP9.
  assert (Hall' : allCasinos
                  = filter (fun v => String.eqb (Casino.stateAbbreviation v) abbrev) cs).
  { rewrite Hall. destruct HP8 as [_ ->]. reflexivity. }
  apply wp_bind.
  apply wp_mono
    with (Q := fun _ => requested cs (c' ++ research_calls stateName allCasinos))
         (R := fun _ _ => False); [| | auto].
  { apply (wp_for_of_prefix Casino.t
             (fun pre => requested cs (c' ++ research_calls stateName pre))
             (fun _ _ => False) (offer_step E abbrev stateName) allCasinos [] w8).
    - unfold research_calls. simpl. rewrite app_nil_r. exact HP9.
    - intros pre x post w9 _ HP10.
      unfold research_calls. rewrite map_app, app_assoc. simpl.
      apply offer_step_quietly. exact HP10. }
  intros _ w9 HP10.
  wp_use (logProgress_keeps E
            (requested cs (c' ++ research_calls stateName allCasinos)));
    [| intros ? ? [_ ?]; eapply never_faulted; eassumption].
  intros _ w10 HP11. rewrite Hall' in HP11. unfold c' in HP11.
  rewrite <- app_assoc in HP11. exact HP11.
Qed.

Lemma research_quietly w :
  requested cs [] w ->
  wp (performResearch E)
     (fun _ w' => requested cs (all_calls cs) w'
                  /\ Run.status (run w') = completed)
     (fun _ _ => False) w.
Proof.
  intros HP. pose proof (quiet_requested cs) as HQ.
  unfold performResearch. apply wp_try_catch.
  apply wp_mono
    with (Q := fun _ w' => requested cs (all_calls cs) w'
                           /\ Run.status (run w') = completed)
         (R := fun _ _ => False); [| auto | intros e w' []].
  unfold research_body, ResearchRun_findById. repeat wp_step.
  wp_use (store_op_keeps E (requested cs []));
    [| intros ? ? [_ ?]; eapply never_faulted; eassumption].
  intros _ w1 HP1. repeat wp_step.
  wp_calm (logProgress_keeps E (requested cs [])). intros _ w2 HP2.
  apply wp_bind.
  apply wp_mono with (Q := fun _ => requested cs (all_calls cs))
                     (R := fun _ _ => False); [| | auto].
  { apply (wp_for_of_prefix (string * string)
             (fun pre => requested cs
                (flat_map (fun entry =>
                   DiscoverPrompt (snd entry)
                   :: research_calls (snd entry)
                        (filter (fun v =>
                           String.eqb (Casino.stateAbbreviation v) (fst entry)) cs))
                   pre))
             (fun _ _ => False) (state_step E) states [] w2 HP2).
    intros pre x post w3 _ HP3.
    rewrite flat_map_app. simpl. rewrite app_nil_r.
    apply state_step_quietly. exact HP3. }
  intros _ w3 HP3.
  wp_calm (logProgress_keeps E (requested cs (all_calls cs))). intros _ w4 HP4.
  repeat wp_step.
  wp_calm (logProgress_keeps E (requested cs (all_calls cs))). intros _ w5 HP5.
  wp_calm (logProgress_keeps E (requested cs (all_calls cs))). intros _ w6 HP6.
  unfold finalize, ResearchRun_findByIdAndUpdate, new_Date. repeat wp_step.
  apply wp_store_op; [intros _ | intros m Hm; rewrite no_fault in Hm; discriminate].
  repeat wp_step. split; [| reflexivity].
  destruct HP6 as [H1 H2]. split; cbn; assumption.
Qed.

End Quietly.

(** C3: a stage never throws; when the completion request rejects, the
    response has no [{...}] substring or the substring does not parse, it
    returns the empty list; and a run of a store without faults in which
    every stage call returns the empty list ends [completed] without an
    exception, after one discovery request per jurisdiction and one
    research request per stored venue. *)
Theorem stage_failures_are_absorbed :
  (forall E state w,
      (exists l, discoverCasinosByState E state w
                 = (record_call (DiscoverPrompt state) w, inr l))
      /\ (stage_failed E (length (calls w)) (DiscoverPrompt state) ->
          discoverCasinosByState E state w
          = (record_call (DiscoverPrompt state) w, inr [])))
  /\ (forall E casinoName state w,
      (exists l, researchCasinoOffers E casinoName state w
                 = (record_call (ResearchPrompt casinoName state) w, inr l))
      /\ (stage_failed E (length (calls w)) (ResearchPrompt casinoName state) ->
          researchCasinoOffers E casinoName state w
          = (record_call (ResearchPrompt casinoName state) w, inr [])))
  /\ (forall E cs os,
      no_store_fault E ->
      (forall state w, snd (discoverCasinosByState E state w) = inr []) ->
      (forall casinoName state w,
          snd (researchCasinoOffers E casinoName state w) = inr []) ->
      snd (research_run E cs os) = inr tt
      /\ Run.status (run (fst (research_run E cs os))) = completed
      /\ calls (fst (research_run E cs os)) = all_calls cs
      /\ casinos (fst (research_run E cs os)) = cs).
Proof.
  split; [| split].
  - intros E state w. split; [apply discover_returns | apply discover_failed].
  - intros E casinoName state w.
    split; [apply research_returns | apply research_failed_stage].
  - intros E cs os Hnf Hd Hr.
    assert (H0 : requested cs [] (start E cs os)) by (split; reflexivity).
    pose proof (wp_run E cs os _ _ (research_quietly E cs Hnf Hd Hr _ H0)) as H.
    cbv beta in H.
    destruct (snd (research_run E cs os)) as [e | []]; [elim H |].
    destruct H as [[H1 H2] H3]. repeat split; assumption.
Qed.

Lemma stage_failures_are_absorbed_witness :
  discoverCasinosByState Outage.env "New Jersey" (start Outage.env [] [])
  = (record_call (DiscoverPrompt "New Jersey") (start Outage.env [] []), inr [])
  /\ researchCasinoOffers Outage.env "Acme Casino" "New Jersey" (start Outage.env [] [])
     = (record_call (ResearchPrompt "Acme Casino" "New Jersey")
          (start Outage.env [] []), inr [])
  /\ Run.status (run Outage.final) = completed
  /\ calls Outage.final
     = [DiscoverPrompt "New Jersey"; ResearchPrompt "Acme Casino" "New Jersey";
        DiscoverPrompt "Michigan"; ResearchPrompt "Lakeside Casino" "Michigan";
        DiscoverPrompt "Pennsylvania"; DiscoverPrompt "West Virginia"].
Proof.
  destruct stage_failures_are_absorbed as (Hd & Hr & Hrun).
  split; [| split].
  - apply (proj2 (Hd Outage.env "New Jersey" (start Outage.env [] []))).
    simpl. exact I.
  - apply (proj2 (Hr Outage.env "Acme Casino" "New Jersey" (start Outage.env [] []))).
    simpl. exact I.
  - assert (H1 : no_store_fault Outage.env) by (intros n; reflexivity).
    assert (H2 : forall state w,
               snd (discoverCasinosByState Outage.env state w) = inr [])
      by (intros state w; reflexivity).
    assert (H3 : forall casinoName state w,
               snd (researchCasinoOffers Outage.env casinoName state w) = inr [])
      by (intros casinoName state w; reflexivity).
    destruct (Hrun Outage.env Outage.store_casinos [] H1 H2 H3) as (_ & Hs & Hc & _).
    split; [exact Hs | exact Hc].
Defined.

(** ** Offer matching *)

Lemma prefix_spec t s : String.prefix t s = true <-> exists post, s = t ++ post.
Proof.
  revert s. induction t as [| a t IH]; intros s; simpl.
  - destruct s; split; eauto.
  - destruct s as [| b s]; simpl.
    + split; [discriminate | intros [post H]; discriminate].
    + destruct (ascii_dec a b) as [-> | Hne].
      * rewrite IH. split; intros [post H]; exists post.
        -- rewrite H. reflexivity.
        -- injection H as H. exact H.
      * split; [discriminate |]. intros [post H]. injection H as H1 H2.
        elim Hne. symmetry. exact H1.
Qed.

Lemma includes_spec s t : JS.includes s t = true <-> substring t s.
Proof.
  unfold substring. induction s as [| a s IH]; cbn [JS.includes].
  - rewrite orb_false_r, prefix_spec. split.
    + intros [post H]. exists "", post. exact H.
    + intros (pre & post & H). destruct pre; simpl in H; [eauto | discriminate].
  - rewrite orb_true_iff, prefix_spec, IH. split.
    + intros [[post H] | (pre & post & H)].
      * exists "", post. exact H.
      * exists (String a pre), post. simpl. rewrite H. reflexivity.
    + intros (pre & post & H). destruct pre as [| b pre]; simpl in H.
      * left. eauto.
      * right. injection H as _ H. eauto.
Qed.

Section Matching.

Variable toLowerCase : string -> string.

Lemma nameMatch_spec c d :
  Filter.nameMatch toLowerCase c d = true <-> known_by_name toLowerCase c d.
Proof.
  unfold Filter.nameMatch, Filter.chain_includes, known_by_name.
  destruct (Offer.offerName c) as [cn |], (DOffer.offerName d) as [dn |];
    cbn [option_map JS.ToString].
  - rewrite orb_true_iff, !includes_spec. tauto.
  - rewrite orb_false_r. apply includes_spec.
  - cbn [orb]. apply includes_spec.
  - split; [discriminate | intros []].
Qed.

Lemma typeMatch_spec c d :
  Filter.typeMatch toLowerCase c d = true <-> same_type toLowerCase c d.
Proof.
  unfold Filter.typeMatch, same_type, Filter.opt_string_eqb.
  destruct (option_map toLowerCase (Offer.offerType c)) as [x |],
           (option_map toLowerCase (DOffer.offerType d)) as [y |];
    try (split; [discriminate | intros H; discriminate]).
  - rewrite String.eqb_eq. split; [intros -> | intros [= ->]]; reflexivity.
  - split; reflexivity.
Qed.

Lemma offerMatches_spec c d :
  Filter.offerMatches toLowerCase d c = true
  <-> known_by_name toLowerCase c d
      \/ (same_type toLowerCase c d /\ PrimFloat.ltb (bonus_gap c d) 50%float = true).
Proof.
  unfold Filter.offerMatches.
  rewrite orb_true_iff, andb_true_iff, nameMatch_spec, typeMatch_spec.
  reflexivity.
Qed.

Lemma exists_spec current d :
  Filter.exists_ toLowerCase current d = true <-> already_known toLowerCase current d.
Proof.
  unfold Filter.exists_, already_known. rewrite existsb_exists.
  split; intros (c & Hin & H); exists c; (split; [exact Hin |]);
    apply offerMatches_spec; exact H.
Qed.

End Matching.

(** C1, as amended: whatever [toLowerCase] does to a text, a discovered
    offer is classified as already known exactly when some reference offer
    of the venue matches it by name or by type and amount, and it is kept
    as new exactly when none does.  By name: one of the two names, in
    lower case, contains the other, the name of an offer that has none
    being searched for as the text [undefined].  By type and amount: the
    types in lower case are the same, two absent types being the same, and
    the difference of the bonus amounts, computed on numbers with an
    absent, zero or not-a-number amount counting as 0, is less than 50 in
    absolute value.  With equal types a difference of 40 makes the offer
    known; a difference of 60 does not, so that the offer is new unless
    the names match. *)
Theorem offer_known_iff_name_or_type_and_amount
        (toLowerCase : string -> string) current discovered d :
  (Filter.exists_ toLowerCase current d = true
   <-> already_known toLowerCase current d)
  /\ (In d (Filter.newOffers toLowerCase current discovered)
      <-> In d discovered /\ ~ already_known toLowerCase current d)
  /\ (forall c, In c current -> same_type toLowerCase c d ->
        bonus_gap c d = 40%float ->
        Filter.exists_ toLowerCase current d = true)
  /\ (forall c, current = [c] -> same_type toLowerCase c d ->
        bonus_gap c d = 60%float ->
        ~ known_by_name toLowerCase c d ->
        Filter.exists_ toLowerCase current d = false
        /\ (In d discovered ->
            In d (Filter.newOffers toLowerCase current discovered))).
Proof.
  pose proof (exists_spec toLowerCase current d) as Hiff.
  assert (Hnew : In d (Filter.newOffers toLowerCase current discovered)
                 <-> In d discovered /\ ~ already_known toLowerCase current d).
  { unfold Filter.newOffers. rewrite filter_In, negb_true_iff, <- Hiff.
    destruct (Filter.exists_ toLowerCase current d); intuition congruence. }
  split; [exact Hiff | split; [exact Hnew | split]].
  - intros c Hin Ht Hg. apply Hiff. exists c. split; [exact Hin |].
    right. split; [exact Ht | rewrite Hg; reflexivity].
  - intros c -> Ht Hg Hn.
    assert (Hno : ~ already_known toLowerCase [c] d).
    { intros (c' & [<- | []] & [H | [_ H]]); [exact (Hn H) |].
      rewrite Hg in H. discriminate H. }
    split.
    + destruct (Filter.exists_ toLowerCase [c] d) eqn:He; [| reflexivity].
      elim Hno. apply Hiff. reflexivity.
    + intros Hin. apply Hnew. split; assumption.
Qed.

Lemma offer_known_iff_name_or_type_and_amount_witness :
  Reconcile.exists_
    [reference_offer "Acme Casino" "NJ" "New Jersey" "Welcome Bonus" "welcome" 100]
    (dOffer "Sign-Up Offer" "Welcome" 140) = true
  /\ Reconcile.exists_
       [reference_offer "Acme Casino" "NJ" "New Jersey" "Welcome Bonus" "welcome" 100]
       (dOffer "Sign-Up Offer" "Welcome" 160) = false
  /\ Reconcile.exists_
       [reference_offer "Acme Casino" "NJ" "New Jersey" "Welcome Bonus" "welcome" 100]
       (DOffer.mk (Some "Sign-Up Offer") (Some "Welcome") None (Some 62.5%float)
          None None) = true.
Proof.
  split; [| split].
  - refine (proj1 (proj2 (proj2
      (offer_known_iff_name_or_type_and_amount JS.toLowerCase
         [reference_offer "Acme Casino" "NJ" "New Jersey" "Welcome Bonus" "welcome" 100]
         [] (dOffer "Sign-Up Offer" "Welcome" 140)))) _ _ _ _).
    + left. reflexivity.
    + reflexivity.
    + reflexivity.
  - refine (proj1 (proj2 (proj2 (proj2
      (offer_known_iff_name_or_type_and_amount JS.toLowerCase
         [reference_offer "Acme Casino" "NJ" "New Jersey" "Welcome Bonus" "welcome" 100]
         [] (dOffer "Sign-Up Offer" "Welcome" 160)))) _ _ _ _ _)).
    + reflexivity.
    + reflexivity.
    + reflexivity.
    + unfold known_by_name. simpl.
      rewrite <- !includes_spec. simpl. intros [H | H]; discriminate.
  - apply (proj1 (offer_known_iff_name_or_type_and_amount JS.toLowerCase
             [reference_offer "Acme Casino" "NJ" "New Jersey" "Welcome Bonus"
                "welcome" 100]
             [] (DOffer.mk (Some "Sign-Up Offer") (Some "Welcome") None
                   (Some 62.5%float) None None))).
    eexists. split; [left; reflexivity |].
    right. split; reflexivity.
Defined.

(** C1 as stated fails for an offer without a name.  The discovered offer
    has no name, so that no name is a substring of the other, and its type
    is not the type of the reference offer [Undefined Jackpot]; yet it is
    classified as already known and dropped, because the absent name is
    searched for as the text [undefined]. *)
Lemma unnamed_offer_is_known_by_the_text_undefined :
  DOffer.offerName Unnamed.found = None
  /\ ~ same_type JS.toLowerCase Unnamed.stored Unnamed.found
  /\ Reconcile.exists_ [Unnamed.stored] Unnamed.found = true
  /\ Reconcile.newOffers [Unnamed.stored] [Unnamed.found] = [].
Proof.
  split; [reflexivity | split; [| split; reflexivity]].
  unfold same_type. simpl. discriminate.
Qed.

(** ** Venue matching on concrete inputs *)

(** C2 at its own example: the stored venue [Golden Nugget] and the
    candidate with the same name in lower case between blanks have the same
    identity key, yet neither branch of the query matches, so that the
    candidate is reported as missing and stored as a new venue. *)
Theorem golden_nugget_candidate_is_reported_missing :
  map identity_key GoldenNugget.store_casinos
  = [(JS.trim (JS.toLowerCase GoldenNugget.candidate), "NJ")]
  /\ (exists matches,
        new_RegExp GoldenNugget.env ("^" ++ GoldenNugget.candidate ++ "$") = inr matches
        /\ List.find
             (venue_query matches (JS.trim (JS.toLowerCase GoldenNugget.candidate)) "NJ")
             GoldenNugget.store_casinos = None)
  /\ Run.missingCasinos (run GoldenNugget.final)
     = [MissingEntry.mk "New Jersey" [GoldenNugget.candidate]]
  /\ map Casino.name (casinos GoldenNugget.final)
     = ["Golden Nugget"; GoldenNugget.candidate].
Proof.
  split; [vm_compute; reflexivity |].
  split; [| split; vm_compute; reflexivity].
  eexists. split; [vm_compute; reflexivity |]. vm_compute. reflexivity.
Qed.

(** C6 on the run of [GoldenNugget], whose initial store has no two venues
    with the same identity key: the run ends [completed] and leaves two
    stored venues with one identity key. *)
Theorem completed_run_leaves_duplicate_identity_key :
  NoDup (map identity_key GoldenNugget.store_casinos)
  /\ Run.status (run GoldenNugget.final) = completed
  /\ map identity_key (casinos GoldenNugget.final)
     = [("golden nugget", "NJ"); ("golden nugget", "NJ")]
  /\ ~ NoDup (map identity_key (casinos GoldenNugget.final)).
Proof.
  split; [vm_compute; repeat constructor; intros [] |].
  split; [vm_compute; reflexivity |].
  split; [vm_compute; reflexivity |].
  assert (H : map identity_key (casinos GoldenNugget.final)
              = [("golden nugget", "NJ"); ("golden nugget", "NJ")])
    by (vm_compute; reflexivity).
  rewrite H. intros Hn. inversion Hn as [| x l Hin _]. apply Hin. left. reflexivity.
Qed.

(** C9: a discovery response that parses, with a venue object that has
    no name or whose name is not a valid pattern, makes the venue step
    throw; the exception is not caught before the [catch] block of
    [performResearch], and the run ends [failed]. *)
Theorem malformed_candidate_fails_the_run :
  (snd (discoverCasinosByState Nameless.env "New Jersey" (start Nameless.env [] []))
   = inr [nameless]
   /\ DCasino.name nameless = None
   /\ (forall w, venue_step Nameless.env "NJ" "New Jersey" nameless w
                 = (w, inl (TypeError
                      "Cannot read properties of undefined (reading 'toLowerCase')")))
   /\ snd (research_body Nameless.env (start Nameless.env [] []))
      = inl (TypeError "Cannot read properties of undefined (reading 'toLowerCase')")
   /\ Run.status (run Nameless.final) = failed)
  /\ (snd (discoverCasinosByState BadPattern.env "New Jersey" (start BadPattern.env [] []))
      = inr [DCasino.mk (Some BadPattern.candidate) None None None]
      /\ RegExp.parse ("^" ++ BadPattern.candidate ++ "$")
         = RegExp.Invalid "Unterminated group"
      /\ (forall w, venue_step BadPattern.env "NJ" "New Jersey"
                      (DCasino.mk (Some BadPattern.candidate) None None None) w
                    = (w, inl (SyntaxError
                         "Invalid regular expression: /^Bally's (Atlantic City$/i: Unterminated group")))
      /\ snd (research_body BadPattern.env (start BadPattern.env [] []))
         = inl (SyntaxError
                  "Invalid regular expression: /^Bally's (Atlantic City$/i: Unterminated group")
      /\ Run.status (run BadPattern.final) = failed).
Proof.
  split.
  - split; [vm_compute; reflexivity |].
    split; [reflexivity |].
    split; [intros w; reflexivity |].
    split; vm_compute; reflexivity.
  - split; [vm_compute; reflexivity |].
    split; [vm_compute; reflexivity |].
    split; [intros w; reflexivity |].
    split; vm_compute; reflexivity.
Qed.

(** C8: the end-to-end scenario ends [completed] with one missing venue,
    [Beta Casino] under New Jersey, one comparison entry, for
    [Beta Casino], with one new offer, one inserted offer, of
    [Beta Casino], and both totals equal to 1. *)
Theorem end_to_end_scenario :
  snd (research_run EndToEnd.env EndToEnd.store_casinos EndToEnd.store_offers) = inr tt
  /\ Run.status (run EndToEnd.final) = completed
  /\ Run.missingCasinos (run EndToEnd.final)
     = [MissingEntry.mk "New Jersey" ["Beta Casino"]]
  /\ map (fun c => (Comparison.casinoName c,
                    map OfferSummary.name (Comparison.newOffers c)))
         (Run.offerComparisons (run EndToEnd.final))
     = [("Beta Casino", [Some "Sign-Up Bonus"])]
  /\ map (fun o => (Offer.casinoName o, Offer.offerName o, Offer.source o))
         (offers EndToEnd.final)
     = [("Acme Casino", Some "Welcome Bonus", "internal-api");
        ("Beta Casino", Some "Sign-Up Bonus", "ai-research")]
  /\ Run.summary (run EndToEnd.final)
     = Some (Summary.mk 1 1 ["New Jersey"; "Michigan"; "Pennsylvania"; "West Virginia"]).
Proof.
  repeat split; vm_compute; reflexivity.
Qed.

(** ** The pattern of a name without syntax characters *)

Lemma quantifier_plain r c rest :
  RegExp.is_syntax_char c = false \/ c = "$"%char ->
  RegExp.quantifier r (String c rest) = RegExp.Ok (r, String c rest).
Proof.
  intros [H | ->]; [| reflexivity].
  destruct c as [[] [] [] [] [] [] [] []]; try discriminate H; reflexivity.
Qed.

Lemma term_plain f c rest :
  RegExp.is_syntax_char c = false ->
  RegExp.term (S f) (String c rest) = RegExp.quantifier (RegExp.Char c) rest.
Proof.
  intros H.
  destruct c as [[] [] [] [] [] [] [] []]; try discriminate H; reflexivity.
Qed.

Lemma alternative_plain f c rest :
  RegExp.is_syntax_char c = false ->
  RegExp.alternative (S f) (String c rest)
  = RegExp.bind (RegExp.term f (String c rest)) (fun '(r1, rest1) =>
      RegExp.bind (RegExp.alternative f rest1) (fun '(r2, rest2) =>
        RegExp.Ok (RegExp.Seq r1 r2, rest2))).
Proof.
  intros H.
  destruct c as [[] [] [] [] [] [] [] []]; try discriminate H; reflexivity.
Qed.

Lemma alternative_name s :
  plain s = true ->
  forall f, String.length s + 2 <= f ->
  RegExp.alternative f (s ++ "$")
  = RegExp.Ok (chars_then s (RegExp.Seq RegExp.Eol RegExp.Empty), "").
Proof.
  induction s as [| c s IH]; intros Hp f Hf.
  - destruct f as [| [| f]]; simpl in Hf; try lia. reflexivity.
  - simpl in Hp. apply andb_true_iff in Hp. destruct Hp as [Hc Hs].
    apply negb_true_iff in Hc.
    destruct f as [| [| f]]; simpl in Hf; try lia.
    change (String c s ++ "$") with (String c (s ++ "$")).
    rewrite alternative_plain by exact Hc.
    rewrite term_plain by exact Hc.
    assert (Hq : RegExp.quantifier (RegExp.Char c) (s ++ "$")
                 = RegExp.Ok (RegExp.Char c, s ++ "$")).
    { destruct s as [| c' s']; [reflexivity |].
      change (String c' s' ++ "$") with (String c' (s' ++ "$")).
      apply quantifier_plain. left.
      simpl in Hs. apply andb_true_iff in Hs. destruct Hs as [Hc' _].
      apply negb_true_iff in Hc'. exact Hc'. }
    rewrite Hq. cbn [RegExp.bind].
    rewrite (IH Hs (S f)) by (simpl; lia). reflexivity.
Qed.

Lemma length_append s t :
  String.length (s ++ t) = String.length s + String.length t.
Proof. induction s as [| c s IH]; simpl; [| rewrite IH]; reflexivity. Qed.

Lemma alternative_caret f rest :
  RegExp.alternative (S (S f)) (String "^" rest)
  = RegExp.bind (RegExp.alternative (S f) rest) (fun '(r2, rest') =>
      RegExp.Ok (RegExp.Seq RegExp.Bol r2, rest')).
Proof. reflexivity. Qed.

Lemma disjunction_alternative f s r :
  RegExp.alternative f s = RegExp.Ok (r, "") ->
  RegExp.disjunction (S f) s = RegExp.Ok (r, "").
Proof. intros H. cbn [RegExp.disjunction]. rewrite H. reflexivity. Qed.

Lemma parse_name s :
  plain s = true ->
  RegExp.parse ("^" ++ s ++ "$")
  = RegExp.Ok (RegExp.Seq RegExp.Bol
                 (chars_then s (RegExp.Seq RegExp.Eol RegExp.Empty))).
Proof.
  intros Hp. unfold RegExp.parse.
  remember (4 * String.length ("^" ++ s ++ "$") + 4) as fuel eqn:Hfuel.
  assert (Hlen : String.length s + 4 <= fuel).
  { rewrite Hfuel. change ("^" ++ s ++ "$") with (String "^" (s ++ "$")).
    simpl. rewrite length_append. simpl. lia. }
  destruct fuel as [| [| [| f]]]; try lia.
  change ("^" ++ s ++ "$") with (String "^" (s ++ "$")).
  rewrite (disjunction_alternative (S (S f)) (String "^" (s ++ "$"))
             (RegExp.Seq RegExp.Bol
                (chars_then s (RegExp.Seq RegExp.Eol RegExp.Empty))));
    [reflexivity |].
  rewrite alternative_caret.
  rewrite (alternative_name s Hp (S f)) by lia. reflexivity.
Qed.

Lemma rmatch_name s :
  forall i t,
    RegExp.rmatch (chars_then s (RegExp.Seq RegExp.Eol RegExp.Empty)) i t
                  (fun _ _ => true) = true
    <-> JS.toLowerCase t = JS.toLowerCase s.
Proof.
  induction s as [| c s IH]; intros i t.
  - destruct t; simpl; split; congruence.
  - destruct t as [| a t]; [simpl; split; discriminate |].
    cbn [chars_then RegExp.rmatch JS.toLowerCase].
    destruct (Ascii.eqb_spec (JS.lower_char a) (JS.lower_char c)) as [Heq | Hne].
    + rewrite (IH (S i) t), Heq. split; [intros -> | intros [= ->]]; reflexivity.
    + split; [discriminate | intros [= H _]; elim (Hne H)].
Qed.

Lemma search_later r :
  forall t i, RegExp.search (RegExp.Seq RegExp.Bol r) (S i) t = false.
Proof.
  induction t as [| a t IH]; intros i; simpl; [reflexivity | apply IH].
Qed.

Lemma test_name s t :
  RegExp.test (RegExp.Seq RegExp.Bol
                 (chars_then s (RegExp.Seq RegExp.Eol RegExp.Empty))) t = true
  <-> JS.toLowerCase t = JS.toLowerCase s.
Proof.
  unfold RegExp.test.
  assert (H : RegExp.search
                (RegExp.Seq RegExp.Bol
                   (chars_then s (RegExp.Seq RegExp.Eol RegExp.Empty))) 0 t
              = RegExp.rmatch (chars_then s (RegExp.Seq RegExp.Eol RegExp.Empty)) 0 t
                  (fun _ _ => true)).
  { destruct t as [| a t]; cbn [RegExp.search RegExp.rmatch Nat.eqb].
    - apply orb_false_r.
    - rewrite search_later. apply orb_false_r. }
  rewrite H. apply rmatch_name.
Qed.

(** Rule (a) of offer matching on the names [Welcome Bonus] and
    [New Player Welcome Bonus Package]: each offer is known when the
    other is the reference offer, whatever their types and amounts. *)
Theorem name_rule_matches_in_both_directions :
  Reconcile.exists_
    [reference_offer "Acme Casino" "NJ" "New Jersey" "Welcome Bonus" "welcome" 100]
    (dOffer "New Player Welcome Bonus Package" "reload" 900) = true
  /\ Reconcile.exists_
       [reference_offer "Acme Casino" "NJ" "New Jersey"
          "New Player Welcome Bonus Package" "welcome" 100]
       (dOffer "welcome bonus" "reload" 900) = true.
Proof. split; reflexivity. Qed.

(** * Further properties *)

Ltac hush :=
  intros;
  repeat first
    [ assumption
    | match goal with
      | |- ?P _ =>
          let HQ := fresh "HQ" in
          assert (HQ : hushed P) by auto;
          first
            [ apply (hushed_tick HQ)
            | apply (hushed_run_log HQ)
            | apply (hushed_vars_log HQ) ];
          clear HQ
      end ].

Ltac wp_seq :=
  lazymatch goal with
  | |- wp (bind _ _) _ _ _ => apply wp_bind
  | |- _ => idtac
  end.

(** Run [m], for which [H] is a specification with exceptional branch
    [P w' /\ faulted E e], then go on. *)
Ltac wp_next H :=
  wp_seq;
  eapply wp_mono;
  [ eapply H; solve [auto | hush]
  | cbv beta
  | cbv beta; try solve [intros ? ? [? ?]; eauto] ].

Section Steps.

Variable E : Env.

Lemma store_op_hushed P w :
  hushed P -> P w ->
  wp (store_op E) (fun _ => P) (fun e w' => P w' /\ faulted E e) w.
Proof.
  intros HQ HP. apply wp_store_op.
  - intros _. hush.
  - intros m Hm. split; [hush | eapply faulted_intro; eauto].
Qed.

Lemma logProgress_hushed P message w :
  hushed P -> P w ->
  wp (logProgress E message) (fun _ => P) (fun e w' => P w' /\ faulted E e) w.
Proof.
  intros HQ HP. unfold logProgress, ResearchRun_findByIdAndUpdate, new_Date.
  repeat wp_step.
  eapply wp_mono; [apply (store_op_hushed P); [auto | hush] | cbv beta | cbv beta; auto].
  intros _ w' HP'. repeat wp_step. hush.
Qed.

Lemma update_hushed P P' update w :
  hushed P -> (forall w', P w' -> P' (with_run update w')) -> P w ->
  wp (ResearchRun_findByIdAndUpdate E update) (fun _ => P')
     (fun e w' => P w' /\ faulted E e) w.
Proof.
  intros HQ HU HP. unfold ResearchRun_findByIdAndUpdate. wp_step.
  eapply wp_mono; [apply (store_op_hushed P); auto | cbv beta | cbv beta; auto].
  intros _ w' HP'. repeat wp_step. auto.
Qed.

Lemma Casino_find_hushed P filter w :
  hushed P -> P w ->
  wp (Casino_find E filter)
     (fun l w' => P w' /\ l = List.filter filter (casinos w'))
     (fun e w' => P w' /\ faulted E e) w.
Proof.
  intros HQ HP. unfold Casino_find. wp_step.
  eapply wp_mono; [apply (store_op_hushed P); auto | cbv beta | cbv beta; auto].
  intros _ w' HP'. repeat wp_step. auto.
Qed.

Lemma Casino_findOne_hushed P filter w :
  hushed P -> P w ->
  wp (Casino_findOne E filter)
     (fun r w' => P w' /\ r = List.find filter (casinos w'))
     (fun e w' => P w' /\ faulted E e) w.
Proof.
  intros HQ HP. unfold Casino_findOne. wp_step.
  eapply wp_mono; [apply (store_op_hushed P); auto | cbv beta | cbv beta; auto].
  intros _ w' HP'. repeat wp_step. auto.
Qed.

Lemma Offer_find_hushed P filter w :
  hushed P -> P w ->
  wp (Offer_find E filter)
     (fun l w' => P w' /\ l = List.filter filter (offers w'))
     (fun e w' => P w' /\ faulted E e) w.
Proof.
  intros HQ HP. unfold Offer_find. wp_step.
  eapply wp_mono; [apply (store_op_hushed P); auto | cbv beta | cbv beta; auto].
  intros _ w' HP'. repeat wp_step. auto.
Qed.

(** One venue of a discovery response: [P] holds between venues, [Mid n]
    after the name [n] was pushed on [missing] and before the venue is
    created; [Rx e] holds when the step throws [e]. *)
Lemma venue_step_spec (P : World -> Prop) (Mid : string -> World -> Prop)
      (Rx : Exn -> World -> Prop) abbrev stateName casino w :
  hushed P -> (forall n, hushed (Mid n)) ->
  (forall e w', faulted E e -> P w' -> Rx e w') ->
  (forall n e w', faulted E e -> Mid n w' -> Rx e w') ->
  (forall w', DCasino.name casino = None -> P w' ->
      Rx (TypeError "Cannot read properties of undefined (reading 'toLowerCase')") w') ->
  (forall name m w', DCasino.name casino = Some name ->
      new_RegExp E ("^" ++ name ++ "$") = inl m -> P w' -> Rx (SyntaxError m) w') ->
  (forall name matches w',
      DCasino.name casino = Some name ->
      new_RegExp E ("^" ++ name ++ "$") = inr matches ->
      P w' ->
      List.find (venue_query matches (JS.trim (JS.toLowerCase name)) abbrev)
                (casinos w') = None ->
      Mid name (with_vars (Vars.push_missing name) w')) ->
  (forall name id createdAt lastUpdated w',
      DCasino.name casino = Some name -> Mid name w' ->
      P (with_casinos
           (fun l => l ++ [Casino.mk id name stateName abbrev
                             (DCasino.website casino) (DCasino.licenseNumber casino)
                             None true createdAt lastUpdated])%list w')) ->
  P w ->
  wp (venue_step E abbrev stateName casino) (fun _ => P) Rx w.
Proof.
  intros HQ HQM HPR HMR Hnone Hbad Hpush Hcreate HP. unfold venue_step. wp_unfold.
  apply wp_bind. destruct (DCasino.name casino) as [name |] eqn:Hname;
    [| apply wp_throw; auto].
  apply wp_ret. cbv beta zeta.
  apply wp_bind. destruct (new_RegExp E ("^" ++ name ++ "$")) as [m | matches] eqn:Hre;
    [apply wp_throw; eauto |].
  apply wp_ret. cbv beta.
  wp_next (Casino_findOne_hushed P).
  intros r w1 [HP1 Hr]. destruct r as [c |]; [apply wp_ret; auto |].
  repeat wp_step. unfold Casino_create. repeat wp_step.
  assert (HM : Mid name (with_vars (Vars.push_missing name) w1)).
  { apply (Hpush name matches); auto. }
  wp_next (store_op_hushed (Mid name)).
  intros _ w2 HM2. repeat wp_step.
  eapply wp_mono; [apply (logProgress_hushed P); [auto |] | cbv beta; auto
                  | cbv beta; intros ? ? [? ?]; eauto].
  apply Hcreate; auto.
Qed.

(** One venue of the offer loop.  [P] holds before it and [Q] after it,
    [C] after the venue was counted, [D] after the record's counter was
    written, [F l] after the research request, which returned [l],
    [Mid l pre] while the new offers [l] are stored ([pre] are stored
    already) and [Aft] before the record's offer counter is written. *)
Lemma offer_step_spec (P C D : World -> Prop) (F : list DOffer.t -> World -> Prop)
      (Mid : list DOffer.t -> list DOffer.t -> World -> Prop)
      (Aft Q : World -> Prop) (Rx : Exn -> World -> Prop)
      abbrev stateName casino w :
  hushed C -> hushed D -> (forall l, hushed (F l)) ->
  (forall l pre, hushed (Mid l pre)) -> hushed Aft ->
  (forall e w', faulted E e -> C w' -> Rx e w') ->
  (forall e w', faulted E e -> D w' -> Rx e w') ->
  (forall l e w', faulted E e -> F l w' -> Rx e w') ->
  (forall l pre e w', faulted E e -> Mid l pre w' -> Rx e w') ->
  (forall e w', faulted E e -> Aft w' -> Rx e w') ->
  (forall w', P w' -> C (with_vars Vars.incr_casinos w')) ->
  (forall w', C w' ->
      D (with_run (Run.set_casino (Casino.name casino)
                     (Vars.totalCasinosProcessed (vars w'))) w')) ->
  (forall l w', D w' ->
      snd (researchCasinoOffers E (Casino.name casino) stateName w') = inr l ->
      F l (record_call (ResearchPrompt (Casino.name casino) stateName) w')) ->
  (forall l w', F l w' ->
      Reconcile.newOffers
        (filter (reference_offers_of (Casino.name casino) abbrev) (offers w')) l = [] ->
      Aft w') ->
  (forall l new w', F l w' ->
      new = Reconcile.newOffers
              (filter (reference_offers_of (Casino.name casino) abbrev) (offers w')) l ->
      new <> [] ->
      Mid new [] (with_vars (Vars.add_offers (length new)) w')) ->
  (forall new pre x post o w', new = (pre ++ x :: post)%list -> Mid new pre w' ->
      stored_for abbrev stateName casino x o ->
      Mid new (pre ++ [x])%list (with_offers (fun l => l ++ [o])%list w')) ->
  (forall new c w', Mid new new w' -> new <> [] ->
      length (Comparison.newOffers c) = length new ->
      Aft (with_vars (Vars.push_offerComparisons c) w')) ->
  (forall w', Aft w' ->
      Q (with_run (Run.set_offersProcessed (Vars.totalOffersProcessed (vars w'))) w')) ->
  P w ->
  wp (offer_step E abbrev stateName casino) (fun _ => Q) Rx w.
Proof.
  intros HQC HQD HQF HQM HQA HCR HDR HFR HMR HAR Hincr Hset Hcall HFA Hadd Hstore
    Hpush Hfin HP.
  unfold offer_step.
  repeat wp_step.
  unfold ResearchRun_findByIdAndUpdate at 1. repeat wp_step.
  apply wp_store_op;
    [intros _ | intros m Hm; apply HCR; [eapply faulted_intro; eauto | hush; auto]].
  repeat wp_step.
  assert (HD1 : D (with_run
                     (Run.set_casino (Casino.name casino)
                        (Vars.totalCasinosProcessed (vars (with_vars Vars.incr_casinos w))))
                     (tick (with_vars Vars.incr_casinos w)))).
  { apply (Hset (tick (with_vars Vars.incr_casinos w))). hush. auto. }
  revert HD1.
  generalize (with_run
                (Run.set_casino (Casino.name casino)
                   (Vars.totalCasinosProcessed (vars (with_vars Vars.incr_casinos w))))
                (tick (with_vars Vars.incr_casinos w))).
  intros w1 HD1.
  wp_next (logProgress_hushed D). intros _ w2 HD2.
  apply wp_bind. apply wp_research. intros discoveredOffers Hdisc. cbv beta.
  wp_next (logProgress_hushed (F discoveredOffers)). intros _ w3 HF3.
  wp_next (Offer_find_hushed (F discoveredOffers)).
  intros currentOffers w4 [HF4 Hcur]. cbv zeta.
  remember (Reconcile.newOffers currentOffers discoveredOffers) as newOffers eqn:Hnew.
  rewrite Hcur in Hnew.
  apply wp_bind.
  apply wp_mono with (Q := fun _ => Aft) (R := Rx); [| | auto].
  - destruct (0 <? length newOffers) eqn:Hlen.
    2:{ apply wp_ret. apply (HFA discoveredOffers); auto.
        rewrite <- Hnew. destruct newOffers; [reflexivity | discriminate]. }
    assert (Hne : newOffers <> []) by (intros ->; discriminate).
    repeat wp_step.
    assert (HM4 : Mid newOffers [] (with_vars (Vars.add_offers (length newOffers)) w4)).
    { apply (Hadd discoveredOffers); auto. }
    wp_next (logProgress_hushed (Mid newOffers [])).
    intros _ w5 HM5.
    apply wp_bind.
    apply wp_mono with (Q := fun _ => Mid newOffers newOffers)
                       (R := Rx); [| | auto].
    + apply (wp_for_of_prefix DOffer.t (Mid newOffers) Rx
               (store_offer E abbrev stateName casino) newOffers [] w5 HM5).
      intros pre x post w6 Heq HM6. simpl in Heq.
      unfold store_offer, Offer_create, new_Date. repeat wp_step.
      wp_next (store_op_hushed (Mid newOffers pre)).
      intros _ w7 HM7. repeat wp_step. apply (Hstore newOffers pre x post); auto.
      repeat split.
    + intros _ w6 HM6. repeat wp_step. apply Hpush with (new := newOffers); auto.
      simpl. rewrite length_map. reflexivity.
  - intros _ w5 HA5. repeat wp_step. unfold ResearchRun_findByIdAndUpdate. wp_step.
    apply wp_store_op;
      [intros _ | intros m Hm; apply HAR; [eapply faulted_intro; eauto | hush]].
    repeat wp_step. apply (Hfin (tick w5)). hush.
Qed.

(** One jurisdiction.  [P] holds before the discovery request, [Pd] after
    it, [V] in the venue loop, [P2] from the end of the venue loop to the
    offer loop, [L all pre] in the offer loop over the venues [all] after
    the venues [pre], and [Pe] after the offer loop. *)
Lemma state_step_spec (P Pd V P2 : World -> Prop)
      (L : list Casino.t -> list Casino.t -> World -> Prop) (Pe : World -> Prop)
      (Rx : Exn -> World -> Prop) entry w :
  hushed P -> hushed Pd -> hushed V -> hushed P2 ->
  (forall all pre, hushed (L all pre)) -> hushed Pe ->
  (forall e w', faulted E e -> P w' -> Rx e w') ->
  (forall e w', faulted E e -> Pd w' -> Rx e w') ->
  (forall e w', faulted E e -> V w' -> Rx e w') ->
  (forall e w', faulted E e -> P2 w' -> Rx e w') ->
  (forall all pre e w', faulted E e -> L all pre w' -> Rx e w') ->
  (forall e w', faulted E e -> Pe w' -> Rx e w') ->
  (forall w', P w' -> P (with_run (Run.set_state (snd entry)) w')) ->
  (forall w', P w' -> Pd (record_call (DiscoverPrompt (snd entry)) w')) ->
  (forall w', Pd w' -> V (with_vars Vars.declare_missing w')) ->
  (forall l w0 c w',
      snd (discoverCasinosByState E (snd entry) w0) = inr l -> In c l -> V w' ->
      wp (venue_step E (fst entry) (snd entry) c) (fun _ => V) Rx w') ->
  (forall w', V w' -> (0 <? length (Vars.missing (vars w'))) = true ->
      P2 (with_vars (Vars.push_missingCasinos (snd entry)) w')) ->
  (forall w', V w' -> (0 <? length (Vars.missing (vars w'))) = false -> P2 w') ->
  (forall w', P2 w' ->
      L (filter (fun c => String.eqb (Casino.stateAbbreviation c) (fst entry))
           (casinos w')) [] w') ->
  (forall all pre c post w', all = (pre ++ c :: post)%list -> L all pre w' ->
      wp (offer_step E (fst entry) (snd entry) c) (fun _ => L all (pre ++ [c])%list)
         Rx w') ->
  (forall all w', L all all w' -> Pe w') ->
  P w ->
  wp (state_step E entry) (fun _ => Pe) Rx w.
Proof.
  intros HQ HQd HQV HQ2 HQL HQe HPR HPdR HVR HP2R HLR HPeR Hstate Hcall Hdecl Hvenue
    Hsome Hnone Hall Hoffer Hend HP.
  destruct entry as [abbrev stateName]. simpl in *.
  unfold state_step.
  wp_seq.
  eapply wp_mono; [apply (update_hushed P P); [auto | apply Hstate | auto]
                  | cbv beta | cbv beta; try solve [intros ? ? [? ?]; eauto]].
  intros _ w1 HP1.
  wp_next (logProgress_hushed P). intros _ w2 HP2.
  wp_next (logProgress_hushed P). intros _ w3 HP3.
  apply wp_bind. apply wp_discover. intros discoveredCasinos Hdisc. cbv beta.
  wp_next (logProgress_hushed Pd). intros _ w4 HP4.
  wp_next (Casino_find_hushed Pd). intros existingCasinos w5 [HP5 _].
  repeat wp_step.
  apply wp_mono with (Q := fun _ => V) (R := Rx); [| | auto].
  { apply wp_for_of; auto. intros x w' Hin HV. apply (Hvenue discoveredCasinos w3); auto. }
  intros _ w6 HV6. repeat wp_step.
  apply wp_mono with (Q := fun _ => P2) (R := Rx); [| | auto].
  { destruct (0 <? length (Vars.missing (vars w6))) eqn:Hlen.
    - repeat wp_step.
      eapply wp_mono; [apply (logProgress_hushed P2); auto | cbv beta; auto
                      | cbv beta; try solve [intros ? ? [? ?]; eauto]].
    - eapply wp_mono; [apply (logProgress_hushed P2); auto | cbv beta; auto
                      | cbv beta; try solve [intros ? ? [? ?]; eauto]]. }
  intros _ w7 HP7.
  wp_next (Casino_find_hushed P2). intros allCasinos w8 [HP8 Hfind].
  assert (HL8 : L allCasinos [] w8) by (rewrite Hfind; apply Hall; exact HP8).
  wp_next (logProgress_hushed (L allCasinos [])). intros _ w9 HL9.
  apply wp_bind.
  apply wp_mono with (Q := fun _ => L allCasinos allCasinos) (R := Rx); [| | auto].
  { apply (wp_for_of_prefix Casino.t (L allCasinos) Rx (offer_step E abbrev stateName)
             allCasinos [] w9 HL9).
    intros pre c post w' Heq HL. simpl in Heq. apply (Hoffer allCasinos pre c post); auto. }
  intros _ w10 HL10.
  eapply wp_mono; [apply (logProgress_hushed Pe); eauto | cbv beta; auto
                  | cbv beta; try solve [intros ? ? [? ?]; eauto]].
Qed.

(** The [try] block, for an invariant [P0] before the variables are
    declared and [P pre] after the jurisdictions [pre]. *)
Lemma research_body_spec (P0 : World -> Prop)
      (P : list (string * string) -> World -> Prop) (Qf : World -> Prop)
      (Rx : Exn -> World -> Prop) w :
  hushed P0 -> (forall pre, hushed (P pre)) ->
  (forall e w', faulted E e -> P0 w' -> Rx e w') ->
  (forall pre e w', faulted E e -> P pre w' -> Rx e w') ->
  (forall w', P0 w' -> P [] (with_vars Vars.declare w')) ->
  (forall pre x post w', states = (pre ++ x :: post)%list -> P pre w' ->
     wp (state_step E x) (fun _ => P (pre ++ [x])%list) Rx w') ->
  (forall d w', P states w' ->
     Qf (with_run
           (Run.set_completed d (Vars.missingCasinos (vars w'))
              (Vars.offerComparisons (vars w'))
              (Summary.mk (count_missing (Vars.missingCasinos (vars w')))
                 (Vars.totalNewOffers (vars w')) (map snd states))) w')) ->
  P0 w ->
  wp (research_body E) (fun _ => Qf) Rx w.
Proof.
  intros HQ0 HQ HR0 HR Hdecl Hstep Hfin HP0.
  unfold research_body, ResearchRun_findById.
  repeat wp_step.
  wp_next (store_op_hushed P0). intros _ w1 HP1.
  repeat wp_step.
  wp_next (logProgress_hushed (P [])). intros _ w2 HP2.
  apply wp_bind.
  apply wp_mono with (Q := fun _ => P states) (R := Rx); [| | auto].
  { apply (wp_for_of_prefix (string * string) P Rx (state_step E)
             states [] w2 HP2).
    intros pre x post w' Heq HP'. apply (Hstep pre x post); auto. }
  intros _ w3 HP3.
  wp_next (logProgress_hushed (P states)). intros _ w4 HP4.
  repeat wp_step.
  wp_next (logProgress_hushed (P states)). intros _ w5 HP5.
  wp_next (logProgress_hushed (P states)). intros _ w6 HP6.
  unfold finalize, ResearchRun_findByIdAndUpdate, new_Date. repeat wp_step.
  apply wp_store_op;
    [intros _ | intros m Hm; apply (HR states); [eapply faulted_intro; eauto | hush]].
  repeat wp_step. apply (Hfin (now E (ops w6)) (tick w6)). hush.
Qed.

Lemma research_failed_spec (P Pf : World -> Prop) error w :
  hushed P -> (forall d w', P w' -> Pf (with_run (Run.set_failed d) w')) -> P w ->
  wp (research_failed E error) (fun _ => Pf) (fun e w' => P w' /\ faulted E e) w.
Proof.
  intros HQ Hfail HP. unfold research_failed.
  wp_next (logProgress_hushed P). intros _ w1 HP1.
  unfold new_Date. repeat wp_step.
  eapply wp_mono; [apply (update_hushed P Pf); auto | cbv beta; auto | cbv beta; auto].
Qed.

(** A whole run, for an invariant that holds however the run ends: [Qf]
    when the [try] block returned, [Rx] otherwise. *)
Lemma performResearch_spec (P0 : World -> Prop)
      (P : list (string * string) -> World -> Prop) (Qf Rx : World -> Prop) w :
  hushed P0 -> (forall pre, hushed (P pre)) ->
  (forall w', P0 w' -> Rx w') ->
  (forall pre w', P pre w' -> Rx w') ->
  (forall w', P0 w' -> P [] (with_vars Vars.declare w')) ->
  (forall pre x post w', states = (pre ++ x :: post)%list -> P pre w' ->
     wp (state_step E x) (fun _ => P (pre ++ [x])%list) (fun _ => Rx) w') ->
  (forall d w', P states w' ->
     Qf (with_run
           (Run.set_completed d (Vars.missingCasinos (vars w'))
              (Vars.offerComparisons (vars w'))
              (Summary.mk (count_missing (Vars.missingCasinos (vars w')))
                 (Vars.totalNewOffers (vars w')) (map snd states))) w')) ->
  hushed Rx -> (forall d w', Rx w' -> Rx (with_run (Run.set_failed d) w')) ->
  P0 w ->
  wp (performResearch E) (fun _ w' => Qf w' \/ Rx w') (fun _ => Rx) w.
Proof.
  intros HQ0 HQ HR0 HR Hdecl Hstep Hfin HQR Hfail HP0.
  unfold performResearch. apply wp_try_catch.
  eapply wp_mono.
  - apply research_body_spec with (P0 := P0) (P := P) (Qf := Qf) (Rx := fun _ => Rx);
      eauto.
  - cbv beta. auto.
  - cbv beta. intros e w' HRx.
    eapply wp_mono; [apply research_failed_spec with (P := Rx) (Pf := Rx); auto | |];
      cbv beta; auto.
    intros e' w'' [H _]. exact H.
Qed.

End Steps.

(** ** What a run adds to the store *)

Lemma hushed_appended cs os : hushed (appended cs os).
Proof. constructor; intros; unfold appended in *; cbn in *; assumption. Qed.

Section Appends.

Variable E : Env.
Variables (cs : list Casino.t) (os : list Offer.t).

Lemma venue_step_appends abbrev stateName casino w :
  In (abbrev, stateName) states ->
  appended cs os w ->
  wp (venue_step E abbrev stateName casino) (fun _ => appended cs os)
     (fun _ => appended cs os) w.
Proof.
  intros Hin HP.
  apply venue_step_spec with (P := appended cs os) (Mid := fun _ => appended cs os);
    auto using hushed_appended.
  intros name id createdAt lastUpdated w' _ (venues & added & Hc & Ho & Hv & Ha).
  exists (venues ++ [Casino.mk id name stateName abbrev (DCasino.website casino)
                       (DCasino.licenseNumber casino) None true createdAt lastUpdated])%list,
         added.
  cbn. rewrite Hc, app_assoc. repeat split; auto.
  apply Forall_app. split; [exact Hv |]. constructor; [| constructor].
  split; [reflexivity | exact Hin].
Qed.

Lemma offer_step_appends abbrev stateName casino w :
  In (abbrev, stateName) states ->
  appended cs os w ->
  wp (offer_step E abbrev stateName casino) (fun _ => appended cs os)
     (fun _ => appended cs os) w.
Proof.
  intros Hin HP.
  apply offer_step_spec
    with (C := appended cs os) (D := appended cs os) (F := fun _ => appended cs os)
         (Mid := fun _ _ => appended cs os) (Aft := appended cs os)
         (P := appended cs os);
    auto using hushed_appended.
  intros new pre x post o w' _ (venues & added & Hc & Ho & Hv & Ha)
    (_ & _ & Hst & Hab & _ & _ & _ & _ & _ & _ & _ & _ & Hsrc & _ & Hver).
  exists venues, (added ++ [o])%list.
  cbn. rewrite Ho, app_assoc. repeat split; auto.
  apply Forall_app. split; [exact Ha |]. constructor; [| constructor].
  split; [exact Hsrc | split; [exact Hver |]]. rewrite Hst, Hab. exact Hin.
Qed.

Lemma state_step_appends entry w :
  In entry states ->
  appended cs os w ->
  wp (state_step E entry) (fun _ => appended cs os) (fun _ => appended cs os) w.
Proof.
  intros Hin HP.
  apply state_step_spec
      with (P := appended cs os) (Pd := appended cs os) (V := appended cs os)
           (P2 := appended cs os) (L := fun _ _ => appended cs os) (Pe := appended cs os);
    auto using hushed_appended.
  - intros l w0 c w' _ _ HV. apply venue_step_appends; auto.
    destruct entry; exact Hin.
  - intros all0 pre0 c post0 w' _ HP2. apply offer_step_appends; auto.
    destruct entry; exact Hin.
Qed.

Lemma performResearch_appends w :
  appended cs os w ->
  wp (performResearch E) (fun _ => appended cs os) (fun _ => appended cs os) w.
Proof.
  intros HP.
  eapply wp_mono.
  - apply performResearch_spec
      with (P0 := appended cs os) (P := fun _ => appended cs os)
           (Qf := appended cs os) (Rx := appended cs os);
      auto using hushed_appended.
    intros pre x post w' Heq HP'. apply state_step_appends; auto.
    rewrite Heq. apply in_or_app. right. left. reflexivity.
  - cbv beta. intros _ w' [H | H]; exact H.
  - cbv beta. auto.
Qed.

End Appends.

Lemma filter_nil_Forall A (f : A -> bool) l :
  Forall (fun x => f x = false) l -> filter f l = [].
Proof.
  induction 1 as [| x l Hx Hl IH]; simpl; [reflexivity |]. rewrite Hx. exact IH.
Qed.

(** Whatever happens in a run, the two collections are the initial ones
    followed by the documents the run added: venues flagged [discovered]
    and offers of source [ai-research], not verified, all of one of the four
    jurisdictions.  The reference data is as it was: the venues that are
    not flagged, and the reference offers of every venue. *)
Theorem run_only_appends E cs os :
  exists venues added,
    casinos (fst (research_run E cs os)) = (cs ++ venues)%list
    /\ offers (fst (research_run E cs os)) = (os ++ added)%list
    /\ Forall ai_venue venues /\ Forall ai_offer added
    /\ filter (fun c => negb (Casino.discovered c)) (casinos (fst (research_run E cs os)))
       = filter (fun c => negb (Casino.discovered c)) cs
    /\ (forall casinoName abbrev,
          filter (reference_offers_of casinoName abbrev)
                 (offers (fst (research_run E cs os)))
          = filter (reference_offers_of casinoName abbrev) os).
Proof.
  assert (H0 : appended cs os (start E cs os)).
  { exists [], []. cbn. rewrite !app_nil_r. repeat split; constructor. }
  pose proof (wp_run E cs os _ _ (performResearch_appends E cs os _ H0)) as H.
  cbv beta in H.
  assert (Hp : appended cs os (fst (research_run E cs os))).
  { destruct (snd (research_run E cs os)); exact H. }
  destruct Hp as (venues & added & Hc & Ho & Hv & Ha).
  exists venues, added. rewrite Hc, Ho.
  split; [reflexivity | split; [reflexivity | split; [exact Hv | split; [exact Ha |]]]].
  split.
  - rewrite filter_app, (filter_nil_Forall _ _ venues), app_nil_r; [reflexivity |].
    eapply Forall_impl; [| exact Hv]. intros c [Hd _]. rewrite Hd. reflexivity.
  - intros casinoName abbrev.
    rewrite filter_app, (filter_nil_Forall _ _ added), app_nil_r; [reflexivity |].
    eapply Forall_impl; [| exact Ha]. intros o (Hs & _).
    unfold reference_offers_of. rewrite Hs. apply andb_false_r.
Qed.

(** ** Venues with plain names are stored once *)

Lemma hushed_distinct_venues : hushed distinct_venues.
Proof. constructor; intros; unfold distinct_venues in *; cbn in *; assumption. Qed.

Lemma hushed_venue_is_new abbrev name : hushed (venue_is_new abbrev name).
Proof.
  constructor; intros; unfold venue_is_new, distinct_venues in *; cbn in *; assumption.
Qed.

Lemma reference_engine_reads_plain_names service parser :
  engine_reads_plain_names (scenario_env service parser).
Proof.
  intros name Hp.
  exists (RegExp.test (RegExp.Seq RegExp.Bol
                         (chars_then name (RegExp.Seq RegExp.Eol RegExp.Empty)))).
  split.
  - unfold scenario_env. cbn [new_RegExp].
    unfold reference_RegExp, RegExp.construct. rewrite (parse_name name Hp).
    reflexivity.
  - intros s. apply test_name.
Qed.

Section Distinct.

Variable E : Env.

Hypothesis engine : engine_reads_plain_names E.

Lemma venue_step_distinct abbrev stateName casino w :
  plain_candidate casino ->
  distinct_venues w ->
  wp (venue_step E abbrev stateName casino) (fun _ => distinct_venues)
     (fun _ => distinct_venues) w.
Proof.
  intros Hplain HP.
  apply venue_step_spec with (P := distinct_venues) (Mid := venue_is_new abbrev);
    auto using hushed_distinct_venues, hushed_venue_is_new.
  - intros n e w' _ [H _]. exact H.
  - intros name matches w' Hname Hre HP' Hfind.
    split; [exact HP' |]. cbn.
    unfold plain_candidate in Hplain. rewrite Hname in Hplain.
    destruct (engine name Hplain) as (matches' & Hre' & Hspec).
    rewrite Hre in Hre'. injection Hre' as <-.
    intros Hin. apply in_map_iff in Hin. destruct Hin as (c & Hkey & Hin).
    apply (find_none _ _ Hfind) in Hin.
    unfold ci_key in Hkey. injection Hkey as Hlow Hab.
    unfold venue_query in Hin.
    apply (proj2 (Hspec (Casino.name c))) in Hlow.
    rewrite Hlow, Hab, String.eqb_refl in Hin. discriminate.
  - intros name id createdAt lastUpdated w' Hname [HP' Hnew].
    unfold distinct_venues. cbn. rewrite map_app. cbn.
    apply NoDup_app; [exact HP' | repeat constructor; intros [] |].
    intros k Hk [<- | []]. exact (Hnew Hk).
Qed.

Lemma offer_step_distinct abbrev stateName casino w :
  distinct_venues w ->
  wp (offer_step E abbrev stateName casino) (fun _ => distinct_venues)
     (fun _ => distinct_venues) w.
Proof.
  intros HP.
  apply offer_step_spec
    with (C := distinct_venues) (D := distinct_venues) (F := fun _ => distinct_venues)
         (Mid := fun _ _ => distinct_venues) (Aft := distinct_venues)
         (P := distinct_venues);
    auto using hushed_distinct_venues.
Qed.

Hypothesis plain_names :
  forall state w l,
    snd (discoverCasinosByState E state w) = inr l -> Forall plain_candidate l.

Lemma performResearch_distinct w :
  distinct_venues w ->
  wp (performResearch E) (fun _ => distinct_venues) (fun _ => distinct_venues) w.
Proof.
  intros HP.
  eapply wp_mono.
  - apply performResearch_spec
      with (P0 := distinct_venues) (P := fun _ => distinct_venues)
           (Qf := distinct_venues) (Rx := distinct_venues);
      auto using hushed_distinct_venues.
    intros pre x post w' _ HP'.
    apply state_step_spec
      with (P := distinct_venues) (Pd := distinct_venues) (V := distinct_venues)
           (P2 := distinct_venues) (L := fun _ _ => distinct_venues) (Pe := distinct_venues);
      auto using hushed_distinct_venues.
    + intros l w0 c w'' Hl Hin HV. apply venue_step_distinct; auto.
      apply plain_names in Hl. rewrite Forall_forall in Hl. auto.
    + intros all0 pre0 c post0 w'' _ HP2. apply offer_step_distinct; auto.
  - cbv beta. intros _ w' [H | H]; exact H.
  - cbv beta. auto.
Qed.

End Distinct.

(** ** The venue step on a name in ASCII *)

Lemma hushed_holding cs m : hushed (holding cs m).
Proof. constructor; intros; unfold holding in *; cbn in *; assumption. Qed.

Lemma venue_query_matched_by matches name abbrev c :
  (forall s, matches s = true <-> JS.toLowerCase s = JS.toLowerCase name) ->
  venue_query matches (JS.trim (JS.toLowerCase name)) abbrev c = true
  <-> matched_by name abbrev c.
Proof.
  intros Hm. unfold venue_query, matched_by.
  rewrite orb_true_iff, !andb_true_iff, !String.eqb_eq, Hm. tauto.
Qed.

Lemma venue_step_holding E abbrev stateName casino name matches w :
  DCasino.name casino = Some name ->
  new_RegExp E ("^" ++ name ++ "$") = inr matches ->
  (forall s, matches s = true <-> JS.toLowerCase s = JS.toLowerCase name) ->
  wp (venue_step E abbrev stateName casino)
     (fun _ w' =>
        ((exists c, In c (casinos w) /\ matched_by name abbrev c) ->
         holding (casinos w) (Vars.missing (vars w)) w')
        /\ (~ (exists c, In c (casinos w) /\ matched_by name abbrev c) ->
            exists c, created_from casino name abbrev stateName c
              /\ holding (casinos w ++ [c]) (Vars.missing (vars w) ++ [name]) w'))
     (fun e _ => faulted E e) w.
Proof.
  intros Hname Hre Hm.
  pose proof (hushed_holding (casinos w) (Vars.missing (vars w))) as Hh.
  assert (H0 : holding (casinos w) (Vars.missing (vars w)) w) by (split; reflexivity).
  unfold venue_step. wp_unfold.
  apply wp_bind. rewrite Hname. apply wp_ret. cbv beta zeta.
  apply wp_bind. rewrite Hre. apply wp_ret. cbv beta.
  wp_next (Casino_findOne_hushed E (holding (casinos w) (Vars.missing (vars w)))).
  intros r w1 [[Hcs Hmiss] Hr]. rewrite Hcs in Hr.
  destruct r as [c |].
  - apply wp_ret. split; [intros _; split; assumption |].
    intros Hno. elim Hno. symmetry in Hr. apply find_some in Hr.
    exists c. split; [apply Hr | apply (venue_query_matched_by _ _ _ _ Hm), Hr].
  - assert (Hnone : ~ (exists c, In c (casinos w) /\ matched_by name abbrev c)).
    { intros (c & Hin & Hc). symmetry in Hr. apply (find_none _ _ Hr) in Hin.
      apply (venue_query_matched_by _ _ _ _ Hm) in Hc. congruence. }
    repeat wp_step. unfold Casino_create. repeat wp_step.
    assert (HM : holding (casinos w) (Vars.missing (vars w) ++ [name])
                   (with_vars (Vars.push_missing name) w1)).
    { split; [exact Hcs | cbn; rewrite Hmiss; reflexivity]. }
    pose proof (hushed_holding (casinos w) (Vars.missing (vars w) ++ [name])) as Hh'.
    wp_next (store_op_hushed E (holding (casinos w) (Vars.missing (vars w) ++ [name]))).
    intros _ w2 [Hcs2 Hmiss2]. repeat wp_step.
    set (c0 := Casino.mk (new_ObjectId E (ops (with_vars (Vars.push_missing name) w1)))
                 name stateName abbrev
                 (DCasino.website casino) (DCasino.licenseNumber casino) None true
                 (now E (ops (with_vars (Vars.push_missing name) w1)))
                 (now E (ops (with_vars (Vars.push_missing name) w1)))).
    eapply wp_mono;
      [ apply (logProgress_hushed E
                 (holding (casinos w ++ [c0]) (Vars.missing (vars w) ++ [name])));
        [apply hushed_holding | split; [cbn; rewrite Hcs2; reflexivity | exact Hmiss2]]
      | cbv beta
      | cbv beta; intros ? ? [_ ?]; assumption ].
    intros _ w3 Hend. split; [intros Hyes; elim (Hnone Hyes) |].
    intros _. exists c0. split; [| exact Hend].
    eexists _, _, _. reflexivity.
Qed.

(** The venue step on a candidate whose name is in ASCII, where
    [JS.toLowerCase] and [JS.trim] are the functions of the code, with an
    engine that reads the pattern built from the name as the name itself,
    anchored, up to letter case, and a store that rejects nothing.  The
    step returns; when a stored venue of the jurisdiction has the
    candidate's name up to case, blanks included, or has exactly its
    lowercased, trimmed name, the store and [missing] are left as they
    were; otherwise one venue is added to the store, under the candidate's
    name as given and flagged [discovered], and the name is pushed on
    [missing]. *)
Theorem venue_step_on_an_ascii_name E abbrev stateName casino name matches w :
  no_store_fault E ->
  DCasino.name casino = Some name ->
  JS.is_ascii name = true ->
  new_RegExp E ("^" ++ name ++ "$") = inr matches ->
  (forall s, matches s = true <-> JS.toLowerCase s = JS.toLowerCase name) ->
  snd (venue_step E abbrev stateName casino w) = inr tt
  /\ ((exists c, In c (casinos w) /\ matched_by name abbrev c) ->
      holding (casinos w) (Vars.missing (vars w))
        (fst (venue_step E abbrev stateName casino w)))
  /\ (~ (exists c, In c (casinos w) /\ matched_by name abbrev c) ->
      exists c, created_from casino name abbrev stateName c
        /\ holding (casinos w ++ [c]) (Vars.missing (vars w) ++ [name])
             (fst (venue_step E abbrev stateName casino w))).
Proof.
  intros Hnf Hname _ Hre Hm.
  pose proof (venue_step_holding E abbrev stateName casino name matches w
                Hname Hre Hm) as H.
  unfold wp in H.
  destruct (venue_step E abbrev stateName casino w) as [w' [e | []]]; cbn.
  - elim (never_faulted E Hnf e H).
  - split; [reflexivity | exact H].
Qed.

Lemma venue_step_on_an_ascii_name_witness :
  exists c,
    created_from (DCasino.mk (Some GoldenNugget.candidate) None None None)
      GoldenNugget.candidate "NJ" "New Jersey" c
    /\ holding (GoldenNugget.store_casinos ++ [c]) [GoldenNugget.candidate]
         (fst (venue_step GoldenNugget.env "NJ" "New Jersey"
                 (DCasino.mk (Some GoldenNugget.candidate) None None None)
                 (start GoldenNugget.env GoldenNugget.store_casinos []))).
Proof.
  destruct (reference_engine_reads_plain_names
              (scripted_service
                 [("New Jersey", casinos_json [GoldenNugget.candidate])] [])
              (scripted_parser
                 [(casinos_json [GoldenNugget.candidate],
                   casinos_parsed [GoldenNugget.candidate])])
              GoldenNugget.candidate eq_refl) as (matches & Hre & Hm).
  apply (proj2 (proj2
           (venue_step_on_an_ascii_name GoldenNugget.env "NJ" "New Jersey"
              (DCasino.mk (Some GoldenNugget.candidate) None None None)
              GoldenNugget.candidate matches
              (start GoldenNugget.env GoldenNugget.store_casinos [])
              (fun n => eq_refl) eq_refl eq_refl Hre Hm))).
  intros (c & [<- | []] & _ & [H | H]); discriminate H.
Defined.



(** ** The missing-venue report and the venues created *)

Ltac hushed_by defs :=
  constructor; intros; unfold defs in *; unfold_inv; cbn in *; assumption.

Lemma hushed_reporting cs s pending : hushed (reporting cs s pending).
Proof. constructor; intros; unfold reporting in *; unfold_inv; cbn in *; assumption. Qed.

Lemma hushed_reported cs : hushed (reported cs).
Proof. constructor; intros; unfold reported in *; unfold_inv; cbn in *; assumption. Qed.

Lemma hushed_nothing_created cs : hushed (nothing_created cs).
Proof.
  constructor; intros; unfold nothing_created in *; unfold_inv; cbn in *; assumption.
Qed.

Lemma hushed_not_completed : hushed not_completed.
Proof. constructor; intros; unfold_inv; cbn in *; assumption. Qed.

Lemma untouched_not_completed w : untouched w -> not_completed w.
Proof. intros (Hs & _). unfold not_completed. rewrite Hs. discriminate. Qed.

Lemma listed_app l m :
  listed (l ++ [m])
  = (listed l ++ map (fun n => (MissingEntry.state m, n)) (MissingEntry.casinos m))%list.
Proof. unfold listed. rewrite flat_map_app. simpl. rewrite app_nil_r. reflexivity. Qed.

Lemma length_listed l : length (listed l) = sum_missing l.
Proof.
  unfold listed, sum_missing. induction l as [| m l IH]; simpl; [reflexivity |].
  rewrite length_app, length_map, IH. reflexivity.
Qed.

Section Report.

Variable E : Env.
Variable cs : list Casino.t.

Lemma venue_step_reporting abbrev stateName casino w :
  reporting cs stateName [] w ->
  wp (venue_step E abbrev stateName casino) (fun _ => reporting cs stateName [])
     (fun _ => not_completed) w.
Proof.
  intros HP.
  apply venue_step_spec
    with (P := reporting cs stateName [])
         (Mid := fun n => reporting cs stateName [(stateName, n)]);
    auto using hushed_reporting.
  - intros e w' _ (H & _). apply untouched_not_completed. exact H.
  - intros n e w' _ (H & _). apply untouched_not_completed. exact H.
  - intros w' _ (H & _). apply untouched_not_completed. exact H.
  - intros name m w' _ _ (H & _). apply untouched_not_completed. exact H.
  - intros name matches w' _ _ (Hu & Hne & created & Hc & Hl) _.
    split; [exact Hu | split; [exact Hne |]]. exists created. cbn.
    split; [exact Hc |]. rewrite app_nil_r in Hl.
    rewrite Hl, map_app, app_assoc. reflexivity.
  - intros name id createdAt lastUpdated w' _ (Hu & Hne & created & Hc & Hl).
    split; [exact Hu | split; [exact Hne |]].
    eexists (created ++ [_])%list. cbn.
    split; [rewrite Hc, app_assoc; reflexivity |].
    rewrite app_nil_r. unfold created_as in *. rewrite map_app. exact Hl.
Qed.

Lemma offer_step_reported abbrev stateName casino w :
  reported cs w ->
  wp (offer_step E abbrev stateName casino) (fun _ => reported cs)
     (fun _ => not_completed) w.
Proof.
  intros HP.
  assert (HR : forall w', reported cs w' -> not_completed w').
  { intros w' (H & _). apply untouched_not_completed. exact H. }
  apply offer_step_spec
    with (C := reported cs) (D := reported cs) (F := fun _ => reported cs)
         (Mid := fun _ _ => reported cs) (Aft := reported cs)
         (P := reported cs);
    auto using hushed_reported.
Qed.

Lemma state_step_reported entry w :
  reported cs w ->
  wp (state_step E entry) (fun _ => reported cs) (fun _ => not_completed) w.
Proof.
  intros HP.
  assert (HR : forall w', reported cs w' -> not_completed w').
  { intros w' (H & _). apply untouched_not_completed. exact H. }
  apply state_step_spec
      with (P := reported cs) (Pd := reported cs) (V := reporting cs (snd entry) [])
           (P2 := reported cs) (L := fun _ _ => reported cs) (Pe := reported cs);
    auto using hushed_reported, hushed_reporting.
  - intros e w' _ (H & _). apply untouched_not_completed. exact H.
  - intros w' (Hu & Hne & created & Hc & Hl).
    split; [exact Hu | split; [exact Hne |]]. exists created. cbn.
    split; [exact Hc |]. rewrite !app_nil_r. exact Hl.
  - intros l w0 c w' _ _ HV. apply venue_step_reporting. exact HV.
  - intros w' (Hu & Hne & created & Hc & Hl) Hlen.
    split; [exact Hu | split].
    + cbn. apply Forall_app. split; [exact Hne |]. constructor; [| constructor].
      cbn. intros Hnil. rewrite Hnil in Hlen. discriminate.
    + exists created. cbn. split; [exact Hc |].
      rewrite listed_app. cbn. rewrite app_nil_r in Hl. exact Hl.
  - intros w' (Hu & Hne & created & Hc & Hl) Hlen.
    split; [exact Hu | split; [exact Hne |]]. exists created.
    split; [exact Hc |].
    destruct (Vars.missing (vars w')); [| discriminate].
    cbn in Hl. rewrite !app_nil_r in Hl. exact Hl.
  - intros all0 pre0 c post0 w' _ HP2. apply offer_step_reported. exact HP2.
Qed.

Lemma performResearch_reported w :
  nothing_created cs w ->
  wp (performResearch E)
     (fun _ w' =>
        (Run.status (run w') = completed
         /\ Forall (fun m => MissingEntry.casinos m <> []) (Run.missingCasinos (run w'))
         /\ exists created s,
              casinos w' = (cs ++ created)%list
              /\ created_as created = listed (Run.missingCasinos (run w'))
              /\ Run.summary (run w') = Some s
              /\ Summary.totalMissingCasinos s = length created)
        \/ not_completed w')
     (fun _ => not_completed) w.
Proof.
  intros HP.
  assert (HR : forall w', reported cs w' -> not_completed w').
  { intros w' (H & _). apply untouched_not_completed. exact H. }
  apply performResearch_spec with (P0 := nothing_created cs) (P := fun _ => reported cs);
    auto using hushed_reported, hushed_nothing_created, hushed_not_completed.
  - intros w' (H & _). apply untouched_not_completed. exact H.
  - intros w' (Hu & Hc). split; [exact Hu | split; [constructor |]].
    exists []. cbn. rewrite app_nil_r. split; [exact Hc | reflexivity].
  - intros pre x post w' _ HP'. apply state_step_reported. exact HP'.
  - intros d w' (Hu & Hne & created & Hc & Hl). cbn.
    split; [reflexivity | split; [exact Hne |]].
    exists created. eexists. split; [exact Hc | split; [exact Hl |]].
    split; [reflexivity |]. cbn.
    rewrite count_missing_sum, <- length_listed, <- Hl. unfold created_as.
    apply length_map.
  - intros d w' H. unfold not_completed. cbn. discriminate.
Qed.

End Report.

(** When a run ends [completed], the venues it created are, in order, the
    venues its missing-venue report lists, each under the jurisdiction it
    was stored with; no entry of the report is empty, and the summary's
    [totalMissingCasinos] is the number of venues created. *)
Theorem missing_report_lists_created_venues E cs os :
  Run.status (run (fst (research_run E cs os))) = completed ->
  exists created s,
    casinos (fst (research_run E cs os)) = (cs ++ created)%list
    /\ map (fun c => (Casino.state c, Casino.name c)) created
       = listed (Run.missingCasinos (run (fst (research_run E cs os))))
    /\ Forall (fun m => MissingEntry.casinos m <> [])
              (Run.missingCasinos (run (fst (research_run E cs os))))
    /\ Run.summary (run (fst (research_run E cs os))) = Some s
    /\ Summary.totalMissingCasinos s = length created.
Proof.
  intros Hdone.
  assert (H0 : nothing_created cs (start E cs os)).
  { split; [apply start_untouched | reflexivity]. }
  pose proof (wp_run E cs os _ _ (performResearch_reported E cs _ H0)) as H.
  cbv beta in H.
  assert (Hp : not_completed (fst (research_run E cs os))
               \/ (Run.status (run (fst (research_run E cs os))) = completed
         /\ Forall (fun m => MissingEntry.casinos m <> [])
                   (Run.missingCasinos (run (fst (research_run E cs os))))
         /\ exists created s,
              casinos (fst (research_run E cs os)) = (cs ++ created)%list
              /\ created_as created
                 = listed (Run.missingCasinos (run (fst (research_run E cs os))))
              /\ Run.summary (run (fst (research_run E cs os))) = Some s
              /\ Summary.totalMissingCasinos s = length created)).
  { destruct (snd (research_run E cs os)); [left; exact H |].
    destruct H as [H | H]; [right | left]; exact H. }
  destruct Hp as [Hn | (_ & Hne & created & s & Hc & Hl & Hs & Ht)]; [elim (Hn Hdone) |].
  exists created, s. repeat split; assumption.
Qed.

Lemma missing_report_lists_created_venues_witness :
  exists created s,
    casinos EndToEnd.final = (EndToEnd.store_casinos ++ created)%list
    /\ map (fun c => (Casino.state c, Casino.name c)) created
       = listed (Run.missingCasinos (run EndToEnd.final))
    /\ Forall (fun m => MissingEntry.casinos m <> [])
              (Run.missingCasinos (run EndToEnd.final))
    /\ Run.summary (run EndToEnd.final) = Some s
    /\ Summary.totalMissingCasinos s = length created.
Proof.
  apply (missing_report_lists_created_venues
           EndToEnd.env EndToEnd.store_casinos EndToEnd.store_offers).
  vm_compute. reflexivity.
Defined.

(** ** The counter of processed venues *)

Lemma hushed_venue_count d a b : hushed (venue_count d a b).
Proof. constructor; intros; unfold venue_count in *; unfold_inv; cbn in *; assumption. Qed.

Lemma hushed_venue_count_fresh : hushed venue_count_fresh.
Proof.
  constructor; intros; unfold venue_count_fresh in *; unfold_inv; cbn in *; assumption.
Qed.

Lemma hushed_venue_count_near : hushed venue_count_near.
Proof.
  constructor; intros; unfold venue_count_near in *; unfold_inv; cbn in *; assumption.
Qed.

Lemma research_requests_app l l' :
  research_requests (l ++ l') = research_requests l + research_requests l'.
Proof. unfold research_requests. rewrite filter_app, length_app. reflexivity. Qed.

Lemma length_calls l :
  length l = length (discover_states l) + research_requests l.
Proof.
  unfold research_requests, discover_states.
  induction l as [| [s | n s] l IH]; simpl; [reflexivity | |]; rewrite IH; lia.
Qed.

Lemma venue_count_is_near d a b w :
  a <= 1 -> b <= 1 -> venue_count d a b w -> venue_count_near w.
Proof.
  intros Ha Hb (Hu & _ & _ & Hr). split; [apply untouched_not_completed; exact Hu |].
  lia.
Qed.

Section VenueCounter.

Variable E : Env.

Lemma venue_step_count d abbrev stateName casino w :
  venue_count d 0 0 w ->
  wp (venue_step E abbrev stateName casino) (fun _ => venue_count d 0 0)
     (fun _ => venue_count_near) w.
Proof.
  intros HP.
  assert (HR : forall w', venue_count d 0 0 w' -> venue_count_near w').
  { intros w'. apply venue_count_is_near; lia. }
  apply venue_step_spec
    with (P := venue_count d 0 0) (Mid := fun _ => venue_count d 0 0);
    auto using hushed_venue_count.
Qed.

Lemma offer_step_count d abbrev stateName casino w :
  venue_count d 0 0 w ->
  wp (offer_step E abbrev stateName casino) (fun _ => venue_count d 0 0)
     (fun _ => venue_count_near) w.
Proof.
  intros HP.
  apply offer_step_spec
    with (C := venue_count d 1 0) (D := venue_count d 1 1) (F := fun _ => venue_count d 0 0)
         (Mid := fun _ _ => venue_count d 0 0) (Aft := venue_count d 0 0)
         (P := venue_count d 0 0);
    auto using hushed_venue_count;
    try (intros; eapply venue_count_is_near; [| | eassumption]; lia).
  - intros w' (Hu & Hd & Hv & Hr). unfold venue_count in *. unfold_inv.
    cbn -[discover_states research_requests] in *.
    intuition lia.
  - intros w' (Hu & Hd & Hv & Hr). unfold venue_count in *. unfold_inv.
    cbn -[discover_states research_requests] in *.
    intuition lia.
  - intros l w' (Hu & Hd & Hv & Hr) _. unfold venue_count in *. unfold_inv.
    cbn -[discover_states research_requests] in *.
    rewrite discover_states_app, research_requests_app, length_app. cbn.
    intuition lia.
Qed.

Lemma state_step_count pre x w :
  venue_count (length pre) 0 0 w ->
  wp (state_step E x) (fun _ => venue_count (length (pre ++ [x])) 0 0)
     (fun _ => venue_count_near) w.
Proof.
  intros HP.
  assert (HR : forall d w', venue_count d 0 0 w' -> venue_count_near w').
  { intros d w'. apply venue_count_is_near; lia. }
  apply state_step_spec
      with (P := venue_count (length pre) 0 0) (Pd := venue_count (length (pre ++ [x])) 0 0) (V := venue_count (length (pre ++ [x])) 0 0)
           (P2 := venue_count (length (pre ++ [x])) 0 0) (L := fun _ _ => venue_count (length (pre ++ [x])) 0 0) (Pe := venue_count (length (pre ++ [x])) 0 0);
    eauto using hushed_venue_count.
  - intros w' (Hu & Hd & Hv & Hr). unfold venue_count in *. unfold_inv.
    cbn -[discover_states research_requests] in *.
    rewrite discover_states_app, research_requests_app, !length_app. cbn.
    intuition lia.
  - intros l w0 c w' _ _ HV. apply venue_step_count. exact HV.
  - intros all0 pre0 c post0 w' _ HP2. apply offer_step_count. exact HP2.
Qed.

Lemma performResearch_count w :
  venue_count_fresh w ->
  wp (performResearch E)
     (fun _ w' =>
        (Run.status (run w') = completed
         /\ Run.casinosProcessed (run w') = research_requests (calls w')
         /\ length (discover_states (calls w')) = length states)
        \/ venue_count_near w')
     (fun _ => venue_count_near) w.
Proof.
  intros HP.
  apply performResearch_spec
    with (P0 := venue_count_fresh) (P := fun pre => venue_count (length pre) 0 0);
    auto using hushed_venue_count, hushed_venue_count_fresh, hushed_venue_count_near.
  - intros w' (Hu & Hc & Hr). split; [apply untouched_not_completed; exact Hu |].
    rewrite Hc, Hr. cbn. lia.
  - intros pre w'. apply venue_count_is_near; lia.
  - intros w' (Hu & Hc & Hr). unfold venue_count. unfold_inv.
    cbn -[discover_states research_requests] in *.
    rewrite Hc, Hr. cbn. intuition.
  - intros pre x post w' _ HP'. apply state_step_count. exact HP'.
  - intros d w' (Hu & Hd & Hv & Hr).
    cbn -[discover_states research_requests] in *. split; [reflexivity |].
    split; [lia | exact Hd].
  - intros d w' (Hn & Hr). split; [unfold not_completed; cbn; discriminate |].
    cbn -[research_requests]. exact Hr.
Qed.

End VenueCounter.

(** In every run the record's [casinosProcessed] is the number of research
    requests issued, or one more when the run stopped between the write of
    the counter and the request; when the run ends [completed] the two are
    equal, and the requests of the run are four discovery requests and one
    research request per venue counted. *)
Theorem casinosProcessed_counts_research_requests E cs os :
  research_requests (calls (fst (research_run E cs os)))
    <= Run.casinosProcessed (run (fst (research_run E cs os)))
    <= S (research_requests (calls (fst (research_run E cs os))))
  /\ (Run.status (run (fst (research_run E cs os))) = completed ->
      Run.casinosProcessed (run (fst (research_run E cs os)))
      = research_requests (calls (fst (research_run E cs os)))
      /\ length (calls (fst (research_run E cs os)))
         = 4 + Run.casinosProcessed (run (fst (research_run E cs os)))).
Proof.
  assert (H0 : venue_count_fresh (start E cs os)).
  { split; [apply start_untouched | split; reflexivity]. }
  pose proof (wp_run E cs os _ _ (performResearch_count E _ H0)) as H.
  cbv beta in H.
  assert (Hp : venue_count_near (fst (research_run E cs os))
               \/ (Run.status (run (fst (research_run E cs os))) = completed
         /\ Run.casinosProcessed (run (fst (research_run E cs os)))
            = research_requests (calls (fst (research_run E cs os)))
         /\ length (discover_states (calls (fst (research_run E cs os))))
            = length states)).
  { destruct (snd (research_run E cs os)); [left; exact H |].
    destruct H as [H | H]; [right | left]; exact H. }
  destruct Hp as [[Hn Hr] | (_ & Hr & Hd)].
  - split; [exact Hr |]. intros Hc. elim (Hn Hc).
  - split; [lia |]. intros _. split; [exact Hr |].
    rewrite (length_calls (calls (fst (research_run E cs os)))), Hd, Hr. reflexivity.
Qed.

(** ** The offers one offer step inserts *)

Lemma hushed_as_in w0 p : hushed (as_in w0 p).
Proof. constructor; intros; unfold as_in in *; cbn in *; assumption. Qed.

Lemma hushed_inserted abbrev stateName casino w0 stored :
  hushed (inserted abbrev stateName casino w0 stored).
Proof. constructor; intros; unfold inserted in *; cbn in *; assumption. Qed.

Lemma hushed_partly_inserted E abbrev stateName casino w0 :
  hushed (partly_inserted E abbrev stateName casino w0).
Proof. constructor; intros; unfold partly_inserted in *; cbn in *; assumption. Qed.

(** The answer of a stage depends on the world through the number of
    requests issued only. *)
Lemma research_depends_on_calls E casinoName state w w' :
  calls w = calls w' ->
  snd (researchCasinoOffers E casinoName state w)
  = snd (researchCasinoOffers E casinoName state w').
Proof.
  intros Hc.
  unfold researchCasinoOffers, try_catch, bind, callClaudeAPI, parse_json, ret, throw.
  rewrite Hc.
  destruct (complete E (length (calls w')) (ResearchPrompt casinoName state))
    as [m | response]; [reflexivity |].
  destruct (jsonMatch response) as [json |]; [| reflexivity].
  destruct (JSON_parse E json); reflexivity.
Qed.

Lemma newOffers_nil discovered : Reconcile.newOffers [] discovered = discovered.
Proof.
  unfold Reconcile.newOffers. induction discovered as [| d l IH];
    [reflexivity |].
  change (d :: filter (fun dOffer => negb (Reconcile.exists_ [] dOffer)) l = d :: l).
  f_equal. exact IH.
Qed.

Lemma Forall2_snoc A B (R : A -> B -> Prop) l l' x y :
  Forall2 R l l' -> R x y -> Forall2 R (l ++ [x]) (l' ++ [y]).
Proof. intros H Hxy. apply Forall2_app; [exact H | constructor; [exact Hxy | constructor]]. Qed.

Section OfferStep.

Variable E : Env.
Variables (abbrev stateName : string) (casino : Casino.t) (w0 : World).

Let new := new_offers_in E abbrev stateName casino w0.

Lemma inserted_partly stored rest w :
  new = (stored ++ rest)%list ->
  inserted abbrev stateName casino w0 stored w ->
  partly_inserted E abbrev stateName casino w0 w.
Proof.
  intros Heq (added & Ho & Hf & Hc & _). exists stored, rest, added. auto.
Qed.

Lemma as_in_partly p w :
  as_in w0 p w -> partly_inserted E abbrev stateName casino w0 w.
Proof.
  intros (Ho & Hc & _). exists [], new, []. rewrite app_nil_r.
  repeat split; auto.
Qed.

Lemma offer_step_inserts :
  wp (offer_step E abbrev stateName casino)
     (fun _ => inserted abbrev stateName casino w0 new)
     (fun _ => partly_inserted E abbrev stateName casino w0) w0.
Proof.
  apply offer_step_spec
    with (P := as_in w0 []) (C := as_in w0 []) (D := as_in w0 [])
         (F := fun l w =>
                 l = research_result E (Casino.name casino) stateName w0
                 /\ as_in w0 [ResearchPrompt (Casino.name casino) stateName] w)
         (Mid := fun l pre w =>
                   l = new /\ (exists post, new = (pre ++ post)%list)
                   /\ inserted abbrev stateName casino w0 pre w)
         (Aft := inserted abbrev stateName casino w0 new).
  - apply hushed_as_in.
  - apply hushed_as_in.
  - intros l. constructor; intros; unfold as_in in *; cbn in *; assumption.
  - intros l pre. constructor; intros; unfold inserted in *; cbn in *; assumption.
  - apply hushed_inserted.
  - intros e w _. apply as_in_partly.
  - intros e w _. apply as_in_partly.
  - intros l e w _ [_ H]. apply (as_in_partly _ _ H).
  - intros l pre e w _ (_ & [post Hpost] & H). apply (inserted_partly pre post); auto.
  - intros e w _ H. apply (inserted_partly new []); auto. rewrite app_nil_r. reflexivity.
  - intros w H. exact H.
  - intros w H. exact H.
  - intros l w (Ho & Hc & Hcalls) Hl. split.
    + unfold research_result.
      rewrite <- (research_depends_on_calls E _ _ w w0), Hl; [reflexivity |].
      rewrite Hcalls. apply app_nil_r.
    + unfold as_in in *. cbn. rewrite Hcalls, app_nil_r. auto.
  - intros l w [-> (Ho & Hc & Hcalls)] Hnil.
    exists []. rewrite app_nil_r.
    unfold new, new_offers_in. rewrite <- Ho, Hnil. repeat split; auto.
  - intros l n w [-> (Ho & Hc & Hcalls)] Hn Hne.
    assert (Hnew : n = new).
    { rewrite Hn, Ho. reflexivity. }
    split; [exact Hnew | split; [exists new; reflexivity |]].
    exists []. cbn. rewrite app_nil_r. repeat split; auto.
  - intros n pre x post o w Heq (Hn & _ & added & Ho & Hf & Hc & Hcalls) Hst.
    split; [exact Hn | split].
    + exists post. rewrite <- Hn, Heq, <- app_assoc. reflexivity.
    + exists (added ++ [o])%list. cbn. rewrite Ho, app_assoc.
      repeat split; auto. apply Forall2_snoc; auto.
  - intros n c w (Hn & _ & H) _ _. rewrite Hn in H. exact H.
  - intros w H. exact H.
  - repeat split. cbn. rewrite app_nil_r. reflexivity.
Qed.

End OfferStep.


(** ** The JSON text of a response *)

Lemma no_char_app c s t : no_char c (s ++ t) = no_char c s && no_char c t.
Proof.
  induction s as [| a s IH]; simpl; [reflexivity |]. rewrite IH. apply andb_assoc.
Qed.

Lemma after_first_brace_spec s rest :
  after_first_brace s = Some rest
  <-> exists pre, s = pre ++ String "{" rest /\ no_char "{" pre = true.
Proof.
  split.
  - revert rest. induction s as [| a s IH]; intros rest; simpl; [discriminate |].
    destruct (Ascii.eqb_spec a "{") as [-> | Hne].
    + intros [= <-]. exists "". split; reflexivity.
    + intros H. destruct (IH rest H) as (pre & -> & Hpre).
      exists (String a pre). split; [reflexivity |]. simpl.
      rewrite Hpre. destruct (Ascii.eqb_spec a "{"); [contradiction | reflexivity].
  - intros (pre & -> & Hpre). induction pre as [| a pre IH]; simpl.
    + reflexivity.
    + simpl in Hpre. apply andb_true_iff in Hpre. destruct Hpre as [Ha Hpre].
      apply negb_true_iff in Ha. rewrite Ha. apply IH. exact Hpre.
Qed.

Lemma after_first_brace_none s :
  after_first_brace s = None <-> no_char "{" s = true.
Proof.
  induction s as [| a s IH]; simpl; [split; reflexivity |].
  destruct (Ascii.eqb a "{"); simpl; [split; discriminate | exact IH].
Qed.

Lemma upto_last_brace_none s :
  upto_last_brace s = None <-> no_char "}" s = true.
Proof.
  induction s as [| a s IH]; simpl; [split; reflexivity |].
  destruct (upto_last_brace s) as [t |].
  - split; [discriminate |]. intros H. apply andb_true_iff in H.
    destruct H as [_ H]. apply IH in H. discriminate.
  - destruct (Ascii.eqb a "}"); simpl; [split; discriminate |].
    split; [intros _; apply IH; reflexivity | reflexivity].
Qed.

Lemma upto_last_brace_spec s t :
  upto_last_brace s = Some t
  <-> exists mid post,
        s = mid ++ String "}" post /\ no_char "}" post = true /\ t = mid ++ "}".
Proof.
  split.
  - revert t. induction s as [| a s IH]; intros t; simpl; [discriminate |].
    destruct (upto_last_brace s) as [u |] eqn:Hu.
    + intros [= <-]. destruct (IH u eq_refl) as (mid & post & -> & Hpost & ->).
      exists (String a mid), post. repeat split; auto.
    + destruct (Ascii.eqb_spec a "}") as [-> |]; [| discriminate].
      intros [= <-]. exists "", s. split; [reflexivity | split; [| reflexivity]].
      apply upto_last_brace_none. exact Hu.
  - intros (mid & post & -> & Hpost & ->). induction mid as [| a mid IH]; simpl.
    + apply upto_last_brace_none in Hpost. rewrite Hpost. reflexivity.
    + rewrite IH. reflexivity.
Qed.

Lemma append_cons pre c x : pre ++ String c x = (pre ++ String c "") ++ x.
Proof. induction pre as [| a pre IH]; simpl; [| rewrite IH]; reflexivity. Qed.

(** What follows the first opening brace ends with whatever follows any
    opening brace. *)
Lemma after_first_brace_suffix pre0 rest pre x :
  pre0 ++ String "{" rest = pre ++ String "{" x -> no_char "{" pre0 = true ->
  exists y, rest = y ++ x.
Proof.
  revert pre. induction pre0 as [| a pre0 IH]; intros pre Heq Hno.
  - destruct pre as [| b pre]; simpl in Heq.
    + injection Heq as ->. exists "". reflexivity.
    + injection Heq as <- ->. exists (pre ++ "{"). apply append_cons.
  - simpl in Hno. apply andb_true_iff in Hno. destruct Hno as [Ha Hno].
    destruct pre as [| b pre]; simpl in Heq.
    + injection Heq as -> _. discriminate.
    + injection Heq as _ Heq. apply (IH pre); assumption.
Qed.

Lemma append_assoc3 pre mid post :
  pre ++ "{" ++ mid ++ "}" ++ post = pre ++ String "{" (mid ++ String "}" post).
Proof. reflexivity. Qed.

(** The text a stage takes for the JSON object of a response runs from the
    first opening brace of the response to its last closing brace, and a
    response has such a text exactly when a closing brace follows an
    opening one. *)
Theorem jsonMatch_spans_first_to_last_brace :
  (forall response json,
      jsonMatch response = Some json
      <-> exists pre mid post,
            response = pre ++ "{" ++ mid ++ "}" ++ post
            /\ no_char "{" pre = true /\ no_char "}" post = true
            /\ json = "{" ++ mid ++ "}")
  /\ (forall response,
        jsonMatch response = None
        <-> forall pre mid post, response <> pre ++ "{" ++ mid ++ "}" ++ post).
Proof.
  assert (Hsome : forall response json,
      jsonMatch response = Some json
      <-> exists pre mid post,
            response = pre ++ "{" ++ mid ++ "}" ++ post
            /\ no_char "{" pre = true /\ no_char "}" post = true
            /\ json = "{" ++ mid ++ "}").
  { intros response json. unfold jsonMatch. split.
    - destruct (after_first_brace response) as [rest |] eqn:Hrest; [| discriminate].
      apply after_first_brace_spec in Hrest. destruct Hrest as (pre & -> & Hpre).
      destruct (upto_last_brace rest) as [t |] eqn:Ht; [| discriminate].
      apply upto_last_brace_spec in Ht. destruct Ht as (mid & post & -> & Hpost & ->).
      intros [= <-]. exists pre, mid, post. repeat split; auto.
    - intros (pre & mid & post & -> & Hpre & Hpost & ->).
      rewrite append_assoc3.
      rewrite (proj2 (after_first_brace_spec _ (mid ++ String "}" post)))
        by (exists pre; split; [reflexivity | exact Hpre]).
      rewrite (proj2 (upto_last_brace_spec _ (mid ++ "}")))
        by (exists mid, post; repeat split; auto).
      reflexivity. }
  split; [exact Hsome |].
  intros response. split.
  - intros Hnone pre mid post Heq. unfold jsonMatch in Hnone.
    destruct (after_first_brace response) as [rest |] eqn:Hrest.
    + apply after_first_brace_spec in Hrest. destruct Hrest as (pre0 & Hr & Hpre0).
      rewrite Heq, append_assoc3 in Hr. symmetry in Hr.
      destruct (after_first_brace_suffix _ _ _ _ Hr Hpre0) as [y ->].
      destruct (upto_last_brace (y ++ mid ++ String "}" post)) as [t |] eqn:Ht;
        [discriminate |].
      apply upto_last_brace_none in Ht.
      rewrite !no_char_app in Ht. simpl in Ht.
      rewrite !andb_false_r in Ht. discriminate.
    + apply after_first_brace_none in Hrest. rewrite Heq, append_assoc3 in Hrest.
      rewrite no_char_app in Hrest. simpl in Hrest.
      rewrite andb_false_r in Hrest. discriminate.
  - intros Hno. destruct (jsonMatch response) as [json |] eqn:Hj; [| reflexivity].
    apply Hsome in Hj. destruct Hj as (pre & mid & post & Heq & _).
    elim (Hno pre mid post Heq).
Qed.

(** ** Offers with an empty name or without a name *)

Lemma includes_empty s : JS.includes s "" = true.
Proof. destruct s; reflexivity. Qed.

Lemma nameMatch_missing_name c d :
  DOffer.offerName d = None ->
  Reconcile.nameMatch c d = true
  <-> exists cn, Offer.offerName c = Some cn /\ ci_substring "undefined" cn.
Proof.
  intros Hd. unfold Reconcile.nameMatch, Filter.nameMatch, Filter.chain_includes.
  rewrite Hd.
  rewrite orb_false_r. destruct (Offer.offerName c) as [cn |].
  - cbn [option_map JS.ToString]. rewrite includes_spec. unfold ci_substring.
    split; [intros H; exists cn; split; [reflexivity | exact H] |].
    intros (cn' & [= <-] & H). exact H.
  - split; [discriminate | intros (cn & Hc & _); discriminate].
Qed.

(** Every name contains the empty name.  When a reference offer of the
    venue has the empty name, no discovered offer with a name is new; when
    a reference offer has a name, no discovered offer with the empty name
    is new; and a discovered offer without a name is matched by name by the
    reference offers whose name contains the text [undefined]. *)
Theorem empty_names_match_every_name current discovered :
  ((exists c, In c current /\ Offer.offerName c = Some "") ->
   forall d, In d (Reconcile.newOffers current discovered) -> DOffer.offerName d = None)
  /\ ((exists c, In c current /\ Offer.offerName c <> None) ->
      forall d, In d (Reconcile.newOffers current discovered) ->
                DOffer.offerName d <> Some "")
  /\ (forall c d, DOffer.offerName d = None ->
        Reconcile.nameMatch c d = true
        <-> exists cn, Offer.offerName c = Some cn /\ ci_substring "undefined" cn).
Proof.
  split; [| split].
  - intros (c & Hin & Hc) d Hd.
    unfold Reconcile.newOffers in Hd. apply filter_In in Hd. destruct Hd as [_ Hd].
    apply negb_true_iff in Hd.
    destruct (DOffer.offerName d) as [dn |] eqn:Hdn; [| reflexivity].
    assert (Ht : Reconcile.exists_ current d = true).
    { unfold Reconcile.exists_, Filter.exists_. apply existsb_exists. exists c.
      split; [exact Hin |].
      unfold Reconcile.offerMatches, Filter.offerMatches, Filter.nameMatch,
        Filter.chain_includes.
      rewrite Hc, Hdn. cbn [option_map JS.ToString JS.toLowerCase].
      rewrite includes_empty, orb_true_r. reflexivity. }
    unfold Reconcile.exists_ in Ht. congruence.
  - intros (c & Hin & Hc) d Hd Hdn.
    unfold Reconcile.newOffers in Hd. apply filter_In in Hd. destruct Hd as [_ Hd].
    apply negb_true_iff in Hd.
    destruct (Offer.offerName c) as [cn |] eqn:Hcn; [| elim Hc; reflexivity].
    assert (Ht : Reconcile.exists_ current d = true).
    { unfold Reconcile.exists_, Filter.exists_. apply existsb_exists. exists c.
      split; [exact Hin |].
      unfold Reconcile.offerMatches, Filter.offerMatches, Filter.nameMatch,
        Filter.chain_includes.
      rewrite Hcn, Hdn. cbn [option_map JS.ToString JS.toLowerCase].
      rewrite includes_empty. reflexivity. }
    unfold Reconcile.exists_ in Ht. congruence.
  - apply nameMatch_missing_name.
Qed.

Lemma empty_names_match_every_name_witness :
  Reconcile.newOffers
    [reference_offer "Acme Casino" "NJ" "New Jersey" "" "welcome" 100]
    [DOffer.mk (Some "Free Spins") (Some "no-deposit") None (Some 50%float) None None]
  = [].
Proof.
  destruct (Reconcile.newOffers _ _) as [| d l] eqn:H; [reflexivity |].
  exfalso.
  assert (Hc : exists c,
             In c [reference_offer "Acme Casino" "NJ" "New Jersey" "" "welcome" 100]
             /\ Offer.offerName c = Some "").
  { eexists. split; [left; reflexivity | reflexivity]. }
  assert (Hd : In d (Reconcile.newOffers
                       [reference_offer "Acme Casino" "NJ" "New Jersey" "" "welcome" 100]
                       [DOffer.mk (Some "Free Spins") (Some "no-deposit") None
                          (Some 50%float) None None])).
  { rewrite H. left. reflexivity. }
  pose proof (proj1 (empty_names_match_every_name _ _) Hc d Hd) as Hn.
  apply filter_In in Hd. destruct Hd as [[<- | []] _]. discriminate Hn.
Defined.

(** ** The reference import *)

Lemma wp_fold_of A S (I : list A -> S -> World -> Prop) R (body : S -> A -> M S) :
  forall post pre s w,
    I pre s w ->
    (forall pre' x post' s' w', (pre ++ post = pre' ++ x :: post')%list -> I pre' s' w' ->
        wp (body s' x) (fun s'' => I (pre' ++ [x])%list s'') R w') ->
    wp (fold_of post body s) (fun s' => I (pre ++ post)%list s') R w.
Proof.
  induction post as [| x post IH]; intros pre s w HI Hbody; simpl.
  - rewrite app_nil_r. exact HI.
  - apply wp_bind.
    apply wp_mono with (Q := fun s' => I (pre ++ [x])%list s') (R := R).
    + apply (Hbody pre x post s w); auto.
    + intros s' w' HI'.
      replace (pre ++ x :: post)%list with ((pre ++ [x]) ++ post)%list
        by (rewrite <- app_assoc; reflexivity).
      apply IH; auto.
      intros pre' y post' s'' w'' Heq. apply Hbody with (post' := post').
      rewrite <- Heq, <- app_assoc. reflexivity.
    + auto.
Qed.

(** *** Upserts *)

Lemma upsert_map_key A K (key : A -> K) f u fresh l :
  (forall x, f x = true -> key (u x) = key x) ->
  map key (upsert f u fresh l)
  = (map key l ++ (if existsb f l then [] else [key fresh]))%list.
Proof.
  intros Hu. induction l as [| x l IH]; simpl; [reflexivity |].
  destruct (f x) eqn:Hf; simpl.
  - rewrite app_nil_r, (Hu x Hf). reflexivity.
  - rewrite IH. reflexivity.
Qed.

Lemma upsert_In_kept A f u fresh (l : list A) x :
  In x l -> f x = false -> In x (upsert f u fresh l).
Proof.
  induction l as [| y l IH]; simpl; [tauto |].
  intros [-> | Hin] Hf.
  - rewrite Hf. left. reflexivity.
  - destruct (f y); [right; exact Hin | right; apply IH; assumption].
Qed.

Lemma upsert_In A f u fresh (l : list A) x :
  In x l -> In x (upsert f u fresh l) \/ (f x = true /\ In (u x) (upsert f u fresh l)).
Proof.
  induction l as [| y l IH]; simpl; [tauto |].
  intros [-> | Hin].
  - destruct (f x) eqn:Hf; [right; split; [reflexivity | left; reflexivity] |].
    left. left. reflexivity.
  - destruct (f y).
    + left. right. exact Hin.
    + destruct (IH Hin) as [H | [Hf H]]; [left; right; exact H |].
      right. split; [exact Hf | right; exact H].
Qed.

Lemma upsert_hit A (Q : A -> Prop) f u fresh (l : list A) :
  (forall x, f x = true -> Q (u x)) -> Q fresh ->
  exists x, In x (upsert f u fresh l) /\ Q x.
Proof.
  intros Hu Hfresh. induction l as [| y l IH]; simpl.
  - exists fresh. split; [left; reflexivity | exact Hfresh].
  - destruct (f y) eqn:Hf.
    + exists (u y). split; [left; reflexivity | apply Hu; exact Hf].
    + destruct IH as (x & Hin & Hx). exists x. split; [right; exact Hin | exact Hx].
Qed.

Lemma existsb_map A B (f : A -> B) (p : B -> bool) l :
  existsb p (map f l) = existsb (fun x => p (f x)) l.
Proof. induction l as [| x l IH]; simpl; [| rewrite IH]; reflexivity. Qed.

Lemma absorb_app K (eqb : K -> K -> bool) l ks k :
  absorb eqb l (ks ++ [k])
  = if existsb (fun k' => eqb k' k) (absorb eqb l ks) then absorb eqb l ks
    else (absorb eqb l ks ++ [k])%list.
Proof. unfold absorb. rewrite fold_left_app. reflexivity. Qed.

Lemma offer_key_eqb_eq a b : offer_key_eqb a b = true <-> a = b.
Proof.
  destruct a as [[a1 a2] a3], b as [[b1 b2] b3]. unfold offer_key_eqb. simpl.
  rewrite !andb_true_iff, !String.eqb_eq. split.
  - intros [[-> ->] H]. destruct a3 as [x |], b3 as [y |]; simpl in H;
      try discriminate; [apply String.eqb_eq in H; subst |]; reflexivity.
  - intros [= -> -> ->]. repeat split. destruct b3; simpl; [apply String.eqb_refl | reflexivity].
Qed.

Lemma venue_key_eqb_eq a b : venue_key_eqb a b = true <-> a = b.
Proof.
  destruct a as [a1 a2], b as [b1 b2]. unfold venue_key_eqb. simpl.
  rewrite andb_true_iff, !String.eqb_eq. split; [intros [-> ->] | intros [= -> ->]]; auto.
Qed.

Lemma offer_filter_key item st o :
  offer_filter item st o
  = offer_key_eqb (offer_key o)
      (Item.Name item, ItemState.Abbreviation st, Some (Item.Offer_Name item)).
Proof. reflexivity. Qed.

Lemma casino_filter_key e c :
  casino_filter e c = venue_key_eqb (venue_key c) (entry_key e).
Proof. reflexivity. Qed.

Lemma offer_keys_app l l' : offer_keys (l ++ l') = (offer_keys l ++ offer_keys l')%list.
Proof. unfold offer_keys. apply flat_map_app. Qed.

Lemma collected_app l item :
  collected (l ++ [item])
  = match Item.state item with
    | Some st =>
        let key := casinoKey (Item.Name item) (ItemState.Abbreviation st) in
        if CasinoMap.has key (collected l) then collected l
        else CasinoMap.set key
               (Entry.mk (Item.Name item) (ItemState.Name st)
                  (ItemState.Abbreviation st) (Item.casinodb_id item)) (collected l)
    | None => collected l
    end.
Proof. unfold collected. rewrite fold_left_app. reflexivity. Qed.

Section Importing.

Variable E : Env.

Hypothesis no_fault : no_store_fault E.

Lemma wp_store_op_ok (Q : unit -> World -> Prop) R w :
  Q tt (tick w) -> wp (store_op E) Q R w.
Proof.
  intros H. apply wp_store_op; [intros _; exact H |].
  intros m Hm. rewrite no_fault in Hm. discriminate.
Qed.

Lemma import_item_spec w0 pre item st locals w :
  Item.state item = Some st ->
  offers_imported w0 pre locals w ->
  wp (import_item E locals item)
     (fun locals' => offers_imported w0 (pre ++ [item]) locals')
     (fun _ _ => False) w.
Proof.
  intros Hst (Hc & Hkeys & Hpres & Hkept & Hm & Hn).
  unfold import_item, state_receiver, Offer_findOneAndUpdate, new_Date.
  rewrite Hst. repeat wp_step. apply wp_store_op_ok. repeat wp_step.
  set (k := (Item.Name item, ItemState.Abbreviation st, Some (Item.Offer_Name item))).
  assert (Hk : offer_keys [item] = [k]).
  { unfold offer_keys. simpl. rewrite Hst. reflexivity. }
  assert (Hupd : forall x, offer_filter item st x = true ->
                   offer_key (offer_update item st (now E (ops w)) x) = offer_key x).
  { intros x Hx. rewrite offer_filter_key in Hx. apply offer_key_eqb_eq in Hx.
    rewrite Hx. reflexivity. }
  split; [exact Hc | split; [| split; [| split; [| split]]]]; cbn [offers tick with_offers].
  - rewrite offer_keys_app, Hk, absorb_app, <- Hkeys.
    rewrite (upsert_map_key _ _ offer_key _ _ _ _ Hupd).
    rewrite existsb_map.
    change (existsb (fun x => offer_key_eqb (offer_key x) k) (offers w))
      with (existsb (offer_filter item st) (offers w)).
    destruct (existsb (offer_filter item st) (offers w)); [apply app_nil_r | reflexivity].
  - intros k' Hin. rewrite offer_keys_app, Hk in Hin. apply in_app_or in Hin.
    destruct Hin as [Hin | [<- | []]].
    + destruct (Hpres k' Hin) as (o & Ho & Hko & Hr).
      destruct (upsert_In _ (offer_filter item st)
                  (offer_update item st (now E (ops w)))
                  (offer_fresh item st (now E (ops w))) _ _ Ho) as [H | [Hf H]].
      * exists o. auto.
      * exists (offer_update item st (now E (ops w)) o).
        split; [exact H | split; [| split; reflexivity]].
        rewrite (Hupd o Hf). exact Hko.
    + apply (upsert_hit _ (fun o => offer_key o = k /\ reference_document o)).
      * intros x Hx. split; [| split; reflexivity].
        rewrite (Hupd x Hx). rewrite offer_filter_key in Hx.
        apply offer_key_eqb_eq in Hx. exact Hx.
      * split; [reflexivity | split; reflexivity].
  - intros o Ho Hno. rewrite offer_keys_app, Hk, existsb_app in Hno.
    apply orb_false_iff in Hno. destruct Hno as [Hno1 Hno2].
    simpl in Hno2. rewrite orb_false_r in Hno2.
    apply upsert_In_kept; [apply Hkept; assumption |].
    rewrite offer_filter_key. exact Hno2.
  - cbn [fst]. rewrite collected_app, Hst, <- Hm. reflexivity.
  - cbn [snd]. rewrite length_app, Hn. simpl. lia.
Qed.

Lemma import_casino_spec w0 pre e n w :
  venues_imported w0 pre n w ->
  wp (import_casino E n e)
     (fun n' => venues_imported w0 (pre ++ [e]) n')
     (fun _ _ => False) w.
Proof.
  intros (Ho & Hkeys & Hpres & Hkept & Hn).
  unfold import_casino, Casino_findOneAndUpdate, new_Date.
  repeat wp_step. apply wp_store_op_ok. repeat wp_step.
  set (fresh := casino_fresh e (now E (ops w)) (new_ObjectId E (ops w)) (now E (ops w))).
  assert (Hupd : forall x, casino_filter e x = true ->
                   venue_key (casino_update e (now E (ops w)) x) = venue_key x).
  { intros x Hx. rewrite casino_filter_key in Hx. apply venue_key_eqb_eq in Hx.
    rewrite Hx. reflexivity. }
  split; [exact Ho | split; [| split; [| split]]]; cbn [casinos tick with_casinos].
  - rewrite map_app. cbn [map]. rewrite absorb_app, <- Hkeys.
    rewrite (upsert_map_key _ _ venue_key _ _ _ _ Hupd).
    rewrite existsb_map.
    change (existsb (fun x => venue_key_eqb (venue_key x) (entry_key e)) (casinos w))
      with (existsb (casino_filter e) (casinos w)).
    destruct (existsb (casino_filter e) (casinos w)); [apply app_nil_r | reflexivity].
  - intros e' Hin. apply in_app_or in Hin. destruct Hin as [Hin | [<- | []]].
    + destruct (Hpres e' Hin) as (c & Hc & Hkc & Hd).
      destruct (upsert_In _ (casino_filter e) (casino_update e (now E (ops w))) fresh
                  _ _ Hc) as [H | [Hf H]].
      * exists c. auto.
      * exists (casino_update e (now E (ops w)) c).
        split; [exact H | split; [| reflexivity]].
        rewrite (Hupd c Hf). exact Hkc.
    + apply (upsert_hit _ (fun c => venue_key c = entry_key e
                                     /\ Casino.discovered c = false)).
      * intros x Hx. split; [| reflexivity].
        rewrite (Hupd x Hx). rewrite casino_filter_key in Hx.
        apply venue_key_eqb_eq in Hx. exact Hx.
      * split; reflexivity.
  - intros c Hc Hno. rewrite map_app, existsb_app in Hno. cbn [map] in Hno.
    apply orb_false_iff in Hno. destruct Hno as [Hno1 Hno2].
    simpl in Hno2. rewrite orb_false_r in Hno2.
    apply upsert_In_kept; [apply Hkept; assumption |].
    rewrite casino_filter_key. exact Hno2.
  - rewrite length_app, Hn. simpl. lia.
Qed.

Lemma research_init_spec items w :
  with_state items ->
  wp (research_init E (inr items))
     (fun reply w' =>
        exists w1 n,
          offers_imported w items (collected items, length items) w1
          /\ venues_imported w1 (CasinoMap.values (collected items)) n w'
          /\ reply
             = Json (InitBody.mk true (length items) n
                       ("Imported " ++ JS.string_of_nat (length items)
                        ++ " offers from " ++ JS.string_of_nat n ++ " casinos")))
     (fun _ _ => False) w.
Proof.
  intros Hst. unfold research_init, axios_get.
  apply wp_try_catch. repeat wp_step.
  eapply wp_mono with (R := fun _ _ => False); [| | intros e w' []].
  - apply (wp_fold_of Item.t (CasinoMap.t * nat) (offers_imported w)
             (fun _ _ => False) (import_item E) items [] ([], 0) w).
    + repeat split; auto. intros k [].
    + intros pre x post s w' Heq HI. simpl in Heq.
      unfold with_state in Hst. rewrite Forall_forall in Hst.
      destruct (Item.state x) as [st |] eqn:Hx.
      * apply (import_item_spec w pre x st); assumption.
      * elim (Hst x); [rewrite Heq; apply in_or_app; right; left; reflexivity | exact Hx].
  - cbv beta. simpl app. intros locals w1 HI. repeat wp_step.
    assert (Hl : locals = (collected items, length items)).
    { destruct HI as (_ & _ & _ & _ & Hm & Hn). destruct locals. simpl in *. congruence. }
    subst locals. cbn [fst snd].
    eapply wp_mono with (R := fun _ _ => False); [| | intros e w' []].
    + apply (wp_fold_of Entry.t nat (venues_imported w1) (fun _ _ => False)
               (import_casino E) (CasinoMap.values (collected items)) [] 0 w1).
      * repeat split; auto. intros e [].
      * intros pre x post s w' _ HI'. apply import_casino_spec. exact HI'.
    + cbv beta. simpl app. intros n w' HV. apply wp_ret.
      exists w1, n. repeat split; auto; apply HI || apply HV.
Qed.

End Importing.

(** *** Keys absorbed by a collection *)

Lemma absorb_cons K (eqb : K -> K -> bool) l k ks :
  absorb eqb l (k :: ks)
  = absorb eqb (if existsb (fun k' => eqb k' k) l then l else (l ++ [k])%list) ks.
Proof. reflexivity. Qed.

Lemma absorb_extends K (eqb : K -> K -> bool) ks :
  forall l, exists l', absorb eqb l ks = (l ++ l')%list /\ forall k, In k l' -> In k ks.
Proof.
  induction ks as [| k ks IH]; intros l.
  - exists []. split; [symmetry; apply app_nil_r | intros k []].
  - rewrite absorb_cons.
    destruct (existsb (fun k' => eqb k' k) l).
    + destruct (IH l) as (l' & Heq & Hin). exists l'. split; [exact Heq |].
      intros k0 H. right. apply Hin. exact H.
    + destruct (IH (l ++ [k])%list) as (l' & Heq & Hin). exists (k :: l').
      split; [rewrite Heq, <- app_assoc; reflexivity |].
      intros k0 [<- | H]; [left; reflexivity | right; apply Hin; exact H].
Qed.

Lemma absorb_fixed K (eqb : K -> K -> bool) ks :
  forall l, (forall k, In k ks -> existsb (fun k' => eqb k' k) l = true) ->
            absorb eqb l ks = l.
Proof.
  induction ks as [| k ks IH]; intros l H; [reflexivity |].
  rewrite absorb_cons.
  rewrite (H k) by (left; reflexivity). apply IH.
  intros k0 Hin. apply H. right. exact Hin.
Qed.

Lemma absorb_present K (eqb : K -> K -> bool) ks :
  (forall k, eqb k k = true) ->
  forall l k, In k ks -> existsb (fun k' => eqb k' k) (absorb eqb l ks) = true.
Proof.
  intros Hrefl. induction ks as [| k0 ks IH] using rev_ind; intros l k Hin; [elim Hin |].
  rewrite absorb_app. apply in_app_or in Hin.
  destruct (existsb (fun k' => eqb k' k0) (absorb eqb l ks)) eqn:Hex.
  - destruct Hin as [Hin | [<- | []]]; [apply IH; exact Hin | exact Hex].
  - rewrite existsb_app. destruct Hin as [Hin | [<- | []]].
    + rewrite (IH l k Hin). reflexivity.
    + simpl. rewrite Hrefl. apply orb_true_iff. right. reflexivity.
Qed.

Lemma absorb_idempotent K (eqb : K -> K -> bool) l ks :
  (forall k, eqb k k = true) ->
  absorb eqb (absorb eqb l ks) ks = absorb eqb l ks.
Proof.
  intros Hrefl. apply absorb_fixed. intros k Hin. apply absorb_present; assumption.
Qed.

Lemma offer_key_eqb_refl k : offer_key_eqb k k = true.
Proof. apply offer_key_eqb_eq. reflexivity. Qed.

Lemma venue_key_eqb_refl k : venue_key_eqb k k = true.
Proof. apply venue_key_eqb_eq. reflexivity. Qed.

(** *** The map of venues *)

Lemma has_In key m : CasinoMap.has key m = true <-> In key (map fst m).
Proof.
  unfold CasinoMap.has. rewrite existsb_exists, in_map_iff. split.
  - intros (p & Hin & Hp). apply String.eqb_eq in Hp. exists p. auto.
  - intros (p & Hp & Hin). exists p. split; [exact Hin | apply String.eqb_eq; exact Hp].
Qed.

Lemma set_absent key value m :
  CasinoMap.has key m = false -> CasinoMap.set key value m = (m ++ [(key, value)])%list.
Proof.
  unfold CasinoMap.has. induction m as [| [k v] m IH]; simpl; [reflexivity |].
  intros H. apply orb_false_iff in H. destruct H as [Hk H].
  rewrite Hk, (IH H). reflexivity.
Qed.

Lemma casino_keys_app l l' : casino_keys (l ++ l') = (casino_keys l ++ casino_keys l')%list.
Proof. unfold casino_keys. apply flat_map_app. Qed.

Lemma venue_keys_app l l' : venue_keys (l ++ l') = (venue_keys l ++ venue_keys l')%list.
Proof. unfold venue_keys. apply flat_map_app. Qed.

(** The keys of the map are the keys of the items, each once. *)
Lemma collected_keys items :
  NoDup (map fst (collected items))
  /\ (forall k, In k (map fst (collected items)) <-> In k (casino_keys items)).
Proof.
  induction items as [| item items IH] using rev_ind.
  - split; [constructor | intros k; split; intros []].
  - destruct IH as [Hnd Hin]. rewrite collected_app, casino_keys_app.
    destruct (Item.state item) as [st |] eqn:Hst.
    + cbv zeta.
      assert (Hk : casino_keys [item]
                   = [casinoKey (Item.Name item) (ItemState.Abbreviation st)]).
      { unfold casino_keys. simpl. rewrite Hst. reflexivity. }
      rewrite Hk.
      destruct (CasinoMap.has (casinoKey (Item.Name item) (ItemState.Abbreviation st))
                  (collected items)) eqn:Hhas.
      * split; [exact Hnd |]. intros k. rewrite in_app_iff, <- Hin. split; [tauto |].
        intros [H | [<- | []]]; [exact H | apply has_In; exact Hhas].
      * rewrite set_absent by exact Hhas. rewrite map_app. cbn [map fst].
        split.
        -- apply NoDup_app; [exact Hnd | repeat constructor; intros [] |].
           intros k Hk1 [<- | []]. apply has_In in Hk1. congruence.
        -- intros k. rewrite !in_app_iff, <- Hin. tauto.
    + assert (Hk : casino_keys [item] = []).
      { unfold casino_keys. simpl. rewrite Hst. reflexivity. }
      rewrite Hk, app_nil_r. split; assumption.
Qed.

(** Every entry of the map is filed under the key of its own name and
    jurisdiction code, which are those of an item. *)
Lemma collected_entries items :
  forall k e, In (k, e) (collected items) ->
    k = casinoKey (Entry.name e) (Entry.stateAbbreviation e)
    /\ In (entry_key e) (venue_keys items).
Proof.
  induction items as [| item items IH] using rev_ind; intros k e Hin; [elim Hin |].
  rewrite collected_app in Hin. rewrite venue_keys_app, in_app_iff.
  destruct (Item.state item) as [st |] eqn:Hst.
  - cbv zeta in Hin.
    destruct (CasinoMap.has (casinoKey (Item.Name item) (ItemState.Abbreviation st))
                (collected items)) eqn:Hhas.
    + destruct (IH k e Hin) as [H1 H2]. auto.
    + rewrite set_absent in Hin by exact Hhas. apply in_app_or in Hin.
      destruct Hin as [Hin | [[= <- <-] | []]].
      * destruct (IH k e Hin) as [H1 H2]. auto.
      * split; [reflexivity |]. right. unfold venue_keys. simpl. rewrite Hst.
        left. reflexivity.
  - destruct (IH k e Hin) as [H1 H2]. auto.
Qed.

Lemma casinoKey_injective n a n' a' :
  no_char "-" a = true -> no_char "-" a' = true ->
  casinoKey n a = casinoKey n' a' -> n = n' /\ a = a'.
Proof.
  unfold casinoKey. intros Ha Ha'. revert n'.
  induction n as [| c n IH]; intros [| c' n'] Heq; simpl in Heq.
  - injection Heq as ->. auto.
  - injection Heq as <- ->. rewrite no_char_app in Ha. simpl in Ha.
    rewrite andb_false_r in Ha. discriminate.
  - injection Heq as -> <-. rewrite no_char_app in Ha'. simpl in Ha'.
    rewrite andb_false_r in Ha'. discriminate.
  - injection Heq as -> Heq. destruct (IH n' Heq) as [-> ->]. auto.
Qed.

Lemma hyphen_free_keys items k :
  hyphen_free items -> In k (venue_keys items) -> no_char "-" (snd k) = true.
Proof.
  unfold hyphen_free, venue_keys. rewrite Forall_forall. intros Hf Hin.
  apply in_flat_map in Hin. destruct Hin as (item & Hitem & Hk).
  specialize (Hf item Hitem). destruct (Item.state item) as [st |]; [| elim Hk].
  destruct Hk as [<- | []]. exact Hf.
Qed.

(** When no jurisdiction code has a hyphen, the map has an entry for the
    venue of every item. *)
Lemma collected_covers items k :
  hyphen_free items -> In k (venue_keys items) ->
  exists e, In e (CasinoMap.values (collected items)) /\ entry_key e = k.
Proof.
  intros Hf Hk.
  assert (Hkey : In (casinoKey (fst k) (snd k)) (casino_keys items)).
  { unfold venue_keys in Hk. unfold casino_keys. apply in_flat_map in Hk.
    destruct Hk as (item & Hitem & Hk). apply in_flat_map. exists item.
    split; [exact Hitem |]. destruct (Item.state item) as [st |]; [| elim Hk].
    destruct Hk as [<- | []]. left. reflexivity. }
  apply (proj2 (collected_keys items)) in Hkey. apply in_map_iff in Hkey.
  destruct Hkey as ([k0 e] & Hk0 & Hin). simpl in Hk0. subst k0.
  destruct (collected_entries items _ e Hin) as [Heq He].
  exists e. split; [unfold CasinoMap.values; apply in_map_iff; exists (casinoKey (fst k) (snd k), e); auto |].
  symmetry in Heq.
  apply casinoKey_injective in Heq;
    [| apply (hyphen_free_keys items (entry_key e)); assumption
     | apply (hyphen_free_keys items k); assumption].
  destruct Heq as [H1 H2]. unfold entry_key. destruct k. simpl in *. congruence.
Qed.

(** *** Whole imports *)

Lemma import_run E items w :
  no_store_fault E -> with_state items ->
  exists w1 n,
    offers_imported w items (collected items, length items) w1
    /\ venues_imported w1 (CasinoMap.values (collected items)) n (imported E items w)
    /\ import_reply E items w
       = inr (Json (InitBody.mk true (length items) n
                      ("Imported " ++ JS.string_of_nat (length items)
                       ++ " offers from " ++ JS.string_of_nat n ++ " casinos"))).
Proof.
  intros Hnf Hst. pose proof (research_init_spec E Hnf items w Hst) as H.
  unfold wp in H. unfold imported, import_reply.
  destruct (research_init E (inr items) w) as [w' [e | reply]]; [elim H |].
  destruct H as (w1 & n & H1 & H2 & ->). exists w1, n. auto.
Qed.

(** The import answers with the number of items and the number of
    distinct venue keys among them: [offersImported] counts the items, also
    when several of them are upserts of one document. *)
Theorem import_reply_counts E items w :
  no_store_fault E -> with_state items ->
  exists keys,
    NoDup keys /\ (forall k, In k keys <-> In k (casino_keys items))
    /\ import_reply E items w
       = inr (Json (InitBody.mk true (length items) (length keys)
                      ("Imported " ++ JS.string_of_nat (length items)
                       ++ " offers from " ++ JS.string_of_nat (length keys)
                       ++ " casinos"))).
Proof.
  intros Hnf Hst.
  destruct (import_run E items w Hnf Hst) as (w1 & n & _ & (_ & _ & _ & _ & Hn) & Hr).
  destruct (collected_keys items) as [Hnd Hin].
  exists (map fst (collected items)). split; [exact Hnd | split; [exact Hin |]].
  rewrite Hr, Hn. unfold CasinoMap.values. rewrite !length_map. reflexivity.
Qed.

(** The offers after an import: the keys of the collection are its keys
    before, followed by the keys of the items that no document had, each
    once; every item has a document with its key that is a verified
    reference offer; and a document whose key is the key of no item is
    still there. *)
Theorem import_upserts_offers_by_key E items w :
  no_store_fault E -> with_state items ->
  map offer_key (offers (imported E items w))
  = absorb offer_key_eqb (map offer_key (offers w)) (offer_keys items)
  /\ (forall k, In k (offer_keys items) ->
        exists o, In o (offers (imported E items w))
                  /\ offer_key o = k /\ reference_document o)
  /\ (forall o, In o (offers w) -> ~ In (offer_key o) (offer_keys items) ->
        In o (offers (imported E items w))).
Proof.
  intros Hnf Hst.
  destruct (import_run E items w Hnf Hst)
    as (w1 & n & (_ & Hkeys & Hpres & Hkept & _) & (Ho & _) & _).
  rewrite Ho. split; [exact Hkeys | split; [exact Hpres |]].
  intros o Hin Hno. apply Hkept; [exact Hin |].
  destruct (existsb (fun k => offer_key_eqb (offer_key o) k) (offer_keys items)) eqn:Hex;
    [| reflexivity].
  apply existsb_exists in Hex. destruct Hex as (k & Hk & Heq).
  apply offer_key_eqb_eq in Heq. subst k. elim (Hno Hk).
Qed.

(** Importing the same items again adds no document and gives the same
    answer. *)
Theorem import_twice_adds_nothing E items w :
  no_store_fault E -> with_state items ->
  map offer_key (offers (imported E items (imported E items w)))
  = map offer_key (offers (imported E items w))
  /\ map venue_key (casinos (imported E items (imported E items w)))
     = map venue_key (casinos (imported E items w))
  /\ import_reply E items (imported E items w) = import_reply E items w.
Proof.
  intros Hnf Hst.
  destruct (import_run E items w Hnf Hst)
    as (w1 & n & (Hc1 & Hk1 & _) & (Ho1 & Hv1 & _ & _ & Hn1) & Hr1).
  destruct (import_run E items (imported E items w) Hnf Hst)
    as (w2 & n' & (Hc2 & Hk2 & _) & (Ho2 & Hv2 & _ & _ & Hn2) & Hr2).
  split; [| split].
  - rewrite Ho2, Hk2, Ho1, Hk1. apply absorb_idempotent. apply offer_key_eqb_refl.
  - rewrite Hv2, Hc2, Hv1. apply absorb_idempotent. apply venue_key_eqb_refl.
  - rewrite Hr1, Hr2, Hn1, Hn2. reflexivity.
Qed.

(** The venues after an import, when no jurisdiction code has a hyphen:
    every item has a stored venue with its name and jurisdiction code that
    is not flagged as discovered.  In any case a stored venue has the name
    and code of a venue stored before or of an item, and a venue that is
    the venue of no item is still there. *)
Theorem import_stores_a_venue_per_item E items w :
  no_store_fault E -> with_state items ->
  (hyphen_free items ->
   forall k, In k (venue_keys items) ->
     exists c, In c (casinos (imported E items w))
               /\ venue_key c = k /\ Casino.discovered c = false)
  /\ (forall c, In c (casinos (imported E items w)) ->
        In (venue_key c) (map venue_key (casinos w)) \/ In (venue_key c) (venue_keys items))
  /\ (forall c, In c (casinos w) -> ~ In (venue_key c) (venue_keys items) ->
        In c (casinos (imported E items w))).
Proof.
  intros Hnf Hst.
  destruct (import_run E items w Hnf Hst)
    as (w1 & n & (Hc1 & _) & (_ & Hv & Hpres & Hkept & _) & _).
  assert (Hentries : forall k, In k (map entry_key (CasinoMap.values (collected items))) ->
                               In k (venue_keys items)).
  { intros k Hk. apply in_map_iff in Hk. destruct Hk as (e & <- & He).
    unfold CasinoMap.values in He. apply in_map_iff in He.
    destruct He as ([k0 e0] & He0 & Hin). simpl in He0. subst e0.
    apply (collected_entries items k0 e Hin). }
  split; [| split].
  - intros Hhf k Hk. destruct (collected_covers items k Hhf Hk) as (e & He & <-).
    apply Hpres. exact He.
  - intros c Hc. apply (in_map venue_key) in Hc. rewrite Hv, Hc1 in Hc.
    destruct (absorb_extends _ venue_key_eqb
                (map entry_key (CasinoMap.values (collected items)))
                (map venue_key (casinos w))) as (l' & Heq & Hl').
    rewrite Heq in Hc. apply in_app_or in Hc.
    destruct Hc as [Hc | Hc]; [left; exact Hc | right; apply Hentries, Hl'; exact Hc].
  - intros c Hc Hno. apply Hkept; [rewrite Hc1; exact Hc |].
    destruct (existsb (fun k => venue_key_eqb (venue_key c) k)
                (map entry_key (CasinoMap.values (collected items)))) eqn:Hex;
      [| reflexivity].
    apply existsb_exists in Hex. destruct Hex as (k & Hk & Heq).
    apply venue_key_eqb_eq in Heq. subst k. elim (Hno (Hentries _ Hk)).
Qed.

Lemma import_reply_counts_witness :
  exists keys,
    NoDup keys /\ (forall k, In k keys <-> In k (casino_keys ReferenceData.items))
    /\ import_reply ReferenceData.env ReferenceData.items ReferenceData.empty
       = inr (Json (InitBody.mk true 3 (length keys)
                      ("Imported " ++ JS.string_of_nat 3 ++ " offers from "
                       ++ JS.string_of_nat (length keys) ++ " casinos"))).
Proof.
  apply (import_reply_counts ReferenceData.env ReferenceData.items ReferenceData.empty).
  - intros n. reflexivity.
  - repeat constructor; discriminate.
Defined.

Lemma import_upserts_offers_by_key_witness :
  map offer_key (offers (imported ReferenceData.env ReferenceData.items ReferenceData.empty))
  = [("Acme Casino", "NJ", Some "Welcome Bonus"); ("Acme Casino", "NJ", Some "Free Spins");
     ("Lakeside Casino", "MI", Some "Welcome Bonus")].
Proof.
  rewrite (proj1 (import_upserts_offers_by_key ReferenceData.env ReferenceData.items ReferenceData.empty
                    (fun n => eq_refl)
                    ltac:(repeat constructor; discriminate))).
  reflexivity.
Defined.

Lemma import_twice_adds_nothing_witness :
  map offer_key
      (offers (imported ReferenceData.env ReferenceData.items
                 (imported ReferenceData.env ReferenceData.items ReferenceData.empty)))
  = map offer_key (offers (imported ReferenceData.env ReferenceData.items ReferenceData.empty)).
Proof.
  apply (import_twice_adds_nothing ReferenceData.env ReferenceData.items ReferenceData.empty).
  - intros n. reflexivity.
  - repeat constructor; discriminate.
Defined.

Lemma import_stores_a_venue_per_item_witness :
  exists c, In c (casinos (imported ReferenceData.env ReferenceData.items ReferenceData.empty))
            /\ venue_key c = ("Lakeside Casino", "MI") /\ Casino.discovered c = false.
Proof.
  apply (proj1 (import_stores_a_venue_per_item ReferenceData.env ReferenceData.items ReferenceData.empty
                  (fun n => eq_refl)
                  ltac:(repeat constructor; discriminate))).
  - repeat constructor.
  - right. right. left. reflexivity.
Defined.

(** The condition on the jurisdiction codes is needed: two venues whose
    names and codes give one key are collected as one, and the second is
    not stored. *)
Lemma import_merges_venues_with_one_key :
  venue_keys ReferenceData.colliding = [("A-B", "C"); ("A", "B-C")]
  /\ casino_keys ReferenceData.colliding = ["A-B-C"; "A-B-C"]
  /\ map venue_key (casinos (imported ReferenceData.env ReferenceData.colliding ReferenceData.empty))
     = [("A-B", "C")].
Proof. repeat split; vm_compute; reflexivity. Qed.

(** *** Imports that fail *)

Lemma fold_of_app A S (body : S -> A -> M S) l l' :
  forall s w,
    fold_of (l ++ l') body s w
    = bind (fold_of l body s) (fun s' => fold_of l' body s') w.
Proof.
  induction l as [| x l IH]; intros s w; [reflexivity |].
  simpl. unfold bind. destruct (body s x w) as [w' [e | s']]; [reflexivity |].
  exact (IH s' w').
Qed.

Lemma import_prefix E pre w :
  no_store_fault E -> with_state pre ->
  exists w1 locals,
    fold_of pre (import_item E) ([], 0) w = (w1, inr locals)
    /\ offers_imported w pre locals w1.
Proof.
  intros Hnf Hst.
  assert (H : wp (fold_of pre (import_item E) ([], 0))
                 (fun locals => offers_imported w pre locals) (fun _ _ => False) w).
  { apply (wp_fold_of Item.t (CasinoMap.t * nat) (offers_imported w)
             (fun _ _ => False) (import_item E) pre [] ([], 0) w).
    - repeat split; auto. intros k [].
    - intros pre' x post s w' Heq HI. simpl in Heq.
      unfold with_state in Hst. rewrite Forall_forall in Hst.
      destruct (Item.state x) as [st |] eqn:Hx.
      + apply (import_item_spec E Hnf w pre' x st); assumption.
      + elim (Hst x); [rewrite Heq; apply in_or_app; right; left; reflexivity | exact Hx]. }
  unfold wp in H.
  destruct (fold_of pre (import_item E) ([], 0) w) as [w1 [e | locals]]; [elim H |].
  exists w1, locals. auto.
Qed.

(** When the reference API cannot be reached the import writes nothing and
    answers with status 500 and the message of the error.  When an item
    lacks the object [state], the import stops there with status 500: the
    offers of the items before it are upserted, and no venue is written,
    not even the venues of those offers. *)
Theorem import_stops_at_an_item_without_state E pre item post w m :
  no_store_fault E -> with_state pre -> Item.state item = None ->
  research_init E (inl m) w = (w, inr (ErrorJson 500 m))
  /\ import_reply E (pre ++ item :: post)%list w
     = inr (ErrorJson 500 "Cannot read properties of undefined (reading 'Abbreviation')")
  /\ casinos (imported E (pre ++ item :: post)%list w) = casinos w
  /\ map offer_key (offers (imported E (pre ++ item :: post)%list w))
     = absorb offer_key_eqb (map offer_key (offers w)) (offer_keys pre).
Proof.
  intros Hnf Hst Hitem. split; [reflexivity |].
  destruct (import_prefix E pre w Hnf Hst) as (w1 & locals & Hrun & Hc & Hk & _).
  assert (H : research_init E (inr (pre ++ item :: post)%list) w
              = (w1, inr (ErrorJson 500
                   "Cannot read properties of undefined (reading 'Abbreviation')"))).
  { unfold research_init, try_catch, axios_get. unfold bind at 1. unfold ret at 1.
    unfold bind at 1. rewrite fold_of_app. unfold bind at 1. rewrite Hrun.
    cbn [fold_of]. unfold bind at 1. unfold import_item, state_receiver.
    rewrite Hitem. reflexivity. }
  unfold import_reply, imported. rewrite H. cbn [fst snd]. auto.
Qed.

Lemma import_stops_at_an_item_without_state_witness :
  import_reply ReferenceData.env (ReferenceData.items ++ ReferenceData.stateless :: ReferenceData.items)%list ReferenceData.empty
  = inr (ErrorJson 500 "Cannot read properties of undefined (reading 'Abbreviation')")
  /\ casinos (imported ReferenceData.env (ReferenceData.items ++ ReferenceData.stateless :: ReferenceData.items)%list
                ReferenceData.empty) = [].
Proof.
  destruct (import_stops_at_an_item_without_state ReferenceData.env ReferenceData.items
              ReferenceData.stateless ReferenceData.items ReferenceData.empty "timeout"
              (fun n => eq_refl) ltac:(repeat constructor; discriminate) eq_refl)
    as (_ & H1 & H2 & _).
  exact (conj H1 H2).
Defined.

(** ** How a run ends *)

Lemma hushed_untouched : hushed untouched.
Proof. constructor; intros; unfold_inv; cbn in *; assumption. Qed.

Section Ending.

Variable E : Env.

(** The [try] block keeps the record untouched until its final update;
    [Rx e] is what is known when it throws [e]: that the store rejected
    an operation, or that the candidate [c] of a discovery response made
    the venue step throw. *)
Lemma research_body_ends (Rx : Exn -> Prop) w :
  (forall e, faulted E e -> Rx e) ->
  (forall state w0 l c, snd (discoverCasinosByState E state w0) = inr l -> In c l ->
     DCasino.name c = None ->
     Rx (TypeError "Cannot read properties of undefined (reading 'toLowerCase')")) ->
  (forall state w0 l c name m, snd (discoverCasinosByState E state w0) = inr l -> In c l ->
     DCasino.name c = Some name -> new_RegExp E ("^" ++ name ++ "$") = inl m ->
     Rx (SyntaxError m)) ->
  untouched w ->
  wp (research_body E) (fun _ => ended completed) (fun e w' => untouched w' /\ Rx e) w.
Proof.
  intros Hfault Hnone Hbad H0.
  apply research_body_spec with (P0 := untouched) (P := fun _ => untouched);
    auto using hushed_untouched.
  - intros pre x post w' _ HP.
    apply state_step_spec
      with (P := untouched) (Pd := untouched) (V := untouched)
           (P2 := untouched) (L := fun _ _ => untouched) (Pe := untouched);
      auto using hushed_untouched.
    + intros l w0 c w'' Hl Hin HV.
      apply venue_step_spec with (P := untouched) (Mid := fun _ => untouched);
        auto using hushed_untouched.
      * intros w3 Hname HP3. split; [exact HP3 |]. apply (Hnone _ _ _ _ Hl Hin Hname).
      * intros name m w3 Hname Hre HP3. split; [exact HP3 |].
        apply (Hbad _ _ _ _ _ _ Hl Hin Hname Hre).
    + intros all0 pre0 c post0 w'' _ HP2.
      apply offer_step_spec
        with (C := untouched) (D := untouched) (F := fun _ => untouched)
             (Mid := fun _ _ => untouched) (Aft := untouched) (P := untouched);
        auto using hushed_untouched.
  - intros d w' _. repeat split. cbn. discriminate.
Qed.

Lemma research_failed_ends error w :
  untouched w ->
  wp (research_failed E error) (fun _ => ended failed)
     (fun e w' => untouched w' /\ faulted E e) w.
Proof.
  intros H0.
  apply research_failed_spec with (P := untouched) (Pf := ended failed);
    auto using hushed_untouched.
  intros d w' _. repeat split. cbn. discriminate.
Qed.

Lemma performResearch_ends (Rx : Exn -> Prop) w :
  (forall e, faulted E e -> Rx e) ->
  (forall state w0 l c, snd (discoverCasinosByState E state w0) = inr l -> In c l ->
     DCasino.name c = None ->
     Rx (TypeError "Cannot read properties of undefined (reading 'toLowerCase')")) ->
  (forall state w0 l c name m, snd (discoverCasinosByState E state w0) = inr l -> In c l ->
     DCasino.name c = Some name -> new_RegExp E ("^" ++ name ++ "$") = inl m ->
     Rx (SyntaxError m)) ->
  untouched w ->
  wp (performResearch E)
     (fun _ w' => ended completed w' \/ (ended failed w' /\ exists e, Rx e))
     (fun e w' => untouched w' /\ faulted E e) w.
Proof.
  intros Hfault Hnone Hbad H0. unfold performResearch. apply wp_try_catch.
  eapply wp_mono; [apply (research_body_ends Rx); assumption | |]; cbv beta.
  - intros _ w' H. left. exact H.
  - intros e w' [Hu He].
    eapply wp_mono; [apply research_failed_ends; exact Hu | |]; cbv beta.
    + intros _ w'' H. right. split; [exact H | exists e; exact He].
    + auto.
Qed.

End Ending.

(** When [performResearch] returns, the record has a terminal status, a
    completion date and cleared pointers; when it throws, which it does
    only when the store rejects a write of the [catch] block, the record is
    left [in-progress] without a completion date.  With a store that
    rejects nothing it returns. *)
Theorem run_returns_with_a_terminal_status E cs os :
  (snd (research_run E cs os) = inr tt ->
   ended completed (fst (research_run E cs os))
   \/ ended failed (fst (research_run E cs os)))
  /\ (forall e, snd (research_run E cs os) = inl e ->
      faulted E e
      /\ Run.status (run (fst (research_run E cs os))) = in_progress
      /\ Run.completedAt (run (fst (research_run E cs os))) = None)
  /\ (no_store_fault E -> snd (research_run E cs os) = inr tt).
Proof.
  pose proof (wp_run E cs os _ _
                (performResearch_ends E (fun _ => True) (start E cs os)
                   (fun _ _ => I) (fun _ _ _ _ _ _ _ => I)
                   (fun _ _ _ _ _ _ _ _ _ _ => I) (start_untouched E cs os))) as H.
  cbv beta in H.
  destruct (snd (research_run E cs os)) as [e | []].
  - destruct H as [(Hs & Hc & _) Hf].
    split; [discriminate | split].
    + intros e' [= <-]. auto.
    + intros Hnf. elim (never_faulted E Hnf e Hf).
  - split; [| split; [discriminate | reflexivity]].
    intros _. destruct H as [H | [H _]]; auto.
Qed.

Lemma run_returns_with_a_terminal_status_witness :
  (ended completed EndToEnd.final \/ ended failed EndToEnd.final)
  /\ (faulted Nameless.env_store_down (MongoError "connection lost")
      /\ Run.status (run Nameless.final_store_down) = in_progress
      /\ Run.completedAt (run Nameless.final_store_down) = None).
Proof.
  split.
  - apply (proj1 (run_returns_with_a_terminal_status
                    EndToEnd.env EndToEnd.store_casinos EndToEnd.store_offers)).
    vm_compute. reflexivity.
  - apply (proj1 (proj2 (run_returns_with_a_terminal_status
                           Nameless.env_store_down [] []))).
    vm_compute. reflexivity.
Defined.

(** ** The counters of the dashboard after a run *)

Lemma countDocuments_app A (f : A -> bool) l l' :
  countDocuments f (l ++ l') = countDocuments f l + countDocuments f l'.
Proof. unfold countDocuments. rewrite filter_app, length_app. reflexivity. Qed.

Lemma countDocuments_all A (f : A -> bool) l :
  Forall (fun x => f x = true) l -> countDocuments f l = length l.
Proof.
  unfold countDocuments. induction 1 as [| x l Hx Hl IH]; simpl; [reflexivity |].
  rewrite Hx. simpl. rewrite IH. reflexivity.
Qed.

(** When a run ends [completed], the four counters of the dashboard have
    moved by the totals of the run's summary: the number of venues and the
    number of venues flagged [discovered] by [totalMissingCasinos], the
    number of offers and the number of offers of source [ai-research] by
    [totalNewOffers]. *)
Theorem completed_run_moves_the_dashboard_counters E cs os :
  Run.status (run (fst (research_run E cs os))) = completed ->
  exists s,
    Run.summary (run (fst (research_run E cs os))) = Some s
    /\ countDocuments every (casinos (fst (research_run E cs os)))
       = countDocuments every cs + Summary.totalMissingCasinos s
    /\ countDocuments discovered_true (casinos (fst (research_run E cs os)))
       = countDocuments discovered_true cs + Summary.totalMissingCasinos s
    /\ countDocuments every (offers (fst (research_run E cs os)))
       = countDocuments every os + Summary.totalNewOffers s
    /\ countDocuments source_ai_research (offers (fst (research_run E cs os)))
       = countDocuments source_ai_research os + Summary.totalNewOffers s.
Proof.
  intros Hdone.
  (* the documents added are flagged *)
  assert (Ha : appended cs os (fst (research_run E cs os))).
  { assert (H0 : appended cs os (start E cs os)).
    { exists [], []. cbn. rewrite !app_nil_r. repeat split; constructor. }
    pose proof (wp_run E cs os _ _ (performResearch_appends E cs os _ H0)) as H.
    cbv beta in H. destruct (snd (research_run E cs os)); exact H. }
  destruct Ha as (venues & added & Hc & Ho & Hv & Hadded).
  (* the venues created are counted by the summary *)
  assert (Hr : exists created s,
             casinos (fst (research_run E cs os)) = (cs ++ created)%list
             /\ Run.summary (run (fst (research_run E cs os))) = Some s
             /\ Summary.totalMissingCasinos s = length created).
  { assert (H0 : nothing_created cs (start E cs os)).
    { split; [apply start_untouched | reflexivity]. }
    pose proof (wp_run E cs os _ _ (performResearch_reported E cs _ H0)) as H.
    cbv beta in H.
    assert (Hp : not_completed (fst (research_run E cs os))
                 \/ exists created s,
                      casinos (fst (research_run E cs os)) = (cs ++ created)%list
                      /\ Run.summary (run (fst (research_run E cs os))) = Some s
                      /\ Summary.totalMissingCasinos s = length created).
    { destruct (snd (research_run E cs os)); [left; exact H |].
      destruct H as [(_ & _ & created & s & H1 & _ & H3 & H4) | H]; [right | left; exact H].
      exists created, s. auto. }
    destruct Hp as [Hn | Hp]; [elim (Hn Hdone) | exact Hp]. }
  destruct Hr as (created & s & Hc' & Hs & Hm).
  (* the offers inserted are counted by the summary *)
  assert (Hn : exists inserted s',
             offers (fst (research_run E cs os)) = (os ++ inserted)%list
             /\ Run.summary (run (fst (research_run E cs os))) = Some s'
             /\ Summary.totalNewOffers s' = length inserted).
  { assert (H0 : fresh_counter os (start E cs os)).
    { split; [reflexivity | split; [reflexivity | apply start_untouched]]. }
    pose proof (wp_run E cs os _ _ (counter_wp E os _ H0)) as H.
    cbv beta in H.
    assert (Hp : counter_behind os (fst (research_run E cs os))
                 \/ exists inserted s',
                      offers (fst (research_run E cs os)) = (os ++ inserted)%list
                      /\ Run.summary (run (fst (research_run E cs os))) = Some s'
                      /\ Summary.totalNewOffers s' = length inserted).
    { destruct (snd (research_run E cs os)); [left; exact H |].
      destruct H as [(_ & l & s' & H1 & _ & _ & H4 & H5) | H]; [right | left; exact H].
      exists l, s'. auto. }
    destruct Hp as [[_ Hnc] | Hp]; [elim (Hnc Hdone) | exact Hp]. }
  destruct Hn as (inserted & s' & Ho' & Hs' & Hnew).
  rewrite Hs in Hs'. injection Hs' as <-.
  rewrite Hc in Hc'. apply app_inv_head in Hc'. subst created.
  rewrite Ho in Ho'. apply app_inv_head in Ho'. subst inserted.
  exists s. split; [exact Hs |]. rewrite Hc, Ho, !countDocuments_app, Hm, Hnew.
  repeat split; f_equal; apply countDocuments_all.
  - apply Forall_forall. reflexivity.
  - eapply Forall_impl; [| exact Hv]. intros c [Hd _]. exact Hd.
  - apply Forall_forall. reflexivity.
  - eapply Forall_impl; [| exact Hadded]. intros o (Hsrc & _).
    unfold source_ai_research. rewrite Hsrc. reflexivity.
Qed.

Lemma completed_run_moves_the_dashboard_counters_witness :
  exists s,
    Run.summary (run EndToEnd.final) = Some s
    /\ countDocuments every (casinos EndToEnd.final)
       = countDocuments every EndToEnd.store_casinos + Summary.totalMissingCasinos s
    /\ countDocuments discovered_true (casinos EndToEnd.final)
       = countDocuments discovered_true EndToEnd.store_casinos
         + Summary.totalMissingCasinos s
    /\ countDocuments every (offers EndToEnd.final)
       = countDocuments every EndToEnd.store_offers + Summary.totalNewOffers s
    /\ countDocuments source_ai_research (offers EndToEnd.final)
       = countDocuments source_ai_research EndToEnd.store_offers
         + Summary.totalNewOffers s.
Proof.
  apply (completed_run_moves_the_dashboard_counters
           EndToEnd.env EndToEnd.store_casinos EndToEnd.store_offers).
  vm_compute. reflexivity.
Defined.

(** ** The run button of the dashboard *)

Section Polling.

Variable B : Backend.

Lemma polling_running n :
  forall from u,
    still_running B from (S n) ->
    exists r,
      get_run B (from + n) = inr (Some r)
      /\ polling B (S n) from u
         = inr (Ui.mk (Ui.loading u) (Some (progress_of r)) (Ui.currentResearch u)
                  (Ui.alerts u) (Ui.started u) (Ui.polls u + S n)).
Proof.
  induction n as [| n IH]; intros from u Hrun.
  - destruct (Hrun from) as (r & Hr & Ht); [lia |].
    exists r. rewrite Nat.add_0_r. split; [exact Hr |].
    cbn [polling]. rewrite Hr. cbv zeta. rewrite Ht. cbn.
    rewrite Nat.add_1_r. reflexivity.
  - destruct (Hrun from) as (r0 & Hr0 & Ht0); [lia |].
    assert (Hrest : still_running B (S from) (S n)).
    { intros k Hk. apply Hrun. lia. }
    destruct (IH (S from)
                (Ui.setResearchProgress (Some (progress_of r0)) (Ui.poll u)) Hrest)
      as (r & Hr & Hp).
    exists r. replace (from + S n) with (S from + n) by lia. split; [exact Hr |].
    change (polling B (S (S n)) from u)
      with (match get_run B from with
            | inl _ => inl (Ui.poll u)
            | inr None => inl (Ui.poll u)
            | inr (Some runData) =>
                let u' := Ui.setResearchProgress (Some (progress_of runData)) (Ui.poll u) in
                if terminal (Run.status runData) then
                  inr (Ui.setResearchProgress None
                         (Ui.alert ("Research " ++ status_text (Run.status runData) ++ "!")
                            (Ui.start [FetchSummary; FetchCasinos; FetchOffers; FetchResearches]
                               (Ui.setCurrentResearch (Some runData) u'))))
                else polling B (S n) (S from) u'
            end).
    rewrite Hr0. cbv zeta. rewrite Ht0, Hp. cbn. f_equal. f_equal. lia.
Qed.

Lemma polling_stops k :
  forall from remaining u r,
    still_running B from k ->
    get_run B (from + k) = inr (Some r) -> terminal (Run.status r) = true ->
    k < remaining ->
    polling B remaining from u
    = inr (Ui.mk (Ui.loading u) None (Some r)
             (Ui.alerts u ++ ["Research " ++ status_text (Run.status r) ++ "!"])
             (Ui.started u ++ [FetchSummary; FetchCasinos; FetchOffers; FetchResearches])
             (Ui.polls u + S k)).
Proof.
  induction k as [| k IH]; intros from remaining u r Hrun Hr Ht Hlt;
    (destruct remaining as [| remaining]; [lia |]).
  - rewrite Nat.add_0_r in Hr. cbn [polling]. rewrite Hr. cbv zeta. rewrite Ht. cbn.
    rewrite Nat.add_1_r. reflexivity.
  - destruct (Hrun from) as (r0 & Hr0 & Ht0); [lia |].
    cbn [polling]. rewrite Hr0. cbv zeta. rewrite Ht0.
    rewrite (IH (S from) remaining _ r).
    + cbn. f_equal. f_equal. lia.
    + intros j Hj. apply Hrun. lia.
    + replace (S from + k) with (from + S k) by lia. exact Hr.
    + exact Ht.
    + lia.
Qed.

Lemma polling_bounded remaining :
  forall from u,
    match polling B remaining from u with
    | inl u' | inr u' => Ui.polls u' <= Ui.polls u + remaining
    end.
Proof.
  induction remaining as [| remaining IH]; intros from u; cbn [polling]; [lia |].
  destruct (get_run B from) as [m | [r |]]; cbn; try lia.
  cbv zeta. destruct (terminal (Run.status r)); [cbn; lia |].
  specialize (IH (S from) (Ui.setResearchProgress (Some (progress_of r)) (Ui.poll u))).
  destruct (polling B remaining (S from)
              (Ui.setResearchProgress (Some (progress_of r)) (Ui.poll u)));
    cbn in IH; lia.
Qed.

End Polling.

(** The handler always ends with [loading] false and never asks for the
    run record more than 200 times.  When the record has no terminal
    status at any of the 200 polls, the handler gives up without a
    message: the only alert is the one for the start of the run, and the
    progress panel is left showing the record of the last poll. *)
Theorem polling_gives_up_after_200_polls B u :
  Ui.loading (handleRunResearch B u) = false
  /\ Ui.polls (handleRunResearch B u) <= Ui.polls u + 200
  /\ (forall runId,
        post_run B = inr runId -> still_running B 0 200 ->
        exists r,
          get_run B 199 = inr (Some r)
          /\ handleRunResearch B u
             = Ui.mk false (Some (progress_of r)) (Ui.currentResearch u)
                 (Ui.alerts u ++ ["Research started! Run ID: " ++ runId])
                 (Ui.started u) (Ui.polls u + 200)).
Proof.
  split; [reflexivity | split].
  - unfold handleRunResearch. destruct (post_run B) as [m | runId]; [cbn; lia |].
    pose proof (polling_bounded B 200 0
                  (Ui.alert ("Research started! Run ID: " ++ runId)
                     (Ui.setResearchProgress
                        (Some (Progress.mk "starting" None None None None []))
                        (Ui.setLoading true u)))) as H.
    destruct (polling B 200 0 _); cbn in *; exact H.
  - intros runId Hpost Hrun.
    destruct (polling_running B 199 0
                (Ui.alert ("Research started! Run ID: " ++ runId)
                   (Ui.setResearchProgress
                      (Some (Progress.mk "starting" None None None None []))
                      (Ui.setLoading true u))) Hrun) as (r & Hr & Hp).
    exists r. split; [exact Hr |].
    unfold handleRunResearch. rewrite Hpost, Hp. reflexivity.
Qed.

(** When the record is terminal for the first time at poll [k], before
    the 200th, the handler stops there: it has asked [k + 1] times, keeps
    the record as the current research, starts the four loaders, shows the
    outcome and clears the progress panel. *)
Theorem polling_stops_at_the_first_terminal_status B u runId k r :
  post_run B = inr runId -> k < 200 -> still_running B 0 k ->
  get_run B k = inr (Some r) -> terminal (Run.status r) = true ->
  handleRunResearch B u
  = Ui.mk false None (Some r)
      (Ui.alerts u ++ ["Research started! Run ID: " ++ runId;
                       "Research " ++ status_text (Run.status r) ++ "!"])
      (Ui.started u ++ [FetchSummary; FetchCasinos; FetchOffers; FetchResearches])
      (Ui.polls u + S k).
Proof.
  intros Hpost Hk Hrun Hr Ht. unfold handleRunResearch. rewrite Hpost.
  rewrite (polling_stops B k 0 200 _ r Hrun Hr Ht Hk). cbn.
  rewrite <- app_assoc. reflexivity.
Qed.

Lemma polling_gives_up_after_200_polls_witness :
  exists r,
    get_run Polled.stuck 199 = inr (Some r)
    /\ handleRunResearch Polled.stuck Polled.idle
       = Ui.mk false (Some (progress_of r)) None
           ["Research started! Run ID: 64f0"] [] 200.
Proof.
  apply (proj2 (proj2 (polling_gives_up_after_200_polls Polled.stuck Polled.idle))
           "64f0" eq_refl).
  intros k Hk. exists (Run.create 0). split; reflexivity.
Defined.

Lemma polling_stops_at_the_first_terminal_status_witness :
  handleRunResearch Polled.ended_at_third_poll Polled.idle
  = Ui.mk false None (Some (run EndToEnd.final))
      ["Research started! Run ID: 64f0"; "Research completed!"]
      [FetchSummary; FetchCasinos; FetchOffers; FetchResearches] 3.
Proof.
  assert (Hs : Run.status (run EndToEnd.final) = completed) by (vm_compute; reflexivity).
  pose proof (polling_stops_at_the_first_terminal_status
                Polled.ended_at_third_poll Polled.idle "64f0" 2 (run EndToEnd.final)
                eq_refl) as H.
  rewrite Hs in H. apply H.
  - lia.
  - intros k Hk. exists (Run.create 0).
    destruct k as [| [| k]]; [split; reflexivity | split; reflexivity | lia].
  - reflexivity.
  - reflexivity.
Defined.

(** ** The venues a run researches *)

Lemma hushed_covered pre : hushed (covered pre).
Proof. constructor; intros; unfold covered in *; unfold_inv; cbn in *; assumption. Qed.

Lemma hushed_discovering pre x : hushed (discovering pre x).
Proof. constructor; intros; unfold discovering in *; unfold_inv; cbn in *; assumption. Qed.

Lemma hushed_researching pre x all done : hushed (researching pre x all done).
Proof. constructor; intros; unfold researching in *; unfold_inv; cbn in *; assumption. Qed.

Lemma hushed_no_request_yet : hushed no_request_yet.
Proof. constructor; intros; unfold no_request_yet in *; unfold_inv; cbn in *; assumption. Qed.

Lemma calls_upto_app pre x cs :
  calls_upto (pre ++ [x]) cs
  = (calls_upto pre cs
     ++ DiscoverPrompt (snd x)
        :: research_calls (snd x)
             (filter (fun c => String.eqb (Casino.stateAbbreviation c) (fst x)) cs))%list.
Proof. unfold calls_upto. rewrite flat_map_app. simpl. rewrite app_nil_r. reflexivity. Qed.

(** A venue of another jurisdiction does not change the requests. *)
Lemma calls_upto_other pre cs c :
  ~ In (Casino.stateAbbreviation c) (map fst pre) ->
  calls_upto pre (cs ++ [c]) = calls_upto pre cs.
Proof.
  unfold calls_upto. induction pre as [| entry pre IH]; intros Hno; [reflexivity |].
  simpl. rewrite IH by (intros H; apply Hno; right; exact H).
  rewrite filter_app. simpl.
  destruct (String.eqb_spec (Casino.stateAbbreviation c) (fst entry)) as [Heq | Hne].
  - elim Hno. left. symmetry. exact Heq.
  - rewrite app_nil_r. reflexivity.
Qed.

Lemma states_codes_distinct pre x post :
  states = (pre ++ x :: post)%list -> ~ In (fst x) (map fst pre).
Proof.
  intros Heq.
  assert (Hnd : NoDup (map fst states)).
  { cbn. repeat constructor; cbn; intuition discriminate. }
  rewrite Heq, map_app in Hnd. cbn in Hnd.
  apply NoDup_remove_2 in Hnd. intros Hin. apply Hnd. apply in_or_app. left. exact Hin.
Qed.

Section Coverage.

Variable E : Env.

Lemma offer_step_researching pre x all done c w :
  researching pre x all done w ->
  wp (offer_step E (fst x) (snd x) c)
     (fun _ => researching pre x all (done ++ [c]))
     (fun _ => not_completed) w.
Proof.
  intros HP.
  assert (HR : forall d w', researching pre x all d w' -> not_completed w').
  { intros d w' (H & _). apply untouched_not_completed. exact H. }
  apply offer_step_spec
    with (P := researching pre x all done) (C := researching pre x all done)
         (D := researching pre x all done)
         (F := fun _ => researching pre x all (done ++ [c]))
         (Mid := fun _ _ => researching pre x all (done ++ [c]))
         (Aft := researching pre x all (done ++ [c]));
    eauto using hushed_researching.
  intros l w' (Hu & Hall & Hc) _. split; [exact Hu | split; [exact Hall |]].
  cbn. rewrite Hc. unfold research_calls. rewrite map_app. cbn.
  rewrite <- app_assoc. reflexivity.
Qed.

Lemma state_step_covered pre x post w :
  states = (pre ++ x :: post)%list ->
  covered pre w ->
  wp (state_step E x) (fun _ => covered (pre ++ [x])) (fun _ => not_completed) w.
Proof.
  intros Heq HP.
  assert (HR : forall w', discovering pre x w' -> not_completed w').
  { intros w' (H & _). apply untouched_not_completed. exact H. }
  apply state_step_spec
    with (P := covered pre) (Pd := discovering pre x) (V := discovering pre x)
         (P2 := discovering pre x) (L := researching pre x)
         (Pe := covered (pre ++ [x]));
    eauto using hushed_covered, hushed_discovering, hushed_researching.
  - intros e w' _ (H & _). apply untouched_not_completed. exact H.
  - intros all done e w' _ (H & _). apply untouched_not_completed. exact H.
  - intros e w' _ (H & _). apply untouched_not_completed. exact H.
  - intros w' (Hu & Hc). split; [exact Hu |]. cbn. rewrite Hc. reflexivity.
  - intros l w0 c w' _ _ HV.
    apply venue_step_spec
      with (P := discovering pre x) (Mid := fun _ => discovering pre x);
      eauto using hushed_discovering.
    intros name id createdAt lastUpdated w'' _ (Hu & Hc).
    split; [exact Hu |]. cbn. rewrite calls_upto_other; [exact Hc |].
    cbn. apply (states_codes_distinct pre x post Heq).
  - intros w' (Hu & Hc). split; [exact Hu | split; [reflexivity | exact Hc]].
  - intros all done c rest w' _ HL. apply offer_step_researching. exact HL.
  - intros all w' (Hu & Hall & Hc). split; [exact Hu |].
    rewrite calls_upto_app, <- Hall. exact Hc.
Qed.

Lemma performResearch_covered w :
  no_request_yet w ->
  wp (performResearch E)
     (fun _ w' => (Run.status (run w') = completed
                   /\ calls w' = all_calls (casinos w'))
                  \/ not_completed w')
     (fun _ => not_completed) w.
Proof.
  intros HP.
  apply performResearch_spec with (P0 := no_request_yet) (P := covered);
    auto using hushed_covered, hushed_no_request_yet, hushed_not_completed.
  - intros w' (H & _). apply untouched_not_completed. exact H.
  - intros pre w' (H & _). apply untouched_not_completed. exact H.
  - intros pre x post w' Heq HP'. apply (state_step_covered pre x post); assumption.
  - intros d w' (Hu & Hc). split; [reflexivity | exact Hc].
  - intros d w' H. unfold not_completed. cbn. discriminate.
Qed.

End Coverage.

(** When a run ends [completed], its requests are, jurisdiction by
    jurisdiction in the order of the enumeration, the discovery request
    followed by one research request for every venue with the code of the
    jurisdiction that the store holds at the end of the run, in store
    order: the venues stored before the run and the venues the run
    created are each researched once. *)
Theorem completed_run_researches_every_stored_venue E cs os :
  Run.status (run (fst (research_run E cs os))) = completed ->
  calls (fst (research_run E cs os)) = all_calls (casinos (fst (research_run E cs os))).
Proof.
  intros Hdone.
  assert (H0 : no_request_yet (start E cs os)).
  { split; [apply start_untouched | reflexivity]. }
  pose proof (wp_run E cs os _ _ (performResearch_covered E _ H0)) as H.
  cbv beta in H.
  assert (Hp : not_completed (fst (research_run E cs os))
               \/ calls (fst (research_run E cs os))
                  = all_calls (casinos (fst (research_run E cs os)))).
  { destruct (snd (research_run E cs os)); [left; exact H |].
    destruct H as [[_ H] | H]; [right | left]; exact H. }
  destruct Hp as [Hn | Hp]; [elim (Hn Hdone) | exact Hp].
Qed.

Lemma completed_run_researches_every_stored_venue_witness :
  calls EndToEnd.final = all_calls (casinos EndToEnd.final).
Proof.
  apply (completed_run_researches_every_stored_venue
           EndToEnd.env EndToEnd.store_casinos EndToEnd.store_offers).
  vm_compute. reflexivity.
Defined.

(** ** The log of a completed run *)

Lemma hushed_totals_are m n : hushed (totals_are m n).
Proof. constructor; intros; unfold totals_are in *; unfold_inv; cbn in *; assumption. Qed.

Section Log.

Variable E : Env.

(** [logProgress] appends one entry to the record's log. *)
Lemma logProgress_appends (P : World -> Prop) message w :
  hushed P -> P w ->
  wp (logProgress E message)
     (fun _ w' => P w'
                  /\ exists d, Run.progressLog (run w')
                               = (Run.progressLog (run w) ++ [stamp E d message])%list)
     (fun e w' => P w' /\ faulted E e) w.
Proof.
  intros HQ HP. unfold logProgress, ResearchRun_findByIdAndUpdate, new_Date.
  repeat wp_step.
  apply wp_store_op.
  - intros _. repeat wp_step. split; [hush |].
    exists (now E (ops w)). reflexivity.
  - intros m Hm. split; [hush | eapply faulted_intro; eauto].
Qed.

Lemma states_loop_untouched w :
  untouched w ->
  wp (for_of states (state_step E)) (fun _ => untouched) (fun _ => untouched) w.
Proof.
  intros H0. apply wp_for_of; [exact H0 |].
  intros x w' _ HP.
  apply state_step_spec
    with (P := untouched) (Pd := untouched) (V := untouched) (P2 := untouched)
         (L := fun _ _ => untouched) (Pe := untouched);
    auto using hushed_untouched.
  - intros l w0 c w'' _ _ HV.
    apply venue_step_spec with (P := untouched) (Mid := fun _ => untouched);
      auto using hushed_untouched.
  - intros all0 pre0 c post0 w'' _ HP2.
    apply offer_step_spec
      with (C := untouched) (D := untouched) (F := fun _ => untouched)
           (Mid := fun _ _ => untouched) (Aft := untouched) (P := untouched);
      auto using hushed_untouched.
Qed.

Lemma research_body_logs w :
  untouched w ->
  wp (research_body E)
     (fun _ w' =>
        exists s d1 d2 d3,
          Run.summary (run w') = Some s
          /\ log_ends_with
               [stamp E d1 (nl ++ "âœ… Research completed successfully");
                stamp E d2 ("   Total missing casinos: "
                            ++ JS.string_of_nat (Summary.totalMissingCasinos s));
                stamp E d3 ("   Total new offers: "
                            ++ JS.string_of_nat (Summary.totalNewOffers s))] w')
     (fun _ => untouched) w.
Proof.
  intros H0. pose proof hushed_untouched as HQ.
  unfold research_body, ResearchRun_findById.
  repeat wp_step.
  wp_next (store_op_hushed E untouched). intros _ w1 HP1.
  repeat wp_step.
  wp_next (logProgress_hushed E untouched). intros _ w2 HP2.
  wp_seq.
  eapply wp_mono; [apply states_loop_untouched; exact HP2 | cbv beta | cbv beta; auto].
  intros _ w3 HP3.
  set (m := count_missing (Vars.missingCasinos (vars w3))).
  set (n := Vars.totalNewOffers (vars w3)).
  assert (HT3 : totals_are m n w3) by (repeat split; apply HP3).
  wp_seq.
  eapply wp_mono; [apply (logProgress_appends (totals_are m n));
                   [apply hushed_totals_are | exact HT3]
                  | cbv beta | cbv beta; intros e w' [[H _] _]; exact H].
  intros _ w4 [HT4 [d1 Hl4]].
  repeat wp_step.
  assert (Hm4 : count_missing (Vars.missingCasinos (vars w4)) = m) by apply HT4.
  rewrite Hm4.
  wp_seq.
  eapply wp_mono; [apply (logProgress_appends (totals_are m n));
                   [apply hushed_totals_are | exact HT4]
                  | cbv beta | cbv beta; intros e w' [[H _] _]; exact H].
  intros _ w5 [HT5 [d2 Hl5]].
  assert (Hn4 : Vars.totalNewOffers (vars w4) = n) by apply HT4.
  rewrite Hn4.
  wp_seq.
  eapply wp_mono; [apply (logProgress_appends (totals_are m n));
                   [apply hushed_totals_are | exact HT5]
                  | cbv beta | cbv beta; intros e w' [[H _] _]; exact H].
  intros _ w6 [HT6 [d3 Hl6]].
  unfold finalize, ResearchRun_findByIdAndUpdate, new_Date. repeat wp_step.
  apply wp_store_op; [intros _ | intros e _; hush; apply HT6].
  repeat wp_step.
  destruct HT6 as (_ & Hm6 & Hn6).
  eexists. exists d1, d2, d3. split; [reflexivity |].
  exists (Run.progressLog (run w3)). cbn.
  rewrite Hm6, Hn6, Hl6, Hl5, Hl4, <- !app_assoc. reflexivity.
Qed.

End Log.

(** When a run ends [completed], the last three entries of its log are
    the completion message and the two totals of its summary. *)
Theorem completed_run_logs_its_totals E cs os :
  Run.status (run (fst (research_run E cs os))) = completed ->
  exists s d1 d2 d3,
    Run.summary (run (fst (research_run E cs os))) = Some s
    /\ log_ends_with
         [stamp E d1 (nl ++ "âœ… Research completed successfully");
          stamp E d2 ("   Total missing casinos: "
                      ++ JS.string_of_nat (Summary.totalMissingCasinos s));
          stamp E d3 ("   Total new offers: "
                      ++ JS.string_of_nat (Summary.totalNewOffers s))]
         (fst (research_run E cs os)).
Proof.
  intros Hdone.
  pose proof (research_body_logs E (start E cs os) (start_untouched E cs os)) as Hb.
  unfold wp in Hb. unfold research_run, performResearch, try_catch in *.
  destruct (research_body E (start E cs os)) as [w1 [e | []]]; [| exact Hb].
  exfalso.
  pose proof (research_failed_spec E untouched not_completed e w1 hushed_untouched) as Hf.
  unfold wp in Hf.
  assert (Hn : not_completed (fst (research_failed E e w1))).
  { destruct (research_failed E e w1) as [w2 [e' | []]]; cbn.
    - apply untouched_not_completed. apply Hf; auto.
      intros d w' _. unfold not_completed. cbn. discriminate.
    - apply Hf; auto. intros d w' _. unfold not_completed. cbn. discriminate. }
  exact (Hn Hdone).
Qed.

Lemma completed_run_logs_its_totals_witness :
  exists s d1 d2 d3,
    Run.summary (run EndToEnd.final) = Some s
    /\ log_ends_with
         [stamp EndToEnd.env d1 (nl ++ "âœ… Research completed successfully");
          stamp EndToEnd.env d2
            ("   Total missing casinos: "
             ++ JS.string_of_nat (Summary.totalMissingCasinos s));
          stamp EndToEnd.env d3
            ("   Total new offers: " ++ JS.string_of_nat (Summary.totalNewOffers s))]
         EndToEnd.final.
Proof.
  apply (completed_run_logs_its_totals
           EndToEnd.env EndToEnd.store_casinos EndToEnd.store_offers).
  vm_compute. reflexivity.
Defined.
